(** * A shallow embedding of the BGP router of [bgp-router.py]

  The router keeps a forwarding table of route records, aggregates
  adjacent prefixes, disaggregates on withdrawal, selects a best path for
  data packets and propagates announcements according to the commercial
  relationship of each neighbour.

  Python values are embedded as follows: [str] as [string] (compared by
  code point, which is what [String.compare] does on bytes), [int] as [Z],
  [list] as [list], the route dictionary as the record [route], an
  exception as the [Raise] constructor of [result].  Route dictionaries
  are never mutated once they are stored in the table, so they are
  embedded as values; the inbound message of a withdraw is mutated after
  it was appended to the update log, so the log entry is updated in
  place (see [handle_withdraw_msg]). *)

From Stdlib Require Import ZArith List String Ascii Bool Lia Arith DecimalString.
From Stdlib Require Import Permutation.
Import ListNotations.

Local Open Scope string_scope.
Local Open Scope list_scope.
Local Open Scope Z_scope.

(** ** Exceptions and results *)

Inductive exn : Type :=
| ValueError   (* int() of a non-numeral, list.remove of an absent element *)
| IndexError   (* string or list index out of range *)
| KeyError     (* dictionary lookup of an absent key *)
| TypeError.   (* a payload of the wrong shape, subscripting None *)

Inductive result (A : Type) : Type :=
| Ok (a : A)
| Raise (e : exn).

Arguments Ok {A} a.
Arguments Raise {A} e.

Definition bind {A B : Type} (m : result A) (k : A -> result B) : result B :=
  match m with
  | Ok a => k a
  | Raise e => Raise e
  end.

Notation "x <- m ;; k" := (bind m (fun x => k))
  (at level 100, m at next level, right associativity).
Notation "' p <- m ;; k" := (bind m (fun x => let 'p := x in k))
  (at level 100, p pattern, m at next level, right associativity).

(** ** Python primitives used by the router *)

Module Py.

(** [s.split(sep)] for a one-character separator. *)
Fixpoint split (sep : ascii) (s : string) : list string :=
  match s with
  | EmptyString => [EmptyString]
  | String c s' =>
      if Ascii.eqb c sep then EmptyString :: split sep s'
      else match split sep s' with
           | seg :: rest => String c seg :: rest
           | [] => [String c EmptyString]
           end
  end.

Definition digit_of (c : ascii) : option Z :=
  let n := Z.of_N (N_of_ascii c) in
  if (48 <=? n) && (n <=? 57) then Some (n - 48) else None.

Fixpoint int_digits (acc : Z) (s : string) : option Z :=
  match s with
  | EmptyString => Some acc
  | String c s' =>
      match digit_of c with
      | Some d => int_digits (10 * acc + d) s'
      | None => None
      end
  end.

(** [int(s)] on unsigned decimal numerals, the only literals a dotted
    quad contains.  Every other string is reported as [ValueError]; the
    sign, blank and underscore forms that Python also reads are outside
    this model, and no statement below draws a conclusion from a
    [ValueError] of [int]. *)
Definition int (s : string) : result Z :=
  match s with
  | EmptyString => Raise ValueError
  | _ => match int_digits 0 s with
         | Some z => Ok z
         | None => Raise ValueError
         end
  end.

Fixpoint bin_pos (p : positive) (acc : string) : string :=
  match p with
  | xH => String "1" acc
  | xO p' => bin_pos p' (String "0" acc)
  | xI p' => bin_pos p' (String "1" acc)
  end.

Fixpoint zeros (n : nat) (s : string) : string :=
  match n with
  | O => s
  | S n' => String "0" (zeros n' s)
  end.

Definition zfill (width : nat) (s : string) : string :=
  zeros (width - String.length s) s.

(** ['{0:08b}'.format(z)]: the sign counts in the width of 8. *)
Definition format_08b (z : Z) : string :=
  match z with
  | Z0 => zfill 8 "0"
  | Zpos p => zfill 8 (bin_pos p "")
  | Zneg p => String "-" (zfill 7 (bin_pos p ""))
  end.

(** [str(z)] and ["%d" % z]. *)
Definition str (z : Z) : string := NilZero.string_of_int (Z.to_int z).

(** [s.count(c)] for a one-character [c]. *)
Fixpoint count (c : ascii) (s : string) : Z :=
  match s with
  | EmptyString => 0
  | String d s' => (if Ascii.eqb d c then 1 else 0) + count c s'
  end.

(** [s[0:k]]: a negative [k] counts from the end, and the bounds are
    clipped to the string. *)
Definition slice0 (k : Z) (s : string) : string :=
  if k <? 0
  then substring 0 (Z.to_nat (Z.of_nat (String.length s) + k)) s
  else substring 0 (Z.to_nat k) s.

(** [s[k]]: a negative [k] counts from the end; out of range raises. *)
Definition index (s : string) (k : Z) : result ascii :=
  let i := if k <? 0 then Z.of_nat (String.length s) + k else k in
  if i <? 0 then Raise IndexError
  else match String.get (Z.to_nat i) s with
       | Some c => Ok c
       | None => Raise IndexError
       end.

(** [a > b] on strings. *)
Definition str_gt (a b : string) : bool := String.ltb b a.

(** [l[k]] on a list, for a natural [k]. *)
Definition nth {A : Type} (l : list A) (k : nat) : result A :=
  match nth_error l k with
  | Some a => Ok a
  | None => Raise IndexError
  end.

End Py.

(** ** Route records *)

Inductive origin_t : Type := IGP | EGP | UNK.

Definition origin_eqb (a b : origin_t) : bool :=
  match a, b with
  | IGP, IGP | EGP, EGP | UNK, UNK => true
  | _, _ => false
  end.

(** The route dictionary: the six attributes of the announcement, the
    [peer] and the two child references ([None] in a leaf).  [origin] is
    one of the three strings ["IGP"], ["EGP"], ["UNK"] of the data model. *)
#[local] Unset Elimination Schemes.
Inductive route : Type :=
  Route {
    network : string;
    netmask : string;
    localpref : Z;
    ASPath : list Z;
    origin : origin_t;
    selfOrigin : bool;
    peer : string;
    child0 : option route;
    child1 : option route
  }.
#[local] Set Elimination Schemes.

Definition set_network (r : route) (n : string) : route :=
  Route n (netmask r) (localpref r) (ASPath r) (origin r) (selfOrigin r)
        (peer r) (child0 r) (child1 r).

Definition set_netmask (r : route) (m : string) : route :=
  Route (network r) m (localpref r) (ASPath r) (origin r) (selfOrigin r)
        (peer r) (child0 r) (child1 r).

Definition set_children (r : route) (c0 c1 : option route) : route :=
  Route (network r) (netmask r) (localpref r) (ASPath r) (origin r)
        (selfOrigin r) (peer r) c0 c1.

Fixpoint aspath_eqb (a b : list Z) : bool :=
  match a, b with
  | [], [] => true
  | x :: a', y :: b' => (x =? y) && aspath_eqb a' b'
  | _, _ => false
  end.

(** [r1 == r2] on route dictionaries: key by key, children included. *)
Fixpoint route_eqb (r1 r2 : route) {struct r1} : bool :=
  match r1, r2 with
  | Route n1 m1 l1 a1 o1 s1 p1 c10 c11, Route n2 m2 l2 a2 o2 s2 p2 c20 c21 =>
      (n1 =? n2)%string && (m1 =? m2)%string && (l1 =? l2)
      && aspath_eqb a1 a2 && origin_eqb o1 o2 && Bool.eqb s1 s2
      && (p1 =? p2)%string
      && match c10, c20 with
         | None, None => true
         | Some a, Some b => route_eqb a b
         | _, _ => false
         end
      && match c11, c21 with
         | None, None => true
         | Some a, Some b => route_eqb a b
         | _, _ => false
         end
  end.

(** ** Prefix primitives (lines 44-86) *)

Fixpoint concat_map_result (f : string -> result string) (l : list string)
  : result string :=
  match l with
  | [] => Ok EmptyString
  | s :: l' =>
      b <- f s ;;
      rest <- concat_map_result f l' ;;
      Ok (b ++ rest)%string
  end.

(** [ip_to_binary_string]: every dot-separated segment printed on 8 bits. *)
Definition ip_to_binary_string (ip : string) : result string :=
  concat_map_result (fun segment => z <- Py.int segment ;; Ok (Py.format_08b z))
                    (Py.split "." ip).

Fixpoint netmask_loop (n : nat) (netmask_length : Z) (ip : string) : string :=
  match n with
  | O => ip
  | S n' =>
      let '(segment, netmask_length') :=
        if netmask_length <? 8 then (netmask_length, 0)
        else (8, netmask_length - 8) in
      let segment' := 2 ^ 8 - 2 ^ (8 - segment) in
      netmask_loop n' netmask_length' (ip ++ "." ++ Py.str segment')%string
  end.

(** [netmask_with_length]: four rounds of the loop, then [ip[1:]]. *)
Definition netmask_with_length (netmask_length : Z) : string :=
  match netmask_loop 4 netmask_length "" with
  | EmptyString => EmptyString
  | String _ s => s
  end.

(** [get_netmask_length]: the number of ['1'] characters. *)
Definition get_netmask_length (netmask : string) : result Z :=
  b <- ip_to_binary_string netmask ;;
  Ok (Py.count "1" b).

(** [our_addr]: the first four segments, the fourth replaced by 1. *)
Definition our_addr (dst : string) : result string :=
  (fix go (segs : list string) (acc : list Z) : result string :=
     match segs with
     | [] =>
         match acc with
         | q0 :: q1 :: q2 :: _ :: _ =>
             Ok (Py.str q0 ++ "." ++ Py.str q1 ++ "." ++ Py.str q2 ++ "."
                 ++ Py.str 1)%string
         | _ => Raise IndexError
         end
     | s :: segs' => z <- Py.int s ;; go segs' (acc ++ [z])
     end) (Py.split "." dst) [].

(** ** Aggregation (lines 88-130) *)

(** [aggregate_routes]: [Ok None] when the two routes do not combine. *)
Definition aggregate_routes (route1 route2 : route) : result (option route) :=
  if negb (netmask route1 =? netmask route2)%string
     || negb (localpref route1 =? localpref route2)
     || negb (Bool.eqb (selfOrigin route1) (selfOrigin route2))
     || negb (aspath_eqb (ASPath route1) (ASPath route2))
     || negb (origin_eqb (origin route1) (origin route2))
  then Ok None
  else
    netmask_length <- get_netmask_length (netmask route1) ;;
    route1_ip_binary <- ip_to_binary_string (network route1) ;;
    route2_ip_binary <- ip_to_binary_string (network route2) ;;
    if negb (Py.slice0 (netmask_length - 1) route1_ip_binary
             =? Py.slice0 (netmask_length - 1) route2_ip_binary)%string
    then Ok None
    else
      b1 <- Py.index route1_ip_binary (netmask_length - 1) ;;
      b2 <- Py.index route2_ip_binary (netmask_length - 1) ;;
      if Ascii.eqb b1 b2 then Ok None
      else
        let aggregated_route :=
          if Py.str_gt (network route1) (network route2)
          then set_children (set_network route1 (network route2))
                            (Some route2) (Some route1)
          else set_children route1 (Some route1) (Some route2) in
        Ok (Some (set_netmask aggregated_route
                              (netmask_with_length (netmask_length - 1)))).

(** One entry of [aggregated_routes]. *)
Record aggregation : Type := Aggregation {
  route1 : route;
  route2 : route;
  aggregated_route : route
}.

(** The inner loop of [coalesce]: [routes[i]] against every later route. *)
Fixpoint aggregate_with (ri : route) (later : list route)
  : result (list aggregation) :=
  match later with
  | [] => Ok []
  | rj :: later' =>
      a <- aggregate_routes ri rj ;;
      rest <- aggregate_with ri later' ;;
      match a with
      | Some agg => Ok (Aggregation ri rj agg :: rest)
      | None => Ok rest
      end
  end.

(** The two nested loops of [coalesce]: every pair [i < j], in order. *)
Fixpoint aggregate_pairs (routes : list route) : result (list aggregation) :=
  match routes with
  | [] => Ok []
  | ri :: later =>
      here <- aggregate_with ri later ;;
      rest <- aggregate_pairs later ;;
      Ok (here ++ rest)
  end.

(** [l.remove(x)]: the first element equal to [x] goes; [ValueError] when
    there is none. *)
Fixpoint list_remove (x : route) (l : list route) : result (list route) :=
  match l with
  | [] => Raise ValueError
  | y :: l' =>
      if route_eqb y x then Ok l'
      else l'' <- list_remove x l' ;; Ok (y :: l'')
  end.

(** The second loop of [coalesce]. *)
Fixpoint replace_pairs (aggregated_routes : list aggregation)
         (routes : list route) : result (list route) :=
  match aggregated_routes with
  | [] => Ok routes
  | a :: rest =>
      routes1 <- list_remove (route1 a) routes ;;
      routes2 <- list_remove (route2 a) routes1 ;;
      replace_pairs rest (routes2 ++ [aggregated_route a])
  end.

(** [coalesce] calls itself as long as a pass aggregated something.  Every
    such pass shortens the table, so [depth] recursive calls are enough
    when [depth] is the length of the table ([coalesce_unfold]). *)
Fixpoint coalesce_rec (depth : nat) (routes : list route)
  : result (list route) :=
  aggregated_routes <- aggregate_pairs routes ;;
  routes' <- replace_pairs aggregated_routes routes ;;
  match aggregated_routes with
  | [] => Ok routes'
  | _ :: _ =>
      match depth with
      | O => Ok routes'
      | S depth' => coalesce_rec depth' routes'
      end
  end.

Definition coalesce (routes : list route) : result (list route) :=
  coalesce_rec (List.length routes) routes.

(** ** Messages and router state *)

(** A route as [handle_dump_msg] prints it: the dictionary without its
    [child0] and [child1] keys. *)
Record printable_route : Type := PrintableRoute {
  p_network : string;
  p_netmask : string;
  p_localpref : Z;
  p_ASPath : list Z;
  p_origin : origin_t;
  p_selfOrigin : bool;
  p_peer : string
}.

(** The [msg] field of a record, one shape per message type. *)
Inductive payload : Type :=
| Announcement (network netmask : string) (localpref : Z) (ASPath : list Z)
               (origin : origin_t) (selfOrigin : bool)
| Forwarded (netmask : string) (ASPath : list Z) (network : string)
| Withdrawal (descriptors : list (string * string))
| Opaque (data : string)
| Table (entries : list printable_route)
| Empty.

Record message : Type := Message {
  type : string;
  src : string;
  dst : string;
  msg : payload
}.

(** A datagram handed to [send]: the neighbour and the record. *)
Definition datagram : Type := (string * message)%type.

(** The state of a [Router].  [relations] is the dictionary in insertion
    order; [sockets] and [ports] have the same keys and are not kept. *)
Record router : Type := Router {
  asn : Z;
  relations : list (string * string);
  updates : list message;
  routes : list route
}.

Definition set_updates (st : router) (u : list message) : router :=
  Router (asn st) (relations st) u (routes st).

Definition set_routes (st : router) (r : list route) : router :=
  Router (asn st) (relations st) (updates st) r.

(** [d[k]] *)
Fixpoint dict_get (d : list (string * string)) (k : string) : result string :=
  match d with
  | [] => Raise KeyError
  | (k', v) :: d' => if (k' =? k)%string then Ok v else dict_get d' k
  end.

(** [d[k] = v]: an existing key keeps its place. *)
Fixpoint dict_set (d : list (string * string)) (k v : string)
  : list (string * string) :=
  match d with
  | [] => [(k, v)]
  | (k', v') :: d' =>
      if (k' =? k)%string then (k, v) :: d' else (k', v') :: dict_set d' k v
  end.

Definition keys (d : list (string * string)) : list string := map fst d.

Definition is_cust (relation : string) : bool := (relation =? "cust")%string.

(** [send]: the socket of the neighbour is looked up first. *)
Definition send (st : router) (network : string) (m : message)
  : result datagram :=
  _ <- dict_get (relations st) network ;;
  Ok (network, m).

(** [__init__]: one handshake per connection, in order. *)
Fixpoint connect (st : router) (connections : list (string * string))
  : result (router * list datagram) :=
  match connections with
  | [] => Ok (st, [])
  | (neighbor, relation) :: rest =>
      let st' := Router (asn st) (dict_set (relations st) neighbor relation)
                        (updates st) (routes st) in
      a <- our_addr neighbor ;;
      d <- send st' neighbor (Message "handshake" a neighbor Empty) ;;
      '(st'', out) <- connect st' rest ;;
      Ok (st'', d :: out)
  end.

Definition init (asn : Z) (connections : list (string * string))
  : result (router * list datagram) :=
  connect (Router asn [] [] []) connections.

(** ** Update handling (lines 132-152) *)

(** The test of the propagation loop, with Python's short-circuit order. *)
Definition forwards (st : router) (srcif neighbor : string) : result bool :=
  if (neighbor =? srcif)%string then Ok false
  else
    rs <- dict_get (relations st) srcif ;;
    if is_cust rs then Ok true
    else rn <- dict_get (relations st) neighbor ;; Ok (is_cust rn).

Fixpoint forward_update (st : router) (srcif : string) (n_msg : payload)
         (neighbors : list string) : result (list datagram) :=
  match neighbors with
  | [] => Ok []
  | neighbor :: rest =>
      go <- forwards st srcif neighbor ;;
      here <- (if go
               then a <- our_addr neighbor ;;
                    d <- send st neighbor (Message "update" a neighbor n_msg) ;;
                    Ok [d]
               else Ok []) ;;
      out <- forward_update st srcif n_msg rest ;;
      Ok (here ++ out)
  end.

Definition handle_update_msg (st : router) (srcif : string) (m : message)
  : result (router * list datagram) :=
  let updates' := updates st ++ [m] in
  match msg m with
  | Announcement nw nm lp ap og so =>
      let new_route := Route nw nm lp ap og so (src m) None None in
      routes' <- coalesce (routes st ++ [new_route]) ;;
      let st' := Router (asn st) (relations st) updates' routes' in
      out <- forward_update st' srcif (Forwarded nm (asn st :: ap) nw)
                            (keys (relations st)) ;;
      Ok (st', out)
  | _ => Raise TypeError
  end.

(** ** Withdraw handling (lines 155-197) *)

(** [x in l] *)
Definition list_mem (x : route) (l : list route) : bool :=
  existsb (fun y => route_eqb y x) l.

(** [withdraw_route]: the table is threaded through, since a matched
    subtree appends its sibling to [self.routes].  A child that is [None]
    where a record is needed raises. *)
Fixpoint withdraw_route (srcif w_network w_netmask : string) (r : route)
         (table : list route) {struct r} : result (bool * list route) :=
  match r with
  | Route nw nm _ _ _ _ pr c0 c1 =>
      if (nw =? w_network)%string && (nm =? w_netmask)%string
         && (pr =? srcif)%string
      then Ok (true, table)
      else
        match c0 with
        | None => Ok (false, table)
        | Some r0 =>
            '(hit0, table0) <- withdraw_route srcif w_network w_netmask r0 table ;;
            if hit0 then
              match c1 with
              | None => Raise TypeError
              | Some r1 =>
                  Ok (true, if list_mem r1 table0 then table0
                            else table0 ++ [r1])
              end
            else
              match c1 with
              | None => Raise TypeError
              | Some r1 =>
                  '(hit1, table1) <-
                    withdraw_route srcif w_network w_netmask r1 table0 ;;
                  if hit1 then
                    Ok (true, if list_mem r0 table1 then table1
                              else table1 ++ [r0])
                  else Ok (false, table1)
              end
        end
  end.

(** The inner loop of [handle_withdraw_msg]: one table entry against every
    descriptor of the message. *)
Fixpoint withdraw_each (srcif : string) (descriptors : list (string * string))
         (r : route) (table withdraw_routes : list route)
  : result (list route * list route) :=
  match descriptors with
  | [] => Ok (table, withdraw_routes)
  | (w_network, w_netmask) :: rest =>
      '(hit, table') <- withdraw_route srcif w_network w_netmask r table ;;
      withdraw_each srcif rest r table'
                    (if hit then withdraw_routes ++ [r] else withdraw_routes)
  end.

(** The outer loop walks [self.routes] by position while [withdraw_route]
    appends to it, so the entries appended on the way are visited too.
    [fuel] bounds the number of rounds; [withdraw_fuel] is enough
    ([withdraw_scan_unfold]). *)
Fixpoint withdraw_scan (fuel : nat) (srcif : string)
         (descriptors : list (string * string)) (i : nat)
         (table withdraw_routes : list route)
  : result (list route * list route) :=
  match nth_error table i with
  | None => Ok (table, withdraw_routes)
  | Some r =>
      '(table', withdraw_routes') <-
        withdraw_each srcif descriptors r table withdraw_routes ;;
      match fuel with
      | O => Ok (table', withdraw_routes')
      | S fuel' =>
          withdraw_scan fuel' srcif descriptors (S i) table' withdraw_routes'
      end
  end.

(** The number of records of a tree, and the bound it gives on the rounds
    of the scan: a round on [r] with [k] descriptors appends subtrees of
    [r] of total weight below [weight k r]. *)
Fixpoint size (r : route) : nat :=
  match r with
  | Route _ _ _ _ _ _ _ c0 c1 =>
      S (match c0 with Some r0 => size r0 | None => 0 end
         + match c1 with Some r1 => size r1 | None => 0 end)
  end.

Definition weight (k : nat) (r : route) : nat := Nat.pow (S k) (size r).

Definition withdraw_fuel (k : nat) (table : list route) : nat :=
  list_sum (map (weight k) table).

(** The removal loop: every collected entry that is still in the table. *)
Fixpoint remove_withdrawn (withdraw_routes table : list route)
  : result (list route) :=
  match withdraw_routes with
  | [] => Ok table
  | w :: rest =>
      if list_mem w table
      then table' <- list_remove w table ;; remove_withdrawn rest table'
      else remove_withdrawn rest table
  end.

(** [l[i] = x] on the update log. *)
Fixpoint log_set (l : list message) (i : nat) (x : message) : list message :=
  match l, i with
  | [], _ => []
  | _ :: l', O => x :: l'
  | y :: l', S i' => y :: log_set l' i' x
  end.

(** The propagation loop of a withdraw assigns [src] and [dst] of the
    inbound record itself.  That record is the object appended to the
    log, at position [ref]: every assignment is made there. *)
Fixpoint forward_withdraw (st : router) (srcif : string) (ref : nat)
         (neighbors : list string) : result (router * list datagram) :=
  match neighbors with
  | [] => Ok (st, [])
  | neighbor :: rest =>
      go <- forwards st srcif neighbor ;;
      '(st', here) <-
        (if go
         then a <- our_addr neighbor ;;
              m <- Py.nth (updates st) ref ;;
              let m' := Message (type m) a neighbor (msg m) in
              let st' := set_updates st (log_set (updates st) ref m') in
              d <- send st' neighbor m' ;;
              Ok (st', [d])
         else Ok (st, [])) ;;
      '(st'', out) <- forward_withdraw st' srcif ref rest ;;
      Ok (st'', here ++ out)
  end.

Definition handle_withdraw_msg (st : router) (srcif : string) (m : message)
  : result (router * list datagram) :=
  let ref := List.length (updates st) in
  let st0 := set_updates st (updates st ++ [m]) in
  match msg m with
  | Withdrawal descriptors =>
      '(table, withdraw_routes) <-
        withdraw_scan (withdraw_fuel (List.length descriptors) (routes st0))
                      srcif descriptors 0 (routes st0) [] ;;
      table' <- remove_withdrawn withdraw_routes table ;;
      forward_withdraw (set_routes st0 table') srcif ref (keys (relations st0))
  | _ => Raise TypeError
  end.

(** ** Best-path selection (lines 199-250) *)

(** The comparison of the table entry [r] with the retained [v], once both
    match at the same prefix length: the nested conditionals of lines
    214-236.  [Replace] is [valid_routes = [route]], [Append] the second
    peer branch, [Keep] every path that falls through. *)
Inductive verdict : Type := Replace | Append | Keep.

Definition compare_routes (v r : route) : verdict :=
  if localpref v <? localpref r then Replace
  else if localpref v =? localpref r then
    if negb (selfOrigin v) && selfOrigin r then Replace
    else if Bool.eqb (selfOrigin v) (selfOrigin r) then
      if (List.length (ASPath r) <? List.length (ASPath v))%nat then Replace
      else if (List.length (ASPath v) =? List.length (ASPath r))%nat then
        if (origin_eqb (origin r) IGP && negb (origin_eqb (origin v) IGP))
           || (origin_eqb (origin r) EGP && origin_eqb (origin v) UNK)
        then Replace
        else if origin_eqb (origin r) (origin v) then
          if Py.str_gt (peer v) (peer r) then Replace
          else if Py.str_gt (peer v) (peer r) then Append
          else Keep
        else Keep
      else Keep
    else Keep
  else Keep.

(** One round of the loop over [self.routes]; the state is
    [(valid_netmask_length, valid_routes)]. *)
Definition select_step (dest : string) (acc : Z * list route) (r : route)
  : result (Z * list route) :=
  let '(valid_netmask_length, valid_routes) := acc in
  netmask_length <- get_netmask_length (netmask r) ;;
  dest_binary <- ip_to_binary_string dest ;;
  network_binary <- ip_to_binary_string (network r) ;;
  if (Py.slice0 netmask_length dest_binary
      =? Py.slice0 netmask_length network_binary)%string
  then
    if valid_netmask_length <? netmask_length then Ok (netmask_length, [r])
    else if valid_netmask_length =? netmask_length then
      v <- Py.nth valid_routes 0 ;;
      match compare_routes v r with
      | Replace => Ok (netmask_length, [r])
      | Append => Ok (valid_netmask_length, valid_routes ++ [r])
      | Keep => Ok acc
      end
    else Ok acc
  else Ok acc.

Fixpoint select_loop (dest : string) (acc : Z * list route)
         (table : list route) : result (Z * list route) :=
  match table with
  | [] => Ok acc
  | r :: rest => acc' <- select_step dest acc r ;; select_loop dest acc' rest
  end.

(** [valid_routes] at line 237, before the policy filter. *)
Definition valid_routes (st : router) (dest : string) : result (list route) :=
  '(_, valid) <- select_loop dest (-1, []) (routes st) ;;
  Ok valid.

Fixpoint customer_routes (st : router) (valid : list route)
  : result (list route) :=
  match valid with
  | [] => Ok []
  | r :: rest =>
      rel <- dict_get (relations st) (peer r) ;;
      rest' <- customer_routes st rest ;;
      Ok (if is_cust rel then r :: rest' else rest')
  end.

Definition find_routes (st : router) (srcif dest : string)
  : result (option route) :=
  valid <- valid_routes st dest ;;
  rel <- dict_get (relations st) srcif ;;
  filtered_valid_routes <-
    (if negb (is_cust rel) then customer_routes st valid else Ok valid) ;;
  match filtered_valid_routes with
  | [] => Ok None
  | r :: _ => Ok (Some r)
  end.

(** ** Data and dump handling (lines 253-276) *)

Definition handle_data_msg (st : router) (srcif : string) (m : message)
  : result (router * list datagram) :=
  found <- find_routes st srcif (dst m) ;;
  match found with
  | None =>
      a <- our_addr srcif ;;
      d <- send st srcif (Message "no route" a (src m) Empty) ;;
      Ok (st, [d])
  | Some r =>
      d <- send st (peer r) m ;;
      Ok (st, [d])
  end.

Definition printable (r : route) : printable_route :=
  PrintableRoute (network r) (netmask r) (localpref r) (ASPath r) (origin r)
                 (selfOrigin r) (peer r).

Definition handle_dump_msg (st : router) (m : message)
  : result (router * list datagram) :=
  let printable_routes := map printable (routes st) in
  d <- send st (src m) (Message "table" (dst m) (src m) (Table printable_routes)) ;;
  Ok (st, [d]).

(** ** Dispatch (lines 278-289) *)

Definition handle_msg (st : router) (srcif : string) (m : message)
  : result (router * list datagram) :=
  if (type m =? "update")%string then handle_update_msg st srcif m
  else if (type m =? "withdraw")%string then handle_withdraw_msg st srcif m
  else if (type m =? "data")%string then handle_data_msg st srcif m
  else if (type m =? "dump")%string then handle_dump_msg st m
  else Ok (st, []).

(** [run]: the messages of a trace are handled one after the other; an
    exception ends the run. *)
Fixpoint run (st : router) (inbound : list (string * message))
  : result (router * list datagram) :=
  match inbound with
  | [] => Ok (st, [])
  | (srcif, m) :: rest =>
      '(st', out) <- handle_msg st srcif m ;;
      '(st'', out') <- run st' rest ;;
      Ok (st'', out ++ out')
  end.

(** The states the event loop can be in: the start-up state and every
    state a handled message leaves behind. *)
Inductive reachable : router -> Prop :=
| reachable_init asn connections st out :
    init asn connections = Ok (st, out) -> reachable st
| reachable_step st srcif m st' out :
    reachable st ->
    In srcif (keys (relations st)) ->
    handle_msg st srcif m = Ok (st', out) ->
    reachable st'.

(** ** Notions used to state the properties *)

Section RouteInduction.

Variable P : route -> Prop.
Hypothesis step :
  forall nw nm lp ap og so pr c0 c1,
    (forall r0, c0 = Some r0 -> P r0) ->
    (forall r1, c1 = Some r1 -> P r1) ->
    P (Route nw nm lp ap og so pr c0 c1).

Fixpoint route_ind (r : route) : P r :=
  match r with
  | Route nw nm lp ap og so pr c0 c1 =>
      step nw nm lp ap og so pr c0 c1
        (match c0 return forall r0, c0 = Some r0 -> P r0 with
         | Some r0' =>
             fun r0 E =>
               match E in _ = o
                     return match o with Some x => P x | None => True end
               with eq_refl => route_ind r0' end
         | None => fun r0 E => match E with end
         end)
        (match c1 return forall r1, c1 = Some r1 -> P r1 with
         | Some r1' =>
             fun r1 E =>
               match E in _ = o
                     return match o with Some x => P x | None => True end
               with eq_refl => route_ind r1' end
         | None => fun r1 E => match E with end
         end)
  end.

End RouteInduction.

(** Two records are mergeable when their netmasks are equal with a prefix
    length [L >= 1], their [localpref], [selfOrigin], [ASPath] and
    [origin] are equal, the first [L-1] bits of their networks are equal
    and bit [L-1] differs. *)
Definition mergeable (R1 R2 : route) : Prop :=
  exists (L : Z) (bits1 bits2 : string),
    netmask R1 = netmask R2 /\
    get_netmask_length (netmask R1) = Ok L /\ 1 <= L /\
    localpref R1 = localpref R2 /\
    selfOrigin R1 = selfOrigin R2 /\
    ASPath R1 = ASPath R2 /\
    origin R1 = origin R2 /\
    ip_to_binary_string (network R1) = Ok bits1 /\
    ip_to_binary_string (network R2) = Ok bits2 /\
    substring 0 (Z.to_nat (L - 1)) bits1 = substring 0 (Z.to_nat (L - 1)) bits2 /\
    String.get (Z.to_nat (L - 1)) bits1 <> String.get (Z.to_nat (L - 1)) bits2.

Definition sound (a : aggregation) : Prop :=
  aggregate_routes (route1 a) (route2 a) = Ok (Some (aggregated_route a)).

(** The number of announced leaves a record stands for. *)
Fixpoint leaf_count (r : route) : nat :=
  match r with
  | Route _ _ _ _ _ _ _ None None => 1
  | Route _ _ _ _ _ _ _ c0 c1 =>
      match c0 with Some r0 => leaf_count r0 | None => 0 end
      + match c1 with Some r1 => leaf_count r1 | None => 0 end
  end.

Definition table_leaves (table : list route) : nat :=
  list_sum (map leaf_count table).

(** Whether a binary string is a run of ['1'] followed by a run of ['0']. *)
Fixpoint all_zero (bits : string) : bool :=
  match bits with
  | EmptyString => true
  | String c bits' => Ascii.eqb c "0" && all_zero bits'
  end.

Fixpoint contiguous (bits : string) : bool :=
  match bits with
  | EmptyString => true
  | String c bits' =>
      if Ascii.eqb c "1" then contiguous bits' else all_zero bits
  end.

(** The relationship of a neighbour, as a total function. *)
Definition relationship (st : router) (neighbor : string) : string :=
  match dict_get (relations st) neighbor with
  | Ok relation => relation
  | Raise _ => EmptyString
  end.

(** The neighbours an announcement learnt from [S] must go to: every other
    neighbour [N] with [relationship S = cust] or [relationship N = cust],
    in the order of the [relations] dictionary. *)
Definition recipients (st : router) (S : string) : list string :=
  filter (fun N => negb (N =? S)%string
                   && (is_cust (relationship st S)
                       || is_cust (relationship st N)))
         (keys (relations st)).

(** [le x y]: on this criterion, [x] is no better than [y]. *)
Definition total {A : Type} (le : A -> A -> bool) : Prop :=
  forall x y, le x y = true \/ le y x = true.

Definition transitive {A : Type} (le : A -> A -> bool) : Prop :=
  forall x y z, le x y = true -> le y z = true -> le x z = true.

(** One step of a cascade: a criterion eliminates all but the best. *)
Definition keep_best {A : Type} (le : A -> A -> bool) (l : list A) : list A :=
  filter (fun r => forallb (fun r' => le r' r) l) l.

(** A first criterion, then a second one among those tied on the first. *)
Definition lex {A : Type} (le1 le2 : A -> A -> bool) (x y : A) : bool :=
  negb (le1 y x) || (le1 x y && le2 x y).

(** [better le x y]: [x] is strictly better than [y]; [tied le x y]:
    neither is better. *)
Definition better {A : Type} (le : A -> A -> bool) (x y : A) : bool :=
  negb (le x y).

Definition tied {A : Type} (le : A -> A -> bool) (x y : A) : bool :=
  le x y && le y x.

(** [first_best le l v]: [v] is in [l], nothing in [l] is better than
    [v], and everything before [v] is strictly worse. *)
Definition first_best {A : Type} (le : A -> A -> bool) (l : list A) (v : A)
  : Prop :=
  exists l1 l2,
    l = l1 ++ v :: l2 /\
    (forall x, In x l -> le x v = true) /\
    (forall x, In x l1 -> le v x = false).

(** Step 1: the prefix length at which [r] matches [dest], if it does. *)
Definition match_length (dest : string) (r : route) : result (option Z) :=
  netmask_length <- get_netmask_length (netmask r) ;;
  dest_binary <- ip_to_binary_string dest ;;
  network_binary <- ip_to_binary_string (network r) ;;
  Ok (if (Py.slice0 netmask_length dest_binary
          =? Py.slice0 netmask_length network_binary)%string
      then Some netmask_length else None).

Definition matches (dest : string) (r : route) : bool :=
  match match_length dest r with
  | Ok (Some _) => true
  | _ => false
  end.

Definition candidates (dest : string) (table : list route) : list route :=
  filter (matches dest) table.

Definition prefix_length (r : route) : Z :=
  match get_netmask_length (netmask r) with
  | Ok n => n
  | Raise _ => -1
  end.

Definition origin_rank (o : origin_t) : Z :=
  match o with IGP => 2 | EGP => 1 | UNK => 0 end.

(** The criteria, each as "[x] is no better than [y]". *)
Definition le_length (x y : route) : bool :=
  prefix_length x <=? prefix_length y.
Definition le_localpref (x y : route) : bool :=
  localpref x <=? localpref y.
Definition le_selfOrigin (x y : route) : bool :=
  implb (selfOrigin x) (selfOrigin y).
Definition le_aspath (x y : route) : bool :=
  (List.length (ASPath y) <=? List.length (ASPath x))%nat.
Definition le_origin (x y : route) : bool :=
  origin_rank (origin x) <=? origin_rank (origin y).
Definition le_peer (x y : route) : bool :=
  String.leb (peer y) (peer x).

(** Step 2: the candidates tied for the longest prefix. *)
Definition longest (l : list route) : list route := keep_best le_length l.

(** Step 3: highest localpref, then selfOrigin, then shortest ASPath, then
    best origin, then lowest peer; each step keeps the best of what the
    step before left. *)
Definition tie_break (l : list route) : list route :=
  keep_best le_peer
    (keep_best le_origin
       (keep_best le_aspath
          (keep_best le_selfOrigin
             (keep_best le_localpref l)))).

(** The six criteria as one order. *)
Definition le_route : route -> route -> bool :=
  lex (lex (lex (lex (lex le_length le_localpref) le_selfOrigin) le_aspath)
           le_origin) le_peer.

(** The decision of one round of the loop, for two routes that both
    match: lines 210-236. *)
Definition decision (v r : route) : verdict :=
  if prefix_length v <? prefix_length r then Replace
  else if prefix_length v =? prefix_length r then compare_routes v r
  else Keep.

(** What the loop has in hand after the routes [done]: nothing when none
    of them matched, else the first of the best matching routes. *)
Definition selected (dest : string) (done : list route)
           (acc : Z * list route) : Prop :=
  (candidates dest done = [] /\ acc = (-1, [])) \/
  (exists v, acc = (prefix_length v, [v]) /\
             first_best le_route (candidates dest done) v).

(** The records [withdraw_route] looks at in a tree: the record itself and,
    when it has a [child0], both subtrees. *)
Fixpoint nodes (r : route) : list route :=
  r :: match r with
       | Route _ _ _ _ _ _ _ None _ => []
       | Route _ _ _ _ _ _ _ (Some r0) c1 =>
           nodes r0 ++ match c1 with Some r1 => nodes r1 | None => [] end
       end.

(** The test of [withdraw_route]: network, netmask and peer all match. *)
Definition withdrawn (srcif : string) (d : string * string) (x : route) : bool :=
  (network x =? fst d)%string && (netmask x =? snd d)%string
  && (peer x =? srcif)%string.

(** A tree is touched by a descriptor when one of its records matches. *)
Definition touched (srcif : string) (d : string * string) (r : route) : bool :=
  existsb (withdrawn srcif d) (nodes r).

(** How many descriptors of a message touch a tree. *)
Definition hits (srcif : string) (ds : list (string * string)) (r : route) : nat :=
  List.length (filter (fun d => touched srcif d r) ds).





Definition leaves_in (D : list (string * string * string))
           (table : list route) : Prop :=
  forall r x, In r table -> In x (nodes r) -> child0 x = None ->
              In (network x, netmask x, peer x) D.

Module Scenario.

Definition customer : string := "192.168.0.2".
Definition other_peer : string := "172.168.0.2".
Definition provider : string := "10.0.0.2".

(** AS 1 with a customer, a peer and a provider, right after start-up. *)
Definition router0 : router :=
  Router 1 [(customer, "cust"); (other_peer, "peer"); (provider, "prov")]
         [] [].

Definition announce (from to nw nm : string) (lp : Z) : message :=
  Message "update" from to (Announcement nw nm lp [2] IGP true).

Definition withdraw (from to : string) (ds : list (string * string))
  : message :=
  Message "withdraw" from to (Withdrawal ds).

Definition leaf (nw nm from : string) (lp : Z) : route :=
  Route nw nm lp [2] IGP true from None None.

Definition state_after (st : router) (l : list (string * message)) : router :=
  match run st l with
  | Ok (st', _) => st'
  | Raise _ => st
  end.

Definition mask24 : string := "255.255.255.0".

Definition upd_a : message :=
  announce customer "192.168.0.1" "10.0.0.0" mask24 100.
Definition upd_a' : message :=
  announce other_peer "172.168.0.1" "10.0.0.0" mask24 100.
Definition upd_b : message :=
  announce customer "192.168.0.1" "10.0.1.0" mask24 100.
Definition upd_c : message :=
  announce customer "192.168.0.1" "10.0.2.0" mask24 100.
Definition upd_p : message :=
  announce provider "10.0.0.1" "10.0.0.0" mask24 200.

(** The table after [10.0.0.0/24] from the customer. *)
Definition st_a : router :=
  Eval vm_compute in state_after router0 [(customer, upd_a)].

(** ... and after the same prefix, same attributes, from the peer. *)
Definition st_aa : router :=
  Eval vm_compute in state_after st_a [(other_peer, upd_a')].

(** The customer's route at localpref 100, the provider's at 200. *)
Definition st_ap : router :=
  Eval vm_compute in state_after st_a [(provider, upd_p)].

Definition output_of (st : router) (l : list (string * message))
  : list datagram :=
  match run st l with
  | Ok (_, out) => out
  | Raise _ => []
  end.

(** [10.0.2.0/24] after [10.0.0.0/24]: not the sibling prefix. *)
Definition st_ac : router :=
  Eval vm_compute in state_after st_a [(customer, upd_c)].
Definition out_ac : list datagram :=
  Eval vm_compute in output_of st_a [(customer, upd_c)].

(** Only the provider's route. *)
Definition st_p : router :=
  Eval vm_compute in state_after router0 [(provider, upd_p)].

(** Two sibling prefixes announced, then withdrawn one by one. *)
Definition two_updates : list (string * message) :=
  [(customer, upd_a); (customer, upd_b)].
Definition two_withdraws : list (string * message) :=
  [(customer, withdraw customer "192.168.0.1" [("10.0.1.0", mask24)]);
   (customer, withdraw customer "192.168.0.1" [("10.0.0.0", mask24)])].
Definition st_withdrawn : router :=
  Eval vm_compute in state_after router0 (two_updates ++ two_withdraws).
Definition out_withdrawn : list datagram :=
  Eval vm_compute in output_of router0 (two_updates ++ two_withdraws).

(** An update from the peer, and what the router does with it. *)
Definition st_a' : router :=
  Eval vm_compute in state_after router0 [(other_peer, upd_a')].
Definition out_a' : list datagram :=
  Eval vm_compute in output_of router0 [(other_peer, upd_a')].

(** An update whose netmask is not a run of ones. *)
Definition upd_gap : message :=
  announce customer "192.168.0.1" "10.0.0.0" "255.0.255.0" 100.
Definition st_gap : router :=
  Eval vm_compute in state_after router0 [(customer, upd_gap)].
Definition out_gap : list datagram :=
  Eval vm_compute in output_of router0 [(customer, upd_gap)].

(** A data packet from the peer towards [10.0.0.25]. *)
Definition packet : message :=
  Message "data" "172.168.0.25" "10.0.0.25" (Opaque "payload").


(** The two halves of [10.0.8.0/21]. *)
Definition mask22 : string := "255.255.252.0".
Definition half8 : route := leaf "10.0.8.0" mask22 customer 100.
Definition half12 : route := leaf "10.0.12.0" mask22 customer 100.

(** A withdraw from the customer, as it arrives. *)
Definition wd : message :=
  withdraw customer "192.168.0.1" [("10.0.0.0", mask24)].

End Scenario.

(** ** Dotted quads *)

(** The text of four numbers as a dotted quad, as ["%d.%d.%d.%d"] prints
    them. *)
Definition dotted (q0 q1 q2 q3 : Z) : string :=
  (Py.str q0 ++ "." ++ Py.str q1 ++ "." ++ Py.str q2 ++ "." ++ Py.str q3)%string.

Definition octet (z : Z) : Prop := 0 <= z <= 255.

(** A segment: a string without a dot. *)
Fixpoint no_dot (s : string) : bool :=
  match s with
  | EmptyString => true
  | String c s' => negb (Ascii.eqb c ".") && no_dot s'
  end.

(** A string of ['0'] and ['1'] only. *)
Fixpoint binary (s : string) : bool :=
  match s with
  | EmptyString => true
  | String c s' => (Ascii.eqb c "0" || Ascii.eqb c "1") && binary s'
  end.

(** [int] on every segment, in order. *)
Fixpoint parse_all (segments : list string) : result (list Z) :=
  match segments with
  | [] => Ok []
  | s :: rest => z <- Py.int s ;; zs <- parse_all rest ;; Ok (z :: zs)
  end.

(** What is checked of each number from 0 to 255: its decimal text reads
    back as itself and has no dot, and its binary text has eight
    characters, all ['0'] or ['1']. *)
Definition octet_check (z : Z) : bool :=
  match Py.int (Py.str z) with
  | Ok z' => z' =? z
  | Raise _ => false
  end
  && no_dot (Py.str z)
  && (String.length (Py.format_08b z) =? 8)%nat
  && binary (Py.format_08b z).

(** The loop of [our_addr] on its own: the segments still to read and the
    numbers read so far. *)
Fixpoint our_addr_quads (segs : list string) (acc : list Z) : result string :=
  match segs with
  | [] =>
      match acc with
      | q0 :: q1 :: q2 :: _ :: _ =>
          Ok (Py.str q0 ++ "." ++ Py.str q1 ++ "." ++ Py.str q2 ++ "."
              ++ Py.str 1)%string
      | _ => Raise IndexError
      end
  | s :: segs' => z <- Py.int s ;; our_addr_quads segs' (acc ++ [z])
  end.

(** What [aggregate_routes] makes of the two halves of [10.0.8.0/21]. *)
Definition whole8 : route :=
  Eval vm_compute in
    match aggregate_routes Scenario.half8 Scenario.half12 with
    | Ok (Some r) => r
    | _ => Scenario.half8
    end.

(** The announced routes a record stands for: itself when it has no
    children, the leaves of its children otherwise. *)
Fixpoint leaves (r : route) : list route :=
  match r with
  | Route _ _ _ _ _ _ _ None None => [r]
  | Route _ _ _ _ _ _ _ c0 c1 =>
      match c0 with Some r0 => leaves r0 | None => [] end
      ++ match c1 with Some r1 => leaves r1 | None => [] end
  end.

(** The two sibling prefixes announced, then [10.0.1.0/24] withdrawn. *)
Definition st_ab : router :=
  Eval vm_compute in Scenario.state_after Scenario.router0 Scenario.two_updates.
Definition wd_b : message :=
  Scenario.withdraw Scenario.customer "192.168.0.1"
                    [("10.0.1.0", Scenario.mask24)].
Definition st_ab_b : router :=
  Eval vm_compute in Scenario.state_after st_ab [(Scenario.customer, wd_b)].
Definition out_ab_b : list datagram :=
  Eval vm_compute in Scenario.output_of st_ab [(Scenario.customer, wd_b)].

(** The same withdraw on the table that holds [10.0.0.0/24] and
    [10.0.2.0/24]: it matches nothing. *)
Definition st_ac_b : router :=
  Eval vm_compute in
    Scenario.state_after Scenario.st_ac [(Scenario.customer, wd_b)].
Definition out_ac_b : list datagram :=
  Eval vm_compute in
    Scenario.output_of Scenario.st_ac [(Scenario.customer, wd_b)].

(** The leaves below [r] that the descriptors [ds] from [srcif] leave
    alone: those with no matched record on the way down from [r].  As in
    [withdraw_route], a record without [child0] is a leaf. *)
Fixpoint kept (srcif : string) (ds : list (string * string)) (r : route)
  : list route :=
  if existsb (fun d => withdrawn srcif d r) ds then []
  else match r with
       | Route _ _ _ _ _ _ _ None _ => [r]
       | Route _ _ _ _ _ _ _ (Some r0) c1 =>
           kept srcif ds r0
           ++ match c1 with Some r1 => kept srcif ds r1 | None => [] end
       end.

(** A record is well formed when it is a leaf, or carries two well-formed
    children of which it is the aggregate, in one order or the other. *)
Fixpoint well_formed (r : route) : Prop :=
  match r with
  | Route _ _ _ _ _ _ _ None None => True
  | Route _ _ _ _ _ _ _ (Some r0) (Some r1) =>
      well_formed r0 /\ well_formed r1 /\
      (aggregate_routes r0 r1 = Ok (Some r) \/
       aggregate_routes r1 r0 = Ok (Some r))
  | _ => False
  end.

(** ** Start-up from the command line (lines 32-42) *)

(** [port, neighbor, relation = relationship.split("-")]: anything but
    three fields fails to unpack. *)
Definition unpack3 (fields : list string) : result (string * string * string) :=
  match fields with
  | [port; neighbor; relation] => Ok (port, neighbor, relation)
  | _ => Raise ValueError
  end.

(** [__init__] on the connection strings as they are given.  The socket
    and the port number of a neighbour only say where its datagrams go,
    which the first component of a [datagram] stands for; [int(port)] is
    kept for the exception it can raise. *)
Fixpoint startup_loop (st : router) (connections : list string)
  : result (router * list datagram) :=
  match connections with
  | [] => Ok (st, [])
  | relationship :: rest =>
      '(port, neighbor, relation) <-
        unpack3 (Py.split "-" relationship) ;;
      _ <- Py.int port ;;
      let st' := Router (asn st) (dict_set (relations st) neighbor relation)
                        (updates st) (routes st) in
      a <- our_addr neighbor ;;
      d <- send st' neighbor (Message "handshake" a neighbor Empty) ;;
      '(st'', out) <- startup_loop st' rest ;;
      Ok (st'', d :: out)
  end.

Definition startup (asn : Z) (connections : list string)
  : result (router * list datagram) :=
  startup_loop (Router asn [] [] []) connections.

(** A connection string read as its three fields. *)
Definition connection (c : string) (p : string * string) : Prop :=
  exists port, Py.split "-" c = [port; fst p; snd p].

(** The messages that [handle_msg] hands to a handler that logs. *)
Definition logged (p : string * message) : bool :=
  (type (snd p) =? "update")%string || (type (snd p) =? "withdraw")%string.

(** An update that arrives from the customer with another address in its
    [src] field, and the table after it. *)
Definition upd_other_src : message :=
  Scenario.announce "1.2.3.4" "192.168.0.1" "10.0.0.0" Scenario.mask24 100.
Definition st_other_src : router :=
  Eval vm_compute in
    Scenario.state_after Scenario.router0 [(Scenario.customer, upd_other_src)].

(** A dump request whose [src] field names no neighbour. *)
Definition dump_other_src : message := Message "dump" "1.2.3.4" "192.168.0.1" Empty.

(** The customer announces [10.0.0.0/24] a second time, with another
    ASPath of the same length. *)
Definition upd_again : message :=
  Message "update" Scenario.customer "192.168.0.1"
          (Announcement "10.0.0.0" Scenario.mask24 100 [3] IGP true).
Definition st_again : router :=
  Eval vm_compute in
    Scenario.state_after Scenario.st_a [(Scenario.customer, upd_again)].

(** * Properties *)

(** ** The result monad *)

Lemma bind_ok {A B : Type} (m : result A) (k : A -> result B) (b : B) :
  bind m k = Ok b -> exists a, m = Ok a /\ k a = Ok b.
Proof.
  destruct m as [a|e]; simpl; intros H; [eauto | discriminate].
Qed.

(** [monad_inv H] splits a successful sequence of binds into its steps. *)
Ltac monad_inv H :=
  match type of H with
  | bind ?m ?k = Ok ?b =>
      let a := fresh "a" in
      let Ha := fresh "E" in
      let Hk := fresh "Hk" in
      destruct (bind_ok m k b H) as (a & Ha & Hk);
      clear H; rename Hk into H; cbv beta in H;
      try monad_inv H
  | (let '(x, y) := ?p in _) = Ok _ =>
      destruct p; try monad_inv H
  | _ => idtac
  end.

(** ** Equality of route records *)

Lemma aspath_eqb_eq (a b : list Z) : aspath_eqb a b = true <-> a = b.
Proof.
  revert b; induction a as [|x a IH]; intros [|y b]; simpl;
    try (split; (reflexivity || discriminate)).
  rewrite andb_true_iff, Z.eqb_eq, IH.
  split; [intros [-> ->]; reflexivity | intros E; inversion E; auto].
Qed.

Lemma origin_eqb_eq (a b : origin_t) : origin_eqb a b = true <-> a = b.
Proof. destruct a, b; simpl; split; (reflexivity || discriminate). Qed.

Lemma route_eqb_eq (r1 r2 : route) : route_eqb r1 r2 = true <-> r1 = r2.
Proof.
  revert r2; induction r1 as [nw nm lp ap og so pr c0 c1 IH0 IH1] using route_ind.
  intros [nw' nm' lp' ap' og' so' pr' c0' c1']; simpl.
  rewrite !andb_true_iff, !String.eqb_eq, Z.eqb_eq, aspath_eqb_eq,
    origin_eqb_eq, Bool.eqb_true_iff.
  assert (C0 : match c0, c0' with
               | None, None => true
               | Some a, Some b => route_eqb a b
               | _, _ => false
               end = true <-> c0 = c0').
  { destruct c0 as [a|], c0' as [b|]; try (split; (reflexivity || discriminate)).
    rewrite (IH0 a eq_refl b). split; [intros ->; reflexivity | congruence]. }
  assert (C1 : match c1, c1' with
               | None, None => true
               | Some a, Some b => route_eqb a b
               | _, _ => false
               end = true <-> c1 = c1').
  { destruct c1 as [a|], c1' as [b|]; try (split; (reflexivity || discriminate)).
    rewrite (IH1 a eq_refl b). split; [intros ->; reflexivity | congruence]. }
  rewrite C0, C1. split.
  - intros [[[[[[[[-> ->] ->] ->] ->] ->] ->] ->] ->]. reflexivity.
  - intros E; inversion E; subst. repeat split.
Qed.

Lemma route_eqb_refl (r : route) : route_eqb r r = true.
Proof. apply route_eqb_eq; reflexivity. Qed.

Lemma route_eqb_neq (r1 r2 : route) : route_eqb r1 r2 = false <-> r1 <> r2.
Proof.
  rewrite <- route_eqb_eq. destruct (route_eqb r1 r2); split; congruence.
Qed.

Lemma list_mem_In (x : route) (l : list route) : list_mem x l = true <-> In x l.
Proof.
  unfold list_mem. rewrite existsb_exists. split.
  - intros (y & Hy & E). apply route_eqb_eq in E. subst; assumption.
  - intros H. exists x. split; [assumption | apply route_eqb_refl].
Qed.

(** ** Coalescing *)

Lemma list_remove_ok (x : route) (l l' : list route) :
  list_remove x l = Ok l' ->
  exists l1 l2, l = l1 ++ x :: l2 /\ l' = l1 ++ l2 /\ ~ In x l1.
Proof.
  revert l'; induction l as [|y l IH]; simpl; intros l' H; [discriminate|].
  destruct (route_eqb y x) eqn:E.
  - apply route_eqb_eq in E. inversion H; subst.
    exists [], l'. simpl; auto.
  - monad_inv H. inversion H; subst; clear H.
    destruct (IH _ E0) as (l1 & l2 & -> & -> & Hn).
    exists (y :: l1), l2. repeat split; try reflexivity.
    intros [->|Hin]; [|auto]. rewrite route_eqb_refl in E; discriminate.
Qed.

Lemma list_remove_In (x : route) (l : list route) :
  In x l -> exists l', list_remove x l = Ok l'.
Proof.
  induction l as [|y l IH]; simpl; intros H; [contradiction|].
  destruct (route_eqb y x) eqn:E; [eauto|].
  destruct H as [->|H]; [rewrite route_eqb_refl in E; discriminate|].
  destruct (IH H) as (l' & ->). simpl; eauto.
Qed.

Lemma list_remove_length (x : route) (l l' : list route) :
  list_remove x l = Ok l' -> List.length l = S (List.length l').
Proof.
  intros H. destruct (list_remove_ok _ _ _ H) as (l1 & l2 & -> & -> & _).
  rewrite !length_app; simpl; lia.
Qed.

Lemma replace_pairs_length (aggs : list aggregation) (l l' : list route) :
  replace_pairs aggs l = Ok l' ->
  (List.length l' + List.length aggs = List.length l)%nat.
Proof.
  revert l; induction aggs as [|a aggs IH]; simpl; intros l H.
  - inversion H; lia.
  - monad_inv H. apply IH in H. rewrite length_app in H; simpl in H.
    apply list_remove_length in E, E0. lia.
Qed.

Lemma coalesce_rec_S (n : nat) (l : list route) :
  coalesce_rec (S n) l =
    (aggregated_routes <- aggregate_pairs l ;;
     l' <- replace_pairs aggregated_routes l ;;
     match aggregated_routes with
     | [] => Ok l'
     | _ :: _ => coalesce_rec n l'
     end).
Proof. reflexivity. Qed.

Lemma coalesce_rec_depth (n m : nat) (l : list route) :
  (List.length l <= n)%nat -> (List.length l <= m)%nat ->
  coalesce_rec n l = coalesce_rec m l.
Proof.
  revert m l; induction n as [|n IH]; intros m l Hn Hm.
  - destruct l; [|simpl in Hn; lia]. destruct m; reflexivity.
  - destruct m as [|m].
    + destruct l; [|simpl in Hm; lia]. reflexivity.
    + rewrite !coalesce_rec_S.
      destruct (aggregate_pairs l) as [aggs|e]; [|reflexivity].
      unfold bind at 1 3.
      destruct (replace_pairs aggs l) as [l'|e] eqn:E; [|reflexivity].
      unfold bind.
      destruct aggs as [|a aggs]; [reflexivity|].
      apply replace_pairs_length in E; simpl in E.
      apply IH; lia.
Qed.

(** The equation of [coalesce] as the source writes it: one pass, and a
    recursive call when the pass aggregated something.  The recursion
    always comes to an end. *)
Lemma coalesce_unfold (l : list route) :
  coalesce l =
    (aggregated_routes <- aggregate_pairs l ;;
     l' <- replace_pairs aggregated_routes l ;;
     match aggregated_routes with
     | [] => Ok l'
     | _ :: _ => coalesce l'
     end).
Proof.
  unfold coalesce. destruct l as [|r l]; [reflexivity|].
  change (List.length (r :: l)) with (S (List.length l)).
  rewrite coalesce_rec_S.
  destruct (aggregate_pairs (r :: l)) as [aggs|e]; [|reflexivity].
  unfold bind at 1 3.
  destruct (replace_pairs aggs (r :: l)) as [l'|e] eqn:E; [|reflexivity].
  unfold bind.
  destruct aggs as [|a aggs]; [reflexivity|].
  apply replace_pairs_length in E; simpl in E.
  apply coalesce_rec_depth; lia.
Qed.

Lemma coalesce_rec_fixpoint (n : nat) (l t : list route) :
  coalesce_rec n l = Ok t -> (List.length l <= n)%nat ->
  aggregate_pairs t = Ok [].
Proof.
  revert l; induction n as [|n IH]; intros l H Hn.
  - destruct l; [|simpl in Hn; lia]. simpl in H. inversion H; reflexivity.
  - simpl in H. monad_inv H.
    destruct a as [|x aggs].
    + simpl in E0. inversion E0; inversion H; subst. assumption.
    + apply replace_pairs_length in E0; simpl in E0.
      apply IH in H; [assumption | lia].
Qed.

Lemma coalesce_fixpoint (l t : list route) :
  coalesce l = Ok t -> aggregate_pairs t = Ok [].
Proof.
  intros H. apply (coalesce_rec_fixpoint _ _ _ H). lia.
Qed.

Lemma aggregate_with_nil (ri : route) (later : list route) :
  aggregate_with ri later = Ok [] ->
  forall rj, In rj later -> aggregate_routes ri rj = Ok None.
Proof.
  induction later as [|r later IH]; simpl; intros H rj Hin; [contradiction|].
  monad_inv H. destruct a as [agg|]; [discriminate|].
  inversion H; subst.
  destruct Hin as [<-|Hin]; [assumption | auto].
Qed.

Lemma aggregate_pairs_nil (t : list route) :
  aggregate_pairs t = Ok [] ->
  forall i j r1 r2, (i < j)%nat ->
    nth_error t i = Some r1 -> nth_error t j = Some r2 ->
    aggregate_routes r1 r2 = Ok None.
Proof.
  induction t as [|r t IH]; simpl; intros H i j r1 r2 Hij H1 H2.
  - destruct i; discriminate.
  - monad_inv H. inversion H as [E1].
    apply app_eq_nil in E1 as [-> ->].
    destruct j as [|j]; [lia|]. simpl in H2.
    destruct i as [|i]; simpl in H1.
    + inversion H1; subst.
      eapply aggregate_with_nil; eauto using nth_error_In.
    + apply (IH E0 i j r1 r2); [lia | assumption | assumption].
Qed.

Lemma mergeable_sym (R1 R2 : route) : mergeable R1 R2 -> mergeable R2 R1.
Proof.
  intros (L & b1 & b2 & Hm & HL & H1 & Hl & Hs & Ha & Ho & E1 & E2 & Hp & Hb).
  exists L, b2, b1. rewrite <- Hm. repeat split; auto; congruence.
Qed.

Lemma same_attributes (R1 R2 : route) :
  negb (netmask R1 =? netmask R2)%string
  || negb (localpref R1 =? localpref R2)
  || negb (Bool.eqb (selfOrigin R1) (selfOrigin R2))
  || negb (aspath_eqb (ASPath R1) (ASPath R2))
  || negb (origin_eqb (origin R1) (origin R2)) = false <->
  netmask R1 = netmask R2 /\ localpref R1 = localpref R2 /\
  selfOrigin R1 = selfOrigin R2 /\ ASPath R1 = ASPath R2 /\
  origin R1 = origin R2.
Proof.
  rewrite !orb_false_iff, !negb_false_iff, String.eqb_eq, Z.eqb_eq,
    Bool.eqb_true_iff, aspath_eqb_eq, origin_eqb_eq. tauto.
Qed.

(** A mergeable pair is never left alone by [aggregate_routes]. *)
Lemma mergeable_aggregated (R1 R2 : route) :
  mergeable R1 R2 -> aggregate_routes R1 R2 <> Ok None.
Proof.
  intros (L & b1 & b2 & Hm & HL & H1 & Hl & Hs & Ha & Ho & E1 & E2 & Hp & Hb).
  unfold aggregate_routes.
  assert (A : negb (netmask R1 =? netmask R2)%string
              || negb (localpref R1 =? localpref R2)
              || negb (Bool.eqb (selfOrigin R1) (selfOrigin R2))
              || negb (aspath_eqb (ASPath R1) (ASPath R2))
              || negb (origin_eqb (origin R1) (origin R2)) = false)
    by (apply same_attributes; auto).
  rewrite A, HL, E1, E2. simpl.
  unfold Py.slice0, Py.index.
  destruct (L - 1 <? 0) eqn:Hneg; [apply Z.ltb_lt in Hneg; lia|].
  rewrite Hneg, Hp, String.eqb_refl. simpl.
  destruct (String.get (Z.to_nat (L - 1)) b1) as [c1|] eqn:G1; simpl;
    [|discriminate].
  destruct (String.get (Z.to_nat (L - 1)) b2) as [c2|] eqn:G2; simpl;
    [|discriminate].
  destruct (Ascii.eqb c1 c2) eqn:Ec; [|discriminate].
  apply Ascii.eqb_eq in Ec. congruence.
Qed.

(** When [aggregate_routes] declines a pair, it declines it in the other
    order too. *)
Lemma aggregate_routes_none_sym (R1 R2 : route) :
  aggregate_routes R1 R2 = Ok None -> aggregate_routes R2 R1 = Ok None.
Proof.
  unfold aggregate_routes.
  destruct (negb (netmask R1 =? netmask R2)%string
            || negb (localpref R1 =? localpref R2)
            || negb (Bool.eqb (selfOrigin R1) (selfOrigin R2))
            || negb (aspath_eqb (ASPath R1) (ASPath R2))
            || negb (origin_eqb (origin R1) (origin R2))) eqn:A.
  - intros _.
    destruct (negb (netmask R2 =? netmask R1)%string
              || negb (localpref R2 =? localpref R1)
              || negb (Bool.eqb (selfOrigin R2) (selfOrigin R1))
              || negb (aspath_eqb (ASPath R2) (ASPath R1))
              || negb (origin_eqb (origin R2) (origin R1))) eqn:B;
      [reflexivity|].
    apply same_attributes in B.
    assert (A' : true = false); [|discriminate].
    rewrite <- A. apply same_attributes. intuition congruence.
  - intros H.
    pose proof A as A0. apply same_attributes in A0.
    destruct A0 as (Hm & Hl & Hs & Ha & Ho).
    assert (B : negb (netmask R2 =? netmask R1)%string
                || negb (localpref R2 =? localpref R1)
                || negb (Bool.eqb (selfOrigin R2) (selfOrigin R1))
                || negb (aspath_eqb (ASPath R2) (ASPath R1))
                || negb (origin_eqb (origin R2) (origin R1)) = false)
      by (apply same_attributes; intuition congruence).
    rewrite B, <- Hm.
    destruct (get_netmask_length (netmask R1)) as [L|e]; simpl in *;
      [|discriminate].
    destruct (ip_to_binary_string (network R1)) as [b1|e]; simpl in *;
      [|discriminate].
    destruct (ip_to_binary_string (network R2)) as [b2|e]; simpl in *;
      [|discriminate].
    rewrite (String.eqb_sym (Py.slice0 (L - 1) b2)).
    destruct (Py.slice0 (L - 1) b1 =? Py.slice0 (L - 1) b2)%string; simpl in *;
      [|reflexivity].
    destruct (Py.index b1 (L - 1)) as [c1|e]; simpl in *; [|discriminate].
    destruct (Py.index b2 (L - 1)) as [c2|e]; simpl in *; [|discriminate].
    rewrite (Ascii.eqb_sym c2 c1).
    destruct (Ascii.eqb c1 c2); [reflexivity | discriminate].
Qed.

Lemma handle_update_msg_ok (st : router) (srcif : string) (m : message)
      (st' : router) (out : list datagram) :
  handle_update_msg st srcif m = Ok (st', out) ->
  exists nw nm lp ap og so,
    msg m = Announcement nw nm lp ap og so /\
    coalesce (routes st ++ [Route nw nm lp ap og so (src m) None None])
      = Ok (routes st') /\
    updates st' = updates st ++ [m] /\
    asn st' = asn st /\ relations st' = relations st /\
    forward_update st' srcif (Forwarded nm (asn st :: ap) nw)
                   (keys (relations st)) = Ok out.
Proof.
  unfold handle_update_msg. intros H.
  destruct (msg m) as [nw nm lp ap og so| | | | |]; try discriminate.
  monad_inv H. inversion H; subst; clear H.
  exists nw, nm, lp, ap, og, so. simpl. auto 10.
Qed.

(** C3.  After an update message is handled, the routing table holds no two
    mergeable records: [aggregate_routes] declines every pair of distinct
    positions, in either order, so the last pass of [coalesce] found
    nothing left to aggregate. *)
Theorem update_leaves_no_mergeable_pair
        (st : router) (srcif : string) (m : message)
        (st' : router) (out : list datagram) :
  handle_update_msg st srcif m = Ok (st', out) ->
  forall i j R1 R2,
    i <> j ->
    nth_error (routes st') i = Some R1 ->
    nth_error (routes st') j = Some R2 ->
    aggregate_routes R1 R2 = Ok None /\ ~ mergeable R1 R2.
Proof.
  intros H i j R1 R2 Hij H1 H2.
  apply handle_update_msg_ok in H.
  destruct H as (nw & nm & lp & ap & og & so & _ & Hc & _).
  apply coalesce_fixpoint in Hc.
  assert (A : aggregate_routes R1 R2 = Ok None).
  { destruct (Nat.lt_ge_cases i j) as [Hlt|Hge].
    - exact (aggregate_pairs_nil _ Hc i j R1 R2 Hlt H1 H2).
    - apply aggregate_routes_none_sym.
      apply (aggregate_pairs_nil _ Hc j i R2 R1); [lia | assumption | assumption]. }
  split; [exact A|].
  intros Hm. exact (mergeable_aggregated _ _ Hm A).
Qed.

(** ** The shape of an aggregate *)

Lemma aggregate_routes_some (R1 R2 agg : route) :
  aggregate_routes R1 R2 = Ok (Some agg) ->
  exists L,
    get_netmask_length (netmask R1) = Ok L /\
    netmask R1 = netmask R2 /\
    agg = Route (if Py.str_gt (network R1) (network R2)
                 then network R2 else network R1)
                (netmask_with_length (L - 1))
                (localpref R1) (ASPath R1) (origin R1) (selfOrigin R1)
                (peer R1)
                (Some (if Py.str_gt (network R1) (network R2) then R2 else R1))
                (Some (if Py.str_gt (network R1) (network R2) then R1 else R2)).
Proof.
  unfold aggregate_routes.
  destruct (negb (netmask R1 =? netmask R2)%string
            || negb (localpref R1 =? localpref R2)
            || negb (Bool.eqb (selfOrigin R1) (selfOrigin R2))
            || negb (aspath_eqb (ASPath R1) (ASPath R2))
            || negb (origin_eqb (origin R1) (origin R2))) eqn:A;
    [discriminate|].
  apply same_attributes in A. destruct A as (Hm & _).
  intros H. monad_inv H.
  destruct (negb _) in H; [discriminate|].
  monad_inv H.
  destruct (Ascii.eqb _ _) in H; [discriminate|].
  inversion H; subst; clear H.
  exists a. split; [assumption|]. split; [assumption|].
  destruct (Py.str_gt (network R1) (network R2)); reflexivity.
Qed.

Lemma aggregate_with_sound (ri : route) (later : list route)
      (aggs : list aggregation) :
  aggregate_with ri later = Ok aggs -> Forall sound aggs.
Proof.
  revert aggs; induction later as [|rj later IH]; simpl; intros aggs H.
  - inversion H; constructor.
  - monad_inv H. specialize (IH _ E0).
    destruct a as [agg|]; inversion H; subst; [|assumption].
    constructor; [exact E | assumption].
Qed.

Lemma aggregate_pairs_sound (l : list route) (aggs : list aggregation) :
  aggregate_pairs l = Ok aggs -> Forall sound aggs.
Proof.
  revert aggs; induction l as [|r l IH]; simpl; intros aggs H.
  - inversion H; constructor.
  - monad_inv H. inversion H; subst; clear H. apply Forall_app. split.
    + eapply aggregate_with_sound; eassumption.
    + apply IH; assumption.
Qed.

(** A property of route lists that survives a removal and the appending
    of an aggregate of two of its members survives [coalesce]. *)
Section CoalesceInvariant.

Variable Inv : list route -> Prop.
Hypothesis Inv_replace :
  forall l1 l2 l3 R1 R2 agg,
    aggregate_routes R1 R2 = Ok (Some agg) ->
    list_remove R1 l1 = Ok l2 ->
    list_remove R2 l2 = Ok l3 ->
    Inv l1 -> Inv (l3 ++ [agg]).

Lemma replace_pairs_invariant (aggs : list aggregation) (l l' : list route) :
  Forall sound aggs -> replace_pairs aggs l = Ok l' -> Inv l -> Inv l'.
Proof.
  revert l; induction aggs as [|a aggs IH]; simpl; intros l Hs H Hi.
  - inversion H; subst; assumption.
  - inversion Hs; subst. monad_inv H.
    eapply IH; eauto.
Qed.

Lemma coalesce_rec_invariant (n : nat) (l l' : list route) :
  coalesce_rec n l = Ok l' -> Inv l -> Inv l'.
Proof.
  revert l; induction n as [|n IH]; intros l H Hi.
  - change (coalesce_rec 0 l) with
      (aggregated_routes <- aggregate_pairs l ;;
       routes' <- replace_pairs aggregated_routes l ;;
       match aggregated_routes with
       | [] => Ok routes'
       | _ :: _ => Ok routes'
       end) in H.
    monad_inv H.
    assert (Inv a0)
      by exact (replace_pairs_invariant a l a0 (aggregate_pairs_sound _ _ E)
                                        E0 Hi).
    destruct a; inversion H; subst; assumption.
  - rewrite coalesce_rec_S in H. monad_inv H.
    assert (Inv a0)
      by exact (replace_pairs_invariant a l a0 (aggregate_pairs_sound _ _ E)
                                        E0 Hi).
    destruct a; [inversion H; subst; assumption | eauto].
Qed.

Lemma coalesce_invariant (l l' : list route) :
  coalesce l = Ok l' -> Inv l -> Inv l'.
Proof. apply coalesce_rec_invariant. Qed.

End CoalesceInvariant.

(** ** Leaves of the table *)

Lemma table_leaves_app (l1 l2 : list route) :
  table_leaves (l1 ++ l2) = (table_leaves l1 + table_leaves l2)%nat.
Proof. unfold table_leaves. rewrite map_app, list_sum_app. reflexivity. Qed.

Lemma list_remove_leaves (x : route) (l l' : list route) :
  list_remove x l = Ok l' ->
  table_leaves l = (leaf_count x + table_leaves l')%nat.
Proof.
  intros H. destruct (list_remove_ok _ _ _ H) as (l1 & l2 & -> & -> & _).
  rewrite !table_leaves_app. unfold table_leaves; simpl. lia.
Qed.

Lemma aggregate_leaf_count (R1 R2 agg : route) :
  aggregate_routes R1 R2 = Ok (Some agg) ->
  leaf_count agg = (leaf_count R1 + leaf_count R2)%nat.
Proof.
  intros H. destruct (aggregate_routes_some _ _ _ H) as (L & _ & _ & ->).
  simpl. destruct (Py.str_gt (network R1) (network R2)); lia.
Qed.

Lemma coalesce_leaves (l l' : list route) :
  coalesce l = Ok l' -> table_leaves l' = table_leaves l.
Proof.
  intros H.
  apply (coalesce_invariant (fun t => table_leaves t = table_leaves l))
    with (l := l); [|assumption|reflexivity].
  intros l1 l2 l3 R1 R2 agg Ha H1 H2 Hi.
  apply list_remove_leaves in H1, H2. apply aggregate_leaf_count in Ha.
  rewrite table_leaves_app. unfold table_leaves at 2; simpl. lia.
Qed.

(** C8, as the code has it.  The router has no notion of a malformed
    netmask: [get_netmask_length] is the number of ['1'] characters of the
    binary form, contiguous or not, and an update that is handled is
    never dropped: it is logged, and the table stands for exactly one
    leaf more than before. *)
Theorem update_is_stored_whatever_the_netmask
        (st : router) (srcif : string) (m : message)
        (st' : router) (out : list datagram) :
  handle_update_msg st srcif m = Ok (st', out) ->
  table_leaves (routes st') = S (table_leaves (routes st)) /\
  updates st' = updates st ++ [m] /\
  forall nw nm lp ap og so bits,
    msg m = Announcement nw nm lp ap og so ->
    ip_to_binary_string nm = Ok bits ->
    get_netmask_length nm = Ok (Py.count "1" bits).
Proof.
  intros H. apply handle_update_msg_ok in H.
  destruct H as (nw & nm & lp & ap & og & so & Hm & Hc & Hu & _).
  split; [|split; [assumption|]].
  - apply coalesce_leaves in Hc. rewrite Hc, table_leaves_app.
    unfold table_leaves at 2; simpl. lia.
  - intros nw' nm' lp' ap' og' so' bits _ Hb.
    unfold get_netmask_length. rewrite Hb. reflexivity.
Qed.

(** ** Propagation of updates *)

Lemma forwards_ok (st : router) (srcif neighbor : string) (b : bool) :
  forwards st srcif neighbor = Ok b ->
  b = negb (neighbor =? srcif)%string
      && (is_cust (relationship st srcif) || is_cust (relationship st neighbor)).
Proof.
  unfold forwards, relationship.
  destruct (neighbor =? srcif)%string; simpl; [congruence|].
  destruct (dict_get (relations st) srcif) as [rs|e]; simpl; [|discriminate].
  destruct (is_cust rs); simpl; [congruence|].
  destruct (dict_get (relations st) neighbor) as [rn|e]; simpl;
    [congruence | discriminate].
Qed.

Lemma forward_update_ok (st : router) (srcif : string) (n_msg : payload)
      (neighbors : list string) (out : list datagram) :
  forward_update st srcif n_msg neighbors = Ok out ->
  Forall2 (fun N d => exists a, our_addr N = Ok a /\
                                d = (N, Message "update" a N n_msg))
          (filter (fun N => negb (N =? srcif)%string
                            && (is_cust (relationship st srcif)
                                || is_cust (relationship st N)))
                  neighbors)
          out.
Proof.
  revert out; induction neighbors as [|N rest IH]; simpl; intros out H.
  - inversion H; constructor.
  - monad_inv H. inversion H; subst; clear H.
    apply forwards_ok in E. rewrite <- E.
    destruct a.
    + monad_inv E0. inversion E0; subst; clear E0.
      unfold send in E3. monad_inv E3. inversion E3; subst; clear E3.
      simpl. constructor; [eauto | auto].
    + inversion E0; subst. simpl. auto.
Qed.

(** C5.  An update received from [S] is forwarded to exactly the
    neighbours [N <> S] with [relationship S = cust] or
    [relationship N = cust], once each and in dictionary order; the record
    sent to [N] is addressed from this router's address on that link and
    its payload holds the netmask, the network and the ASPath with this
    router's AS number in front, and nothing else. *)
Theorem update_is_forwarded_by_relationship
        (st : router) (S : string) (m : message)
        (st' : router) (out : list datagram)
        (nw nm : string) (lp : Z) (ap : list Z) (og : origin_t) (so : bool) :
  msg m = Announcement nw nm lp ap og so ->
  handle_update_msg st S m = Ok (st', out) ->
  Forall2 (fun N d =>
             exists a, our_addr N = Ok a /\
                       d = (N, Message "update" a N
                                       (Forwarded nm (asn st :: ap) nw)))
          (recipients st S) out.
Proof.
  intros Hm H. apply handle_update_msg_ok in H.
  destruct H as (nw' & nm' & lp' & ap' & og' & so' & Hm' & _ & _ & _ & Hr & Hf).
  rewrite Hm in Hm'. inversion Hm'; subst; clear Hm'.
  apply forward_update_ok in Hf.
  unfold recipients, relationship in *. rewrite Hr in Hf. exact Hf.
Qed.

(** ** Data packets *)

Lemma customer_routes_ok (st : router) (valid filtered : list route) :
  customer_routes st valid = Ok filtered ->
  filtered = filter (fun r => is_cust (relationship st (peer r))) valid.
Proof.
  revert filtered; induction valid as [|r valid IH]; simpl; intros filtered H.
  - inversion H; reflexivity.
  - monad_inv H. inversion H; subst; clear H.
    unfold relationship at 1. rewrite E.
    rewrite (IH _ E0). reflexivity.
Qed.

(** C6.  A data message from [srcif]: when [srcif] is not a customer the
    selected route is kept only if its peer is a customer; when no route
    is left, whether none matched or the policy discarded it, the only
    datagram sent is a [no route] record to [srcif], from this router's
    address on that link, whose [dst] is the [src] of the message and whose
    [msg] is empty; otherwise the message is relayed unchanged to the peer
    of the route.  The table and the log are left alone. *)
Theorem data_policy_and_no_route
        (st : router) (srcif : string) (m : message)
        (st' : router) (out : list datagram) :
  handle_data_msg st srcif m = Ok (st', out) ->
  exists valid found,
    valid_routes st (dst m) = Ok valid /\
    find_routes st srcif (dst m) = Ok found /\
    st' = st /\
    (is_cust (relationship st srcif) = false ->
     found = hd_error
               (filter (fun r => is_cust (relationship st (peer r))) valid)) /\
    (is_cust (relationship st srcif) = true -> found = hd_error valid) /\
    (valid = [] -> found = None) /\
    match found with
    | None =>
        exists a, our_addr srcif = Ok a /\
                  out = [(srcif, Message "no route" a (src m) Empty)]
    | Some r => out = [(peer r, m)]
    end.
Proof.
  unfold handle_data_msg. intros H. monad_inv H.
  pose proof E as Hfind. unfold find_routes in E. monad_inv E.
  exists a0, a. split; [assumption|]. split; [assumption|].
  assert (Hrel : relationship st srcif = a1)
    by (unfold relationship; rewrite E1; reflexivity).
  rewrite Hrel.
  assert (Hfound : a = hd_error a2)
    by (destruct a2; inversion E; reflexivity).
  assert (Hst : st' = st /\
                match a with
                | None =>
                    exists a, our_addr srcif = Ok a /\
                              out = [(srcif, Message "no route" a (src m) Empty)]
                | Some r => out = [(peer r, m)]
                end).
  { destruct a as [r|].
    - monad_inv H. unfold send in E3. monad_inv E3.
      inversion E3; inversion H; subst. auto.
    - monad_inv H. unfold send in E4. monad_inv E4.
      inversion E4; inversion H; subst. eauto. }
  destruct Hst as (-> & Hout).
  split; [reflexivity|].
  destruct (is_cust a1) eqn:Hc; simpl in E2.
  - inversion E2; subst a2.
    repeat split; try discriminate; auto.
    intros ->; rewrite Hfound; reflexivity.
  - apply customer_routes_ok in E2. subst a2.
    repeat split; try discriminate; auto.
    intros ->; rewrite Hfound; reflexivity.
Qed.

(** ** Table dumps *)


(** ** Selection by a cascade of criteria *)

Section Cascade.

Context {A : Type}.

Lemma lex_total (le1 le2 : A -> A -> bool) :
  total le1 -> total le2 -> total (lex le1 le2).
Proof.
  intros T1 T2 x y. unfold lex.
  destruct (T1 x y) as [H|H], (T2 x y) as [H'|H']; rewrite ?H, ?H';
    destruct (le1 x y), (le1 y x), (le2 x y), (le2 y x); simpl; auto;
    discriminate.
Qed.

Lemma lex_transitive (le1 le2 : A -> A -> bool) :
  total le1 -> transitive le1 -> transitive le2 ->
  transitive (lex le1 le2).
Proof.
  intros T1 R1 R2 x y z. unfold lex. intros Hxy Hyz.
  pose proof (R1 x y z) as Rxyz. pose proof (R1 y z x) as Ryzx.
  pose proof (R1 z x y) as Rzxy. pose proof (R2 x y z) as R2xyz.
  destruct (T1 x y) as [H|H], (T1 y z) as [H'|H'], (T1 x z) as [H''|H''];
    rewrite ?H, ?H', ?H'' in *;
    destruct (le1 x y), (le1 y x), (le1 y z), (le1 z y), (le1 x z),
      (le1 z x), (le2 x y), (le2 y z), (le2 x z);
    simpl in *; auto; try discriminate;
    try (specialize (Rxyz eq_refl eq_refl); discriminate);
    try (specialize (Ryzx eq_refl eq_refl); discriminate);
    try (specialize (Rzxy eq_refl eq_refl); discriminate);
    try (specialize (R2xyz eq_refl eq_refl); discriminate).
Qed.

Lemma filter_filter_and (f g : A -> bool) (l : list A) :
  filter f (filter g l) = filter (fun x => g x && f x) l.
Proof.
  induction l as [|x l IH]; simpl; [reflexivity|].
  destruct (g x); simpl; [destruct (f x)|]; rewrite IH; reflexivity.
Qed.

Lemma filter_none (f : A -> bool) (l : list A) :
  (forall x, In x l -> f x = false) -> filter f l = [].
Proof.
  induction l as [|x l IH]; simpl; intros H; [reflexivity|].
  rewrite (H x (or_introl eq_refl)). apply IH. intros y Hy. apply H; auto.
Qed.

(** Two steps of a cascade are one step on the combined criterion. *)
Lemma keep_best_lex (le1 le2 : A -> A -> bool) (l : list A) :
  total le1 -> transitive le1 ->
  keep_best le2 (keep_best le1 l) = keep_best (lex le1 le2) l.
Proof.
  intros T1 R1. unfold keep_best at 1 3. unfold keep_best at 2.
  rewrite filter_filter_and. apply filter_ext_in. intros r Hr.
  apply eq_true_iff_eq.
  rewrite andb_true_iff, !forallb_forall. split.
  - intros [H1 H2] x Hx. unfold lex.
    destruct (le1 r x) eqn:E; simpl; [|reflexivity].
    rewrite (H1 x Hx). simpl. apply H2.
    unfold keep_best. apply filter_In. split; [assumption|].
    apply forallb_forall. intros y Hy. apply (R1 y r x); auto.
  - intros H. split.
    + intros x Hx. specialize (H x Hx).
      unfold lex in H. destruct (T1 x r) as [E|E]; [assumption|].
      rewrite E in H. simpl in H. apply andb_true_iff in H. tauto.
    + intros x Hx. unfold keep_best in Hx. apply filter_In in Hx.
      destruct Hx as [Hx Hb]. rewrite forallb_forall in Hb.
      specialize (H x Hx). unfold lex in H.
      rewrite (Hb r Hr) in H. simpl in H.
      apply andb_true_iff in H. tauto.
Qed.

Lemma first_best_head (le : A -> A -> bool) (l : list A) (v : A) :
  first_best le l v -> hd_error (keep_best le l) = Some v.
Proof.
  intros (l1 & l2 & -> & Hmax & Hbefore). unfold keep_best.
  rewrite filter_app.
  assert (E : filter (fun r => forallb (fun r' => le r' r) (l1 ++ v :: l2)) l1
              = []).
  { apply filter_none. intros x Hx.
    destruct (forallb _ _) eqn:F; [|reflexivity].
    rewrite forallb_forall in F.
    rewrite <- (Hbefore x Hx). symmetry. apply F.
    apply in_or_app; right; left; reflexivity. }
  rewrite E. simpl.
  assert (F : forallb (fun r' => le r' v) (l1 ++ v :: l2) = true)
    by (apply forallb_forall; exact Hmax).
  rewrite F. reflexivity.
Qed.

Lemma first_best_single (le : A -> A -> bool) (r : A) :
  total le -> first_best le [r] r.
Proof.
  intros T. exists [], []. repeat split; try reflexivity.
  - intros x [E|[]]. subst x. destruct (T r r); assumption.
  - intros x [].
Qed.

(** A later element that is no better leaves the first best in place. *)
Lemma first_best_keep (le : A -> A -> bool) (l : list A) (v r : A) :
  first_best le l v -> le r v = true -> first_best le (l ++ [r]) v.
Proof.
  intros (l1 & l2 & -> & Hmax & Hbefore) Hr.
  exists l1, (l2 ++ [r]). repeat split.
  - rewrite <- app_assoc. reflexivity.
  - intros x Hx. apply in_app_or in Hx.
    destruct Hx as [Hx|[<-|[]]]; auto.
  - assumption.
Qed.

(** A later element that is strictly better becomes the first best. *)
Lemma first_best_replace (le : A -> A -> bool) (l : list A) (v r : A) :
  total le -> transitive le ->
  first_best le l v -> le r v = false -> first_best le (l ++ [r]) r.
Proof.
  intros T R (l1 & l2 & -> & Hmax & Hbefore) Hr.
  assert (Hvr : le v r = true) by (destruct (T v r); congruence).
  exists (l1 ++ v :: l2), []. repeat split.
  - intros x Hx. apply in_app_or in Hx.
    destruct Hx as [Hx|[E|[]]].
    + apply (R x v r); auto.
    + subst x. destruct (T r r); assumption.
  - intros x Hx. destruct (le r x) eqn:E; [|reflexivity].
    rewrite <- Hr. symmetry. apply (R r x v); auto.
Qed.

Lemma better_lex (le1 le2 : A -> A -> bool) (x y : A) :
  total le1 ->
  better (lex le1 le2) x y
  = better le1 x y || (tied le1 x y && better le2 x y).
Proof.
  intros T1. unfold better, tied, lex.
  destruct (T1 x y) as [H|H]; rewrite H;
    destruct (le1 x y), (le1 y x), (le2 x y); try discriminate; reflexivity.
Qed.

Lemma tied_lex (le1 le2 : A -> A -> bool) (x y : A) :
  total le1 ->
  tied (lex le1 le2) x y = tied le1 x y && tied le2 x y.
Proof.
  intros T1. unfold tied, lex.
  destruct (T1 x y) as [H|H]; rewrite H;
    destruct (le1 x y), (le1 y x), (le2 x y), (le2 y x);
    try discriminate; reflexivity.
Qed.

Lemma first_best_In (le : A -> A -> bool) (l : list A) (v : A) :
  first_best le l v -> In v l.
Proof.
  intros (l1 & l2 & -> & _). apply in_or_app; right; left; reflexivity.
Qed.

End Cascade.

(** ** The order of Python strings *)

Lemma ascii_compare_N (a b : ascii) :
  Ascii.compare a b = N.compare (N_of_ascii a) (N_of_ascii b).
Proof. reflexivity. Qed.

Lemma string_compare_lt_trans (a b c : string) :
  String.compare a b = Lt -> String.compare b c = Lt ->
  String.compare a c = Lt.
Proof.
  revert b c; induction a as [|x a IH]; intros [|y b] [|z c]; simpl;
    try congruence.
  rewrite !ascii_compare_N.
  destruct (N.compare_spec (N_of_ascii x) (N_of_ascii y)) as [Exy|Lxy|Gxy];
    destruct (N.compare_spec (N_of_ascii y) (N_of_ascii z)) as [Eyz|Lyz|Gyz];
    destruct (N.compare_spec (N_of_ascii x) (N_of_ascii z)) as [Exz|Lxz|Gxz];
    try congruence; try lia; eauto.
Qed.

Lemma string_leb_trans (a b c : string) :
  String.leb a b = true -> String.leb b c = true -> String.leb a c = true.
Proof.
  unfold String.leb.
  destruct (String.compare a b) eqn:Eab; try discriminate;
    destruct (String.compare b c) eqn:Ebc; try discriminate; intros _ _.
  - apply String.compare_eq_iff in Eab. subst. rewrite Ebc. reflexivity.
  - apply String.compare_eq_iff in Eab. subst. rewrite Ebc. reflexivity.
  - apply String.compare_eq_iff in Ebc. subst. rewrite Eab. reflexivity.
  - rewrite (string_compare_lt_trans _ _ _ Eab Ebc). reflexivity.
Qed.

Lemma string_ltb_leb (a b : string) :
  String.ltb a b = negb (String.leb b a).
Proof.
  unfold String.ltb, String.leb. rewrite (String.compare_antisym a b).
  destruct (String.compare b a); reflexivity.
Qed.

(** ** Best-path selection as a cascade *)

Lemma le_length_total : total le_length.
Proof. intros x y; unfold le_length; rewrite !Z.leb_le; lia. Qed.
Lemma le_length_transitive : transitive le_length.
Proof. intros x y z; unfold le_length; rewrite !Z.leb_le; lia. Qed.
Lemma le_localpref_total : total le_localpref.
Proof. intros x y; unfold le_localpref; rewrite !Z.leb_le; lia. Qed.
Lemma le_localpref_transitive : transitive le_localpref.
Proof. intros x y z; unfold le_localpref; rewrite !Z.leb_le; lia. Qed.
Lemma le_selfOrigin_total : total le_selfOrigin.
Proof.
  intros x y; unfold le_selfOrigin.
  destruct (selfOrigin x), (selfOrigin y); simpl; auto.
Qed.
Lemma le_selfOrigin_transitive : transitive le_selfOrigin.
Proof.
  intros x y z; unfold le_selfOrigin.
  destruct (selfOrigin x), (selfOrigin y), (selfOrigin z); simpl; auto.
Qed.
Lemma le_aspath_total : total le_aspath.
Proof. intros x y; unfold le_aspath; rewrite !Nat.leb_le; lia. Qed.
Lemma le_aspath_transitive : transitive le_aspath.
Proof. intros x y z; unfold le_aspath; rewrite !Nat.leb_le; lia. Qed.
Lemma le_origin_total : total le_origin.
Proof. intros x y; unfold le_origin; rewrite !Z.leb_le; lia. Qed.
Lemma le_origin_transitive : transitive le_origin.
Proof. intros x y z; unfold le_origin; rewrite !Z.leb_le; lia. Qed.
Lemma le_peer_total : total le_peer.
Proof. intros x y; unfold le_peer. apply or_comm, String.leb_total. Qed.
Lemma le_peer_transitive : transitive le_peer.
Proof.
  intros x y z; unfold le_peer. intros H1 H2.
  exact (string_leb_trans _ _ _ H2 H1).
Qed.

Create HintDb order.

#[local] Hint Resolve lex_total lex_transitive
  le_length_total le_length_transitive
  le_localpref_total le_localpref_transitive
  le_selfOrigin_total le_selfOrigin_transitive
  le_aspath_total le_aspath_transitive
  le_origin_total le_origin_transitive
  le_peer_total le_peer_transitive : order.

Lemma le_route_total : total le_route.
Proof. unfold le_route; auto 10 with order. Qed.

Lemma le_route_transitive : transitive le_route.
Proof. unfold le_route; auto 10 with order. Qed.

(** The cascade of steps 2 and 3 keeps the routes that are best in the
    combined order. *)
Lemma tie_break_longest (l : list route) :
  tie_break (longest l) = keep_best le_route l.
Proof.
  unfold tie_break, longest, le_route.
  rewrite (keep_best_lex le_length le_localpref) by auto with order.
  rewrite (keep_best_lex _ le_selfOrigin) by auto with order.
  rewrite (keep_best_lex _ le_aspath) by auto 6 with order.
  rewrite (keep_best_lex _ le_origin) by auto 8 with order.
  rewrite (keep_best_lex _ le_peer) by auto 10 with order.
  reflexivity.
Qed.

Ltac case_order :=
  repeat match goal with
    | |- context [Z.ltb ?a ?b] => destruct (Z.ltb_spec a b)
    | |- context [Z.leb ?a ?b] => destruct (Z.leb_spec a b)
    | |- context [Z.eqb ?a ?b] => destruct (Z.eqb_spec a b)
    | |- context [Nat.ltb ?a ?b] => destruct (Nat.ltb_spec a b)
    | |- context [Nat.leb ?a ?b] => destruct (Nat.leb_spec a b)
    | |- context [Nat.eqb ?a ?b] => destruct (Nat.eqb_spec a b)
    end; simpl; try reflexivity; try lia.

Lemma better_length (r v : route) :
  better le_length r v = (prefix_length v <? prefix_length r).
Proof. unfold better, le_length. case_order. Qed.

Lemma tied_length (r v : route) :
  tied le_length r v = (prefix_length v =? prefix_length r).
Proof. unfold tied, le_length. case_order. Qed.

Lemma better_localpref (r v : route) :
  better le_localpref r v = (localpref v <? localpref r).
Proof. unfold better, le_localpref. case_order. Qed.

Lemma tied_localpref (r v : route) :
  tied le_localpref r v = (localpref v =? localpref r).
Proof. unfold tied, le_localpref. case_order. Qed.

Lemma better_selfOrigin (r v : route) :
  better le_selfOrigin r v = negb (selfOrigin v) && selfOrigin r.
Proof.
  unfold better, le_selfOrigin. destruct (selfOrigin v), (selfOrigin r);
    reflexivity.
Qed.

Lemma tied_selfOrigin (r v : route) :
  tied le_selfOrigin r v = Bool.eqb (selfOrigin v) (selfOrigin r).
Proof.
  unfold tied, le_selfOrigin. destruct (selfOrigin v), (selfOrigin r);
    reflexivity.
Qed.

Lemma better_aspath (r v : route) :
  better le_aspath r v
  = (List.length (ASPath r) <? List.length (ASPath v))%nat.
Proof. unfold better, le_aspath. case_order. Qed.

Lemma tied_aspath (r v : route) :
  tied le_aspath r v
  = (List.length (ASPath v) =? List.length (ASPath r))%nat.
Proof. unfold tied, le_aspath. case_order. Qed.

Lemma better_origin (r v : route) :
  better le_origin r v
  = (origin_eqb (origin r) IGP && negb (origin_eqb (origin v) IGP))
    || (origin_eqb (origin r) EGP && origin_eqb (origin v) UNK).
Proof.
  unfold better, le_origin. destruct (origin r), (origin v); reflexivity.
Qed.

Lemma tied_origin (r v : route) :
  tied le_origin r v = origin_eqb (origin r) (origin v).
Proof.
  unfold tied, le_origin. destruct (origin r), (origin v); reflexivity.
Qed.

Lemma better_peer (r v : route) :
  better le_peer r v = Py.str_gt (peer v) (peer r).
Proof.
  unfold better, le_peer, Py.str_gt. symmetry. apply string_ltb_leb.
Qed.

(** The loop replaces the retained route exactly when the new one is
    strictly better in the combined order, and it never appends. *)
Lemma decision_spec (v r : route) :
  match decision v r with
  | Replace => le_route r v = false
  | Append => False
  | Keep => le_route r v = true
  end.
Proof.
  assert (E : better le_route r v =
              match decision v r with Replace => true | _ => false end
              /\ decision v r <> Append).
  { unfold le_route.
    rewrite !better_lex, !tied_lex by auto 10 with order.
    rewrite better_length, tied_length, better_localpref, tied_localpref,
      better_selfOrigin, tied_selfOrigin, better_aspath, tied_aspath,
      better_origin, tied_origin, better_peer.
    unfold decision, compare_routes.
    destruct (prefix_length v <? prefix_length r);
      [split; [reflexivity | discriminate]|].
    destruct (prefix_length v =? prefix_length r);
      [|split; [reflexivity | discriminate]].
    destruct (localpref v <? localpref r);
      [split; [reflexivity | discriminate]|].
    destruct (localpref v =? localpref r);
      [|split; [reflexivity | discriminate]].
    destruct (negb (selfOrigin v) && selfOrigin r);
      [split; [reflexivity | discriminate]|].
    destruct (Bool.eqb (selfOrigin v) (selfOrigin r));
      [|split; [reflexivity | discriminate]].
    destruct (List.length (ASPath r) <? List.length (ASPath v))%nat;
      [split; [reflexivity | discriminate]|].
    destruct (List.length (ASPath v) =? List.length (ASPath r))%nat;
      [|split; [reflexivity | discriminate]].
    destruct ((origin_eqb (origin r) IGP && negb (origin_eqb (origin v) IGP))
              || (origin_eqb (origin r) EGP && origin_eqb (origin v) UNK));
      [split; [reflexivity | discriminate]|].
    destruct (origin_eqb (origin r) (origin v));
      [|split; [reflexivity | discriminate]].
    destruct (Py.str_gt (peer v) (peer r));
      split; (reflexivity || discriminate). }
  destruct E as [E N]. unfold better in E.
  destruct (decision v r); try contradiction;
    destruct (le_route r v); simpl in E; congruence.
Qed.

Lemma count_nonneg (c : ascii) (s : string) : 0 <= Py.count c s.
Proof.
  induction s as [|d s IH]; simpl; [lia|].
  destruct (Ascii.eqb d c); lia.
Qed.

Lemma match_length_some (dest : string) (r : route) (nl : Z) :
  match_length dest r = Ok (Some nl) ->
  matches dest r = true /\ prefix_length r = nl /\ 0 <= nl.
Proof.
  intros H. unfold matches. rewrite H. split; [reflexivity|].
  unfold match_length in H. monad_inv H.
  destruct (_ =? _)%string in H; inversion H; subst.
  unfold prefix_length. rewrite E. split; [reflexivity|].
  unfold get_netmask_length in E. monad_inv E. inversion E; subst.
  apply count_nonneg.
Qed.

Lemma match_length_none (dest : string) (r : route) :
  match_length dest r = Ok None -> matches dest r = false.
Proof. intros H. unfold matches. rewrite H. reflexivity. Qed.

(** One round of the loop, read through [match_length] and [decision]. *)
Lemma select_step_ok (dest : string) (vnl : Z) (vr : list route) (r : route)
      (acc' : Z * list route) :
  select_step dest (vnl, vr) r = Ok acc' ->
  exists ml,
    match_length dest r = Ok ml /\
    match ml with
    | None => acc' = (vnl, vr)
    | Some nl =>
        if vnl <? nl then acc' = (nl, [r])
        else if vnl =? nl then
          exists v, Py.nth vr 0 = Ok v /\
                    acc' = match compare_routes v r with
                           | Replace => (nl, [r])
                           | Append => (vnl, vr ++ [r])
                           | Keep => (vnl, vr)
                           end
        else acc' = (vnl, vr)
    end.
Proof.
  unfold select_step, match_length. intros H. monad_inv H.
  rewrite E, E0, E1. simpl.
  destruct (_ =? _)%string.
  - eexists; split; [reflexivity|]. simpl.
    destruct (vnl <? a); [congruence|].
    destruct (vnl =? a); [|congruence].
    monad_inv H. exists a2. split; [assumption|].
    destruct (compare_routes a2 r); congruence.
  - eexists; split; [reflexivity|]. simpl. congruence.
Qed.

Lemma select_step_selected (dest : string) (done : list route)
      (acc acc' : Z * list route) (r : route) :
  selected dest done acc ->
  select_step dest acc r = Ok acc' ->
  selected dest (done ++ [r]) acc'.
Proof.
  intros Hs H. destruct acc as [vnl vr].
  apply select_step_ok in H. destruct H as (ml & Hm & H).
  unfold selected, candidates. rewrite filter_app. simpl.
  destruct ml as [nl|].
  - destruct (match_length_some _ _ _ Hm) as (Hmatch & Hlen & Hnl).
    rewrite Hmatch.
    destruct Hs as [[Hnone Hacc]|(v & Hacc & Hbest)].
    + inversion Hacc; subst vnl vr.
      destruct (Z.ltb_spec (-1) nl); [|lia].
      right. exists r. split; [congruence|].
      fold (candidates dest done). rewrite Hnone. simpl.
      apply first_best_single, le_route_total.
    + inversion Hacc; subst vnl vr.
      right. fold (candidates dest done).
      pose proof (decision_spec v r) as D. unfold decision in D.
      rewrite Hlen in D.
      destruct (prefix_length v <? nl).
      * exists r. split; [congruence|].
        apply first_best_replace with (v := v);
          auto using le_route_total, le_route_transitive.
      * destruct (prefix_length v =? nl).
        -- destruct H as (v' & Hv' & H). inversion Hv'; subst v'.
           destruct (compare_routes v r); [| contradiction |].
           ++ exists r. split; [congruence|].
              apply first_best_replace with (v := v);
                auto using le_route_total, le_route_transitive.
           ++ exists v. split; [assumption|].
              apply first_best_keep; assumption.
        -- exists v. split; [assumption|].
           apply first_best_keep; assumption.
  - rewrite (match_length_none _ _ Hm). rewrite app_nil_r. subst acc'.
    exact Hs.
Qed.

Lemma select_loop_selected (dest : string) (rest done : list route)
      (acc acc' : Z * list route) :
  selected dest done acc ->
  select_loop dest acc rest = Ok acc' ->
  selected dest (done ++ rest) acc'.
Proof.
  revert done acc; induction rest as [|r rest IH]; simpl; intros done acc Hs H.
  - inversion H; subst. rewrite app_nil_r. assumption.
  - monad_inv H.
    replace (done ++ r :: rest) with ((done ++ [r]) ++ rest)
      by (rewrite <- app_assoc; reflexivity).
    eapply IH; [|eassumption].
    eapply select_step_selected; eassumption.
Qed.

Lemma filter_distinct_peers (keep : route -> bool) (table : list route) :
  NoDup (map peer table) -> NoDup (map peer (filter keep table)).
Proof.
  induction table as [|x l IH]; simpl; intros H; [constructor|].
  inversion H; subst. destruct (keep x); simpl; [|auto].
  constructor; [|auto].
  intros Hin. apply in_map_iff in Hin. destruct Hin as (y & Ey & Hy).
  apply filter_In in Hy. destruct Hy as [Hy _].
  match goal with N : ~ In (peer x) (map peer l) |- _ => apply N end.
  rewrite <- Ey. apply in_map. assumption.
Qed.

Lemma NoDup_map_constant {A B : Type} (f : A -> B) (c : B) (l : list A) (r : A) :
  NoDup (map f l) -> (forall x, In x l -> f x = c) ->
  hd_error l = Some r -> l = [r].
Proof.
  destruct l as [|x [|y l]]; simpl; intros N H E; try discriminate.
  - congruence.
  - exfalso. inversion N; subst.
    match goal with K : ~ In _ _ |- _ => apply K end.
    left. rewrite (H x), (H y); auto.
Qed.

Lemma keep_best_distinct_peers (le : route -> route -> bool) (l : list route) :
  NoDup (map peer l) -> NoDup (map peer (keep_best le l)).
Proof. apply filter_distinct_peers. Qed.

(** Routes tied in the combined order agree on every criterion. *)
Lemma tied_le_route (x y : route) :
  le_route x y = true -> le_route y x = true ->
  prefix_length x = prefix_length y /\
  localpref x = localpref y /\
  selfOrigin x = selfOrigin y /\
  List.length (ASPath x) = List.length (ASPath y) /\
  origin x = origin y /\
  peer x = peer y.
Proof.
  intros H1 H2.
  assert (T : tied le_route x y = true) by (unfold tied; rewrite H1, H2; reflexivity).
  unfold le_route in T. rewrite !tied_lex in T by auto 10 with order.
  rewrite tied_length, tied_localpref, tied_selfOrigin, tied_aspath,
    tied_origin in T.
  rewrite !andb_true_iff in T.
  destruct T as [[[[[T1 T2] T3] T4] T5] T6].
  apply Z.eqb_eq in T1, T2. apply Bool.eqb_prop in T3.
  apply Nat.eqb_eq in T4. apply origin_eqb_eq in T5.
  unfold tied, le_peer in T6. apply andb_true_iff in T6.
  destruct T6 as [P1 P2].
  repeat split; auto using String.leb_antisym.
Qed.

(** C1.  When at least one route of the table matches the destination,
    [valid_routes] holds exactly one route.  It is the result of the
    cascade: of the candidates tied for the longest prefix, keep the
    highest localpref, then selfOrigin true over false, then the shortest
    ASPath, then IGP over EGP over UNK, then the lowest peer.  The route
    held is the first survivor in table order; every survivor agrees with
    it on all five criteria, peer included, so when the peers of the
    longest-prefix candidates are pairwise distinct it is the only one. *)
Theorem best_route_is_cascade_survivor
        (st : router) (dest : string) (valid : list route) :
  valid_routes st dest = Ok valid ->
  candidates dest (routes st) <> [] ->
  exists r,
    valid = [r] /\
    hd_error (tie_break (longest (candidates dest (routes st)))) = Some r /\
    (forall r', In r' (tie_break (longest (candidates dest (routes st)))) ->
                localpref r' = localpref r /\
                selfOrigin r' = selfOrigin r /\
                List.length (ASPath r') = List.length (ASPath r) /\
                origin r' = origin r /\
                peer r' = peer r) /\
    (NoDup (map peer (longest (candidates dest (routes st)))) ->
     tie_break (longest (candidates dest (routes st))) = [r]).
Proof.
  unfold valid_routes. intros H Hne. monad_inv H.
  inversion H; subst l; clear H.
  assert (Hs : selected dest ([] ++ routes st) (z, valid)).
  { eapply select_loop_selected; [|eassumption].
    left. split; reflexivity. }
  simpl in Hs. destruct Hs as [[Hnone _]|(v & Hacc & Hbest)]; [contradiction|].
  inversion Hacc; subst. exists v.
  pose proof (first_best_head _ _ _ Hbest) as Hhd.
  rewrite <- tie_break_longest in Hhd.
  assert (Hall : forall r',
             In r' (tie_break (longest (candidates dest (routes st)))) ->
             localpref r' = localpref v /\
             selfOrigin r' = selfOrigin v /\
             List.length (ASPath r') = List.length (ASPath v) /\
             origin r' = origin v /\
             peer r' = peer v).
  { intros r' Hr'. rewrite tie_break_longest in Hr'.
    unfold keep_best in Hr'. apply filter_In in Hr'.
    destruct Hr' as [Hin Hb]. rewrite forallb_forall in Hb.
    destruct Hbest as (l1 & l2 & El & Hmax & _).
    assert (Hv : In v (candidates dest (routes st)))
      by (rewrite El; apply in_or_app; right; left; reflexivity).
    apply tied_le_route; auto. }
  split; [reflexivity|]. split; [assumption|]. split; [assumption|].
  intros N. apply NoDup_map_constant with (f := peer) (c := peer v).
  - unfold tie_break. do 5 apply keep_best_distinct_peers. assumption.
  - intros x Hx. apply Hall. assumption.
  - assumption.
Qed.

(** ** Withdrawal *)

Lemma withdraw_fuel_app (k : nat) (l1 l2 : list route) :
  withdraw_fuel k (l1 ++ l2) = (withdraw_fuel k l1 + withdraw_fuel k l2)%nat.
Proof. unfold withdraw_fuel. rewrite map_app, list_sum_app. reflexivity. Qed.

Lemma withdraw_fuel_cons (k : nat) (x : route) (l : list route) :
  withdraw_fuel k (x :: l) = (weight k x + withdraw_fuel k l)%nat.
Proof. reflexivity. Qed.

Lemma size_pos (r : route) : (1 <= size r)%nat.
Proof. destruct r; simpl; lia. Qed.

Lemma pow_pos (c n : nat) : (1 <= c)%nat -> (1 <= c ^ n)%nat.
Proof.
  intros H. induction n as [|n IH]; simpl; [lia|]. nia.
Qed.

Lemma pow_split_bound (c a b : nat) :
  (2 <= c)%nat -> (1 <= a)%nat -> (1 <= b)%nat ->
  (c ^ (a - 1) + c ^ b <= c ^ (a + b))%nat.
Proof.
  intros Hc Ha Hb.
  assert (H1 : (c ^ (a - 1) <= c ^ (a + b - 1))%nat)
    by (apply Nat.pow_le_mono_r; lia).
  assert (H2 : (c ^ b <= c ^ (a + b - 1))%nat)
    by (apply Nat.pow_le_mono_r; lia).
  replace (c ^ (a + b))%nat with (c * c ^ (a + b - 1))%nat
    by (rewrite <- Nat.pow_succ_r'; f_equal; lia).
  nia.
Qed.

Lemma nodes_self (r : route) : In r (nodes r).
Proof. destruct r as [? ? ? ? ? ? ? [?|] ?]; left; reflexivity. Qed.

Lemma nodes_trans (x y z : route) :
  In x (nodes y) -> In y (nodes z) -> In x (nodes z).
Proof.
  revert y x.
  induction z as [nw nm lp ap og so pr c0 c1 IH0 IH1] using route_ind.
  intros y x Hxy Hyz.
  destruct c0 as [r0|]; simpl in Hyz.
  - destruct Hyz as [<-|Hyz]; [assumption|].
    simpl. right. apply in_app_or in Hyz. apply in_or_app.
    destruct Hyz as [Hyz|Hyz].
    + left. eapply IH0; eauto.
    + right. destruct c1 as [r1|]; [|contradiction].
      eapply IH1; eauto.
  - destruct Hyz as [<-|[]]. assumption.
Qed.


(** [withdraw_route] answers whether the tree is touched; it only ever
    appends records of the tree to the table, and nothing when the answer
    is no. *)
Lemma withdraw_route_spec (c : nat) (srcif wn wm : string) (r : route) :
  (2 <= c)%nat ->
  forall table hit table',
    withdraw_route srcif wn wm r table = Ok (hit, table') ->
    hit = touched srcif (wn, wm) r /\
    exists app,
      table' = table ++ app /\
      (forall x, In x app -> In x (nodes r)) /\
      (hit = false -> app = []) /\
      (list_sum (map (fun x => c ^ size x) app) + 1 <= c ^ (size r - 1))%nat.
Proof.
  intros Hc.
  induction r as [nw nm lp ap og so pr c0 c1 IH0 IH1] using route_ind.
  intros table hit table' H.
  assert (P : (1 <= c ^ (size (Route nw nm lp ap og so pr c0 c1) - 1))%nat)
    by (apply pow_pos; lia).
  unfold touched. simpl nodes. simpl existsb.
  unfold withdrawn at 1. simpl fst; simpl snd. simpl network; simpl netmask;
    simpl peer.
  simpl in H.
  destruct ((nw =? wn)%string && (nm =? wm)%string && (pr =? srcif)%string).
  - inversion H; subst. split; [reflexivity|].
    exists []. rewrite app_nil_r.
    split; [reflexivity|]. split; [intros x []|]. split; [reflexivity|].
    apply pow_pos; lia.
  - simpl. destruct c0 as [r0|].
    + monad_inv H.
      destruct (IH0 r0 eq_refl _ _ _ E) as (Hhit0 & app0 & -> & Hin0 & Hno0 & Hw0).
      fold (touched srcif (wn, wm) r0) in *.
      rewrite existsb_app. fold (touched srcif (wn, wm) r0).
      destruct b.
      * destruct c1 as [r1|]; [|discriminate].
        inversion H; subst; clear H. rewrite <- Hhit0. simpl.
        split; [reflexivity|].
        assert (B : (c ^ (size r0 - 1) + c ^ size r1
                     <= c ^ (size r0 + size r1))%nat)
          by (apply pow_split_bound; auto using size_pos).
        simpl size in *. rewrite ?Nat.sub_0_r in *.
        destruct (list_mem r1 (table ++ app0)).
        -- exists app0. split; [reflexivity|]. split; [|split; [discriminate|]].
           ++ intros x Hx. right. apply in_or_app. left. auto.
           ++ pose proof (pow_pos c (size r1)). lia.
        -- exists (app0 ++ [r1]). rewrite app_assoc.
           split; [reflexivity|]. split; [|split; [discriminate|]].
           ++ intros x Hx. right. apply in_or_app. apply in_app_or in Hx.
              destruct Hx as [Hx|[<-|[]]]; [left; auto | right; apply nodes_self].
           ++ rewrite map_app, list_sum_app. simpl. lia.
      * rewrite <- Hhit0. simpl.
        rewrite (Hno0 eq_refl) in *. rewrite app_nil_r in *.
        destruct c1 as [r1|]; [|discriminate].
        monad_inv H.
        destruct (IH1 r1 eq_refl _ _ _ E0) as (Hhit1 & app1 & -> & Hin1 & Hno1 & Hw1).
        fold (touched srcif (wn, wm) r1). rewrite <- Hhit1.
        assert (B : (c ^ (size r1 - 1) + c ^ size r0
                     <= c ^ (size r1 + size r0))%nat)
          by (apply pow_split_bound; auto using size_pos).
        rewrite (Nat.add_comm (size r1)) in B.
        simpl size in *. rewrite ?Nat.sub_0_r in *.
        destruct b.
        -- inversion H; subst; clear H. split; [reflexivity|].
           destruct (list_mem r0 (table ++ app1)).
           ++ exists app1. split; [reflexivity|].
              split; [|split; [discriminate|]].
              ** intros x Hx. right. apply in_or_app. right. auto.
              ** pose proof (pow_pos c (size r0)). lia.
           ++ exists (app1 ++ [r0]). rewrite app_assoc.
              split; [reflexivity|]. split; [|split; [discriminate|]].
              ** intros x Hx. right. apply in_or_app. apply in_app_or in Hx.
                 destruct Hx as [Hx|[<-|[]]];
                   [right; auto | left; apply nodes_self].
              ** rewrite map_app, list_sum_app. simpl. lia.
        -- inversion H; subst; clear H. split; [reflexivity|].
           rewrite (Hno1 eq_refl). exists []. rewrite app_nil_r.
           split; [reflexivity|]. split; [intros x []|]. split; [reflexivity|].
           simpl. lia.
    + inversion H; subst. split; [reflexivity|].
      exists []. rewrite app_nil_r.
      split; [reflexivity|]. split; [intros x []|]. split; [reflexivity|].
      apply pow_pos; lia.
Qed.

Lemma withdraw_each_spec (c : nat) (srcif : string)
      (ds : list (string * string)) (r : route) :
  (2 <= c)%nat ->
  forall table wr table' wr',
    withdraw_each srcif ds r table wr = Ok (table', wr') ->
    wr' = wr ++ repeat r (hits srcif ds r) /\
    exists app,
      table' = table ++ app /\
      (forall x, In x app -> In x (nodes r)) /\
      (list_sum (map (fun x => c ^ size x) app) + List.length ds
       <= List.length ds * c ^ (size r - 1))%nat.
Proof.
  intros Hc. induction ds as [|[wn wm] ds IH]; simpl; intros table wr table' wr' H.
  - inversion H; subst. unfold hits; simpl. rewrite app_nil_r.
    split; [reflexivity|]. exists []. rewrite app_nil_r.
    split; [reflexivity|]. split; [intros x []|]. simpl; lia.
  - monad_inv H.
    destruct (withdraw_route_spec c srcif wn wm r Hc _ _ _ E)
      as (Hhit & app0 & -> & Hin0 & _ & Hw0).
    destruct (IH _ _ _ _ H) as (Hwr & app1 & -> & Hin1 & Hw1).
    split.
    + rewrite Hwr. unfold hits. simpl. rewrite <- Hhit.
      destruct b; simpl; [|reflexivity].
      rewrite <- app_assoc. reflexivity.
    + exists (app0 ++ app1). rewrite app_assoc.
      split; [reflexivity|]. split.
      * intros x Hx. apply in_app_or in Hx. destruct Hx; auto.
      * rewrite map_app, list_sum_app. lia.
Qed.

Lemma withdraw_each_weight (srcif : string) (ds : list (string * string))
      (r : route) (table wr table' wr' : list route) :
  withdraw_each srcif ds r table wr = Ok (table', wr') ->
  wr' = wr ++ repeat r (hits srcif ds r) /\
  exists app,
    table' = table ++ app /\
    (forall x, In x app -> In x (nodes r)) /\
    (withdraw_fuel (List.length ds) app < weight (List.length ds) r)%nat.
Proof.
  intros H. destruct ds as [|d ds].
  - simpl in H. inversion H; subst. unfold hits; simpl. rewrite app_nil_r.
    split; [reflexivity|]. exists []. rewrite app_nil_r.
    split; [reflexivity|]. split; [intros x []|].
    unfold withdraw_fuel, weight. simpl map. simpl list_sum.
    apply pow_pos. lia.
  - set (k := List.length (d :: ds)) in *.
    assert (Hk : (1 <= k)%nat) by (subst k; simpl; lia).
    destruct (withdraw_each_spec (S k) srcif (d :: ds) r ltac:(lia) _ _ _ _ H)
      as (Hwr & app & -> & Hin & Hw).
    split; [assumption|]. exists app.
    split; [reflexivity|]. split; [assumption|].
    unfold withdraw_fuel, weight. fold k in Hw.
    pose proof (size_pos r) as Hs.
    replace (S k ^ size r)%nat with (S k * S k ^ (size r - 1))%nat
      by (rewrite <- Nat.pow_succ_r'; f_equal; lia).
    pose proof (pow_pos (S k) (size r - 1)). nia.
Qed.

Lemma nth_error_skipn {A : Type} (l : list A) (i : nat) (x : A) :
  nth_error l i = Some x -> skipn i l = x :: skipn (S i) l.
Proof.
  revert i; induction l as [|y l IH]; intros [|i]; simpl; try discriminate.
  - congruence.
  - intros H. rewrite (IH _ H). reflexivity.
Qed.

Lemma skipn_app_short {A : Type} (l1 l2 : list A) (i : nat) :
  (i <= List.length l1)%nat -> skipn i (l1 ++ l2) = skipn i l1 ++ l2.
Proof.
  intros H. rewrite skipn_app.
  replace (i - List.length l1)%nat with 0%nat by lia. reflexivity.
Qed.

(** The scan visits every position of the table, the appended ones
    included: the fuel of [withdraw_fuel] never runs out.  The records
    appended are records of trees of the table, and [withdraw_routes]
    receives each visited entry once per descriptor that touches it. *)
Lemma withdraw_scan_spec (srcif : string) (ds : list (string * string)) :
  forall fuel i table wr table' wr',
    (withdraw_fuel (List.length ds) (skipn i table) <= fuel)%nat ->
    withdraw_scan fuel srcif ds i table wr = Ok (table', wr') ->
    exists app,
      table' = table ++ app /\
      (forall x, In x app -> exists y, In y table /\ In x (nodes y)) /\
      wr' = wr ++ flat_map (fun r => repeat r (hits srcif ds r)) (skipn i table').
Proof.
  induction fuel as [|fuel IH]; intros i table wr table' wr' Hf H.
  - simpl in H. destruct (nth_error table i) as [r|] eqn:En.
    + exfalso. rewrite (nth_error_skipn _ _ _ En) in Hf.
      rewrite withdraw_fuel_cons in Hf.
      pose proof (pow_pos (S (List.length ds)) (size r)).
      unfold weight in Hf. lia.
    + inversion H; subst. exists []. rewrite app_nil_r.
      split; [reflexivity|]. split; [intros x []|].
      apply nth_error_None in En. rewrite skipn_all2 by assumption.
      simpl. rewrite app_nil_r. reflexivity.
  - simpl in H. destruct (nth_error table i) as [r|] eqn:En.
    + monad_inv H.
      destruct (withdraw_each_weight _ _ _ _ _ _ _ E)
        as (Hwr & app1 & -> & Hin1 & Hw1).
      assert (Hi : (S i <= List.length table)%nat).
      { apply Nat.le_succ_l. apply nth_error_Some. congruence. }
      assert (Hf' : (withdraw_fuel (List.length ds)
                                  (skipn (S i) (table ++ app1)) <= fuel)%nat).
      { rewrite skipn_app_short by assumption. rewrite withdraw_fuel_app.
        rewrite (nth_error_skipn _ _ _ En) in Hf.
        rewrite withdraw_fuel_cons in Hf. lia. }
      destruct (IH _ _ _ _ _ Hf' H) as (app2 & -> & Hin2 & Hwr2).
      exists (app1 ++ app2). rewrite app_assoc.
      split; [reflexivity|]. split.
      * intros x Hx. apply in_app_or in Hx. destruct Hx as [Hx|Hx].
        -- exists r. split; [eapply nth_error_In; eassumption | auto].
        -- destruct (Hin2 x Hx) as (y & Hy & Hxy).
           apply in_app_or in Hy. destruct Hy as [Hy|Hy]; [eauto|].
           exists r. split; [eapply nth_error_In; eassumption|].
           eapply nodes_trans; eauto.
      * rewrite Hwr2, Hwr.
        assert (En' : nth_error ((table ++ app1) ++ app2) i = Some r).
        { rewrite <- app_assoc. rewrite nth_error_app1; [assumption|lia]. }
        rewrite (nth_error_skipn _ _ _ En'). simpl.
        rewrite <- app_assoc. reflexivity.
    + inversion H; subst. exists []. rewrite app_nil_r.
      split; [reflexivity|]. split; [intros x []|].
      apply nth_error_None in En. rewrite skipn_all2 by assumption.
      simpl. rewrite app_nil_r. reflexivity.
Qed.

Lemma route_eq_dec (x y : route) : {x = y} + {x <> y}.
Proof.
  destruct (route_eqb x y) eqn:E.
  - left. apply route_eqb_eq. exact E.
  - right. apply route_eqb_neq. exact E.
Qed.

Lemma list_remove_count (w : route) (t t' : list route) (x : route) :
  list_remove w t = Ok t' ->
  count_occ route_eq_dec t' x
  = (count_occ route_eq_dec t x - (if route_eq_dec w x then 1 else 0))%nat.
Proof.
  intros H. destruct (list_remove_ok _ _ _ H) as (l1 & l2 & -> & -> & _).
  rewrite !count_occ_app. simpl.
  destruct (route_eq_dec w x); lia.
Qed.

(** The removal loop never raises, and it takes away one occurrence per
    collected entry, as long as there is one. *)
Lemma remove_withdrawn_spec (wr t : list route) :
  exists t',
    remove_withdrawn wr t = Ok t' /\
    forall x, count_occ route_eq_dec t' x
              = (count_occ route_eq_dec t x - count_occ route_eq_dec wr x)%nat.
Proof.
  revert t; induction wr as [|w wr IH]; simpl; intros t.
  - exists t. split; [reflexivity|]. intros x. lia.
  - destruct (list_mem w t) eqn:M.
    + apply list_mem_In in M. destruct (list_remove_In _ _ M) as (t1 & E1).
      rewrite E1. simpl. destruct (IH t1) as (t' & E' & C').
      exists t'. split; [assumption|]. intros x.
      rewrite C', (list_remove_count _ _ _ x E1).
      destruct (route_eq_dec w x); lia.
    + destruct (IH t) as (t' & E' & C').
      exists t'. split; [assumption|]. intros x. rewrite C'.
      destruct (route_eq_dec w x) as [->|N]; [|lia].
      assert (Z0 : count_occ route_eq_dec t x = 0%nat).
      { apply count_occ_not_In. intros Hin.
        apply list_mem_In in Hin. congruence. }
      lia.
Qed.

Lemma count_occ_repeat_self (x : route) (n : nat) :
  count_occ route_eq_dec (repeat x n) x = n.
Proof.
  induction n as [|n IH]; simpl; [reflexivity|].
  destruct (route_eq_dec x x); [lia | contradiction].
Qed.

Lemma count_occ_flat_map_repeat (f : route -> nat) (l : list route) (x : route) :
  (count_occ route_eq_dec l x * f x
   <= count_occ route_eq_dec (flat_map (fun r => repeat r (f r)) l) x)%nat.
Proof.
  induction l as [|y l IH]; simpl; [lia|].
  rewrite count_occ_app.
  destruct (route_eq_dec y x) as [->|N].
  - rewrite count_occ_repeat_self. lia.
  - lia.
Qed.

Lemma hits_zero (srcif : string) (ds : list (string * string)) (r : route) :
  hits srcif ds r = 0%nat ->
  forall d, In d ds -> touched srcif d r = false.
Proof.
  unfold hits. intros H d Hd.
  destruct (touched srcif d r) eqn:E; [|reflexivity].
  assert (Hin : In d (filter (fun d => touched srcif d r) ds))
    by (apply filter_In; auto).
  destruct (filter _ ds); [contradiction | discriminate].
Qed.

Lemma forward_withdraw_routes (srcif : string) (ref : nat)
      (neighbors : list string) :
  forall st st' out,
    forward_withdraw st srcif ref neighbors = Ok (st', out) ->
    routes st' = routes st /\ relations st' = relations st /\ asn st' = asn st.
Proof.
  induction neighbors as [|n rest IH]; simpl; intros st st' out H.
  - inversion H; subst; auto.
  - monad_inv H. inversion H; subst; clear H.
    destruct (IH _ _ _ E1) as (Hr & Hl & Ha).
    rewrite Hr, Hl, Ha.
    destruct a.
    + monad_inv E0. inversion E0; subst. simpl. auto.
    + inversion E0; subst. auto.
Qed.

(** A withdraw that is handled leaves only records of the trees that were
    in the table, and none that a descriptor of the message touches. *)
Lemma handle_withdraw_msg_spec (st : router) (srcif : string) (m : message)
      (st' : router) (out : list datagram) :
  handle_withdraw_msg st srcif m = Ok (st', out) ->
  exists ds,
    msg m = Withdrawal ds /\
    (forall x, In x (routes st') ->
               exists y, In y (routes st) /\ In x (nodes y)) /\
    (forall x d, In x (routes st') -> In d ds -> touched srcif d x = false).
Proof.
  unfold handle_withdraw_msg. intros H.
  destruct (msg m) as [| |ds| | |]; try discriminate.
  exists ds. split; [reflexivity|].
  monad_inv H. simpl in E.
  destruct (withdraw_scan_spec srcif ds _ 0 _ _ _ _ (Nat.le_refl _) E)
    as (app & -> & Happ & Hwr).
  simpl in Hwr.
  destruct (remove_withdrawn_spec l0 (routes st ++ app)) as (t' & Et & Hc).
  rewrite Et in E0. inversion E0; subst a; clear E0.
  apply forward_withdraw_routes in H. destruct H as (Hr & _). simpl in Hr.
  rewrite Hr. split.
  - intros x Hx.
    assert (Hin : In x (routes st ++ app)).
    { apply (count_occ_In route_eq_dec).
      apply (count_occ_In route_eq_dec) in Hx. rewrite Hc in Hx. lia. }
    apply in_app_or in Hin. destruct Hin as [Hin|Hin]; [|auto].
    exists x. split; [assumption | apply nodes_self].
  - intros x d Hx Hd. apply hits_zero with (ds := ds); [|assumption].
    apply (count_occ_In route_eq_dec) in Hx. rewrite Hc in Hx.
    pose proof (count_occ_flat_map_repeat (hits srcif ds)
                                          (routes st ++ app) x) as Hf.
    rewrite <- Hwr in Hf.
    destruct (hits srcif ds x); [reflexivity|]. nia.
Qed.

(** ** Updates followed by their withdrawals *)

Lemma list_remove_subset (w : route) (t t' : list route) (x : route) :
  list_remove w t = Ok t' -> In x t' -> In x t.
Proof.
  intros H Hx. destruct (list_remove_ok _ _ _ H) as (l1 & l2 & -> & -> & _).
  apply in_app_or in Hx. apply in_or_app. simpl. tauto.
Qed.

Lemma list_remove_member (w : route) (t t' : list route) :
  list_remove w t = Ok t' -> In w t.
Proof.
  intros H. destruct (list_remove_ok _ _ _ H) as (l1 & l2 & -> & -> & _).
  apply in_or_app. simpl. tauto.
Qed.


Lemma leaves_in_mono (D D' : list (string * string * string))
      (table : list route) :
  (forall d, In d D -> In d D') -> leaves_in D table -> leaves_in D' table.
Proof. intros HD H r x Hr Hx Hl. apply HD. eapply H; eassumption. Qed.






(** ** The scan does not depend on its fuel *)

Lemma withdraw_scan_fuel (srcif : string) (ds : list (string * string)) :
  forall fuel fuel' i table wr,
    (withdraw_fuel (List.length ds) (skipn i table) <= fuel)%nat ->
    (withdraw_fuel (List.length ds) (skipn i table) <= fuel')%nat ->
    withdraw_scan fuel srcif ds i table wr
    = withdraw_scan fuel' srcif ds i table wr.
Proof.
  induction fuel as [|fuel IH]; intros fuel' i table wr Hf Hf'.
  - destruct fuel'; simpl; destruct (nth_error table i) as [r|] eqn:En;
      try reflexivity.
    exfalso. rewrite (nth_error_skipn _ _ _ En), withdraw_fuel_cons in Hf.
    pose proof (pow_pos (S (List.length ds)) (size r)).
    unfold weight in Hf. lia.
  - destruct fuel' as [|fuel'].
    + simpl; destruct (nth_error table i) as [r|] eqn:En; try reflexivity.
      exfalso. rewrite (nth_error_skipn _ _ _ En), withdraw_fuel_cons in Hf'.
      pose proof (pow_pos (S (List.length ds)) (size r)).
      unfold weight in Hf'. lia.
    + simpl. destruct (nth_error table i) as [r|] eqn:En; [|reflexivity].
      destruct (withdraw_each srcif ds r table wr) as [[t1 w1]|e] eqn:E;
        [|reflexivity].
      simpl.
      destruct (withdraw_each_weight _ _ _ _ _ _ _ E)
        as (_ & app1 & -> & _ & Hw1).
      assert (Hi : (S i <= List.length table)%nat).
      { apply Nat.le_succ_l. apply nth_error_Some. congruence. }
      rewrite (nth_error_skipn _ _ _ En), withdraw_fuel_cons in Hf, Hf'.
      apply IH; rewrite skipn_app_short by assumption;
        rewrite withdraw_fuel_app; lia.
Qed.

Lemma withdraw_scan_S (fuel : nat) (srcif : string)
      (ds : list (string * string)) (i : nat) (table wr : list route) :
  withdraw_scan (S fuel) srcif ds i table wr
  = match nth_error table i with
    | None => Ok (table, wr)
    | Some r =>
        '(table', wr') <- withdraw_each srcif ds r table wr ;;
        withdraw_scan fuel srcif ds (S i) table' wr'
    end.
Proof. reflexivity. Qed.

(** The equation of the scan as the source writes it: the loop ends at the
    end of the table, and every round goes on with the table and the list
    the round before left. *)
Lemma withdraw_scan_unfold (srcif : string) (ds : list (string * string))
      (i : nat) (table wr : list route) :
  withdraw_scan (withdraw_fuel (List.length ds) (skipn i table))
                srcif ds i table wr
  = match nth_error table i with
    | None => Ok (table, wr)
    | Some r =>
        '(table', wr') <- withdraw_each srcif ds r table wr ;;
        withdraw_scan (withdraw_fuel (List.length ds) (skipn (S i) table'))
                      srcif ds (S i) table' wr'
    end.
Proof.
  destruct (nth_error table i) as [r|] eqn:En.
  - rewrite (nth_error_skipn _ _ _ En), withdraw_fuel_cons.
    pose proof (pow_pos (S (List.length ds)) (size r)) as Hp.
    unfold weight at 1.
    destruct (S (List.length ds) ^ size r)%nat as [|w] eqn:Ew; [lia|].
    rewrite Nat.add_succ_l, withdraw_scan_S, En.
    destruct (withdraw_each srcif ds r table wr) as [[t1 w1]|e] eqn:E;
      [|reflexivity].
    unfold bind.
    destruct (withdraw_each_weight _ _ _ _ _ _ _ E)
      as (_ & app1 & -> & _ & Hw1).
    assert (Hi : (S i <= List.length table)%nat).
    { apply Nat.le_succ_l. apply nth_error_Some. congruence. }
    unfold weight in Hw1. rewrite Ew in Hw1.
    apply withdraw_scan_fuel; [|lia].
    rewrite skipn_app_short by assumption. rewrite withdraw_fuel_app. lia.
  - apply nth_error_None in En. rewrite skipn_all2 by assumption.
    simpl. apply nth_error_None in En. rewrite En. reflexivity.
Qed.

(** * Scenarios *)

Import Scenario.

Lemma router0_reachable : reachable router0.
Proof.
  eapply (reachable_init 1 [(customer, "cust"); (other_peer, "peer");
                            (provider, "prov")]).
  vm_compute. reflexivity.
Qed.

Lemma st_aa_reachable : reachable st_aa.
Proof.
  eapply (reachable_step st_a other_peer upd_a').
  - eapply (reachable_step router0 customer upd_a).
    + exact router0_reachable.
    + vm_compute. auto.
    + vm_compute. reflexivity.
  - vm_compute. auto.
  - vm_compute. reflexivity.
Qed.

(** ** Best-path selection, at work *)

Lemma best_route_is_cascade_survivor_witness :
  let table := candidates "10.0.0.25" (routes st_ap) in
  let best := leaf "10.0.0.0" mask24 provider 200 in
  valid_routes st_ap "10.0.0.25" = Ok [best] /\
  table <> [] /\
  exists r,
    [best] = [r] /\
    hd_error (tie_break (longest table)) = Some r /\
    (forall r', In r' (tie_break (longest table)) ->
                localpref r' = localpref r /\
                selfOrigin r' = selfOrigin r /\
                List.length (ASPath r') = List.length (ASPath r) /\
                origin r' = origin r /\
                peer r' = peer r) /\
    (NoDup (map peer (longest table)) -> tie_break (longest table) = [r]).
Proof.
  split; [vm_compute; reflexivity|].
  split; [vm_compute; discriminate|].
  apply (best_route_is_cascade_survivor st_ap "10.0.0.25").
  - vm_compute; reflexivity.
  - vm_compute; discriminate.
Defined.

Lemma st_again_reachable : reachable st_again.
Proof.
  eapply (reachable_step st_a customer upd_again).
  - eapply (reachable_step router0 customer upd_a).
    + exact router0_reachable.
    + vm_compute. auto.
    + vm_compute. reflexivity.
  - vm_compute. auto.
  - vm_compute. reflexivity.
Qed.

(** The cascade can leave more than one route.  The customer has
    announced [10.0.0.0/24] twice, with ASPath [[2]] and then [[3]]: the
    two records are both in the table, they tie on every criterion, peer
    included, and both survive.  [valid_routes] holds the first one in
    table order. *)
Lemma two_routes_survive_the_cascade :
  let first := Route "10.0.0.0" mask24 100 [2] IGP true customer None None in
  let second := Route "10.0.0.0" mask24 100 [3] IGP true customer None None in
  reachable st_again /\
  routes st_again = [first; second] /\
  candidates "10.0.0.25" (routes st_again) <> [] /\
  tie_break (longest (candidates "10.0.0.25" (routes st_again)))
  = [first; second] /\
  first <> second /\
  valid_routes st_again "10.0.0.25" = Ok [first].
Proof.
  intros first second.
  split; [exact st_again_reachable|].
  split; [reflexivity|].
  split; [vm_compute; discriminate|].
  split; [vm_compute; reflexivity|].
  split; [discriminate|].
  vm_compute; reflexivity.
Qed.

(** ** Coalescing, at work *)

Lemma update_leaves_no_mergeable_pair_witness :
  let A := leaf "10.0.0.0" mask24 customer 100 in
  let C := leaf "10.0.2.0" mask24 customer 100 in
  handle_update_msg st_a customer upd_c = Ok (st_ac, out_ac) /\
  0%nat <> 1%nat /\
  nth_error (routes st_ac) 0 = Some A /\
  nth_error (routes st_ac) 1 = Some C /\
  aggregate_routes A C = Ok None /\ ~ mergeable A C.
Proof.
  split; [vm_compute; reflexivity|].
  split; [discriminate|].
  split; [reflexivity|].
  split; [reflexivity|].
  apply (update_leaves_no_mergeable_pair st_a customer upd_c st_ac out_ac)
    with (i := 0%nat) (j := 1%nat).
  - vm_compute; reflexivity.
  - discriminate.
  - reflexivity.
  - reflexivity.
Defined.

(** C10.  Some reachable table and some update make the handler raise.
    The customer and the peer have announced [10.0.0.0/24] with the same
    attributes; the customer then announces the sibling [10.0.1.0/24].
    The first pass of [coalesce] collects two aggregations that share the
    new record as [route2]; after the first one is carried out the second
    removal of that record finds nothing, and the [ValueError] leaves the
    handler and the event loop. *)
Theorem one_update_can_abort_the_loop :
  exists st srcif m new_route a1 a2,
    reachable st /\
    In srcif (keys (relations st)) /\
    type m = "update" /\
    aggregate_pairs (routes st ++ [new_route]) = Ok [a1; a2] /\
    route1 a1 <> route1 a2 /\
    route2 a1 = new_route /\ route2 a2 = new_route /\
    replace_pairs [a1; a2] (routes st ++ [new_route]) = Raise ValueError /\
    handle_msg st srcif m = Raise ValueError /\
    run st [(srcif, m)] = Raise ValueError.
Proof.
  exists st_aa, customer, upd_b, (leaf "10.0.1.0" mask24 customer 100).
  eexists. eexists.
  split; [exact st_aa_reachable|].
  split; [vm_compute; auto|].
  split; [reflexivity|].
  split; [vm_compute; reflexivity|].
  split; [vm_compute; discriminate|].
  split; [reflexivity|].
  split; [reflexivity|].
  split; [vm_compute; reflexivity|].
  split; vm_compute; reflexivity.
Qed.

(** ** Aggregation, at work *)

Lemma netmask_with_length_length (n : nat) :
  (n <= 32)%nat ->
  get_netmask_length (netmask_with_length (Z.of_nat n)) = Ok (Z.of_nat n).
Proof.
  intros H.
  do 33 (destruct n as [|n]; [vm_compute; reflexivity|]).
  lia.
Qed.

(** C2, on the two halves of [10.0.8.0/21].  The records are mergeable and
    [aggregate_routes] combines them under the netmask of length 21, but
    it compares the dotted quads as strings: ["10.0.8.0" > "10.0.12.0"],
    so in either order of the arguments the aggregate takes the network
    [10.0.12.0], whose bit 21 is 1, and [child0] is the record of
    [10.0.12.0]. *)
Theorem aggregate_keeps_the_larger_network :
  let agg := Route "10.0.12.0" "255.255.248.0" 100 [2] IGP true customer
                   (Some half12) (Some half8) in
  mergeable half8 half12 /\
  get_netmask_length (netmask half8) = Ok 22 /\
  aggregate_routes half8 half12 = Ok (Some agg) /\
  aggregate_routes half12 half8 = Ok (Some agg) /\
  get_netmask_length (netmask agg) = Ok 21 /\
  (bits <- ip_to_binary_string (network agg) ;; Py.index bits 21) = Ok "1"%char /\
  (bits <- ip_to_binary_string (network half8) ;; Py.index bits 21) = Ok "0"%char /\
  child0 agg = Some half12 /\ child1 agg = Some half8.
Proof.
  split.
  - exists 22, "00001010000000000000100000000000",
      "00001010000000000000110000000000".
    repeat split; try reflexivity; try (vm_compute; congruence).
  - repeat split; vm_compute; reflexivity.
Qed.

(** ** Withdrawal, at work *)


(** ** The update log *)

Lemma log_set_last (pre : list message) (cur x : message) :
  log_set (pre ++ [cur]) (List.length pre) x = pre ++ [x].
Proof. induction pre as [|y pre IH]; simpl; [|rewrite IH]; reflexivity. Qed.

Lemma nth_error_last (pre : list message) (cur : message) :
  nth_error (pre ++ [cur]) (List.length pre) = Some cur.
Proof. induction pre as [|y pre IH]; simpl; [reflexivity | exact IH]. Qed.

Lemma last_default (l : list message) (y d d' : message) :
  last (y :: l) d = last (y :: l) d'.
Proof.
  revert y; induction l as [|z l IH]; intros y; [reflexivity|].
  change (last (z :: l) d = last (z :: l) d'). apply IH.
Qed.

(** The propagation loop of a withdraw rewrites the logged record, and
    only that one: after the loop it is the last record sent. *)
Lemma forward_withdraw_log (srcif : string) (pre : list message)
      (neighbors : list string) :
  forall st cur st' out,
    updates st = pre ++ [cur] ->
    forward_withdraw st srcif (List.length pre) neighbors = Ok (st', out) ->
    exists cur',
      updates st' = pre ++ [cur'] /\
      type cur' = type cur /\ msg cur' = msg cur /\
      cur' = last (map snd out) cur.
Proof.
  induction neighbors as [|n rest IH]; simpl; intros st cur st' out Hu H.
  - inversion H; subst. exists cur. auto.
  - monad_inv H. inversion H; subst; clear H.
    destruct a.
    + monad_inv E0. inversion E0; subst; clear E0.
      unfold Py.nth in E3. rewrite Hu, nth_error_last in E3.
      inversion E3; subst a0; clear E3.
      unfold send in E4. monad_inv E4. inversion E4; subst; clear E4.
      assert (Hu' : updates (set_updates st
                               (log_set (updates st) (List.length pre)
                                        (Message (type cur) a n (msg cur))))
                    = pre ++ [Message (type cur) a n (msg cur)])
        by (simpl; rewrite Hu; apply log_set_last).
      destruct (IH _ _ _ _ Hu' E1) as (cur' & H1 & H2 & H3 & H4).
      exists cur'. split; [assumption|]. split; [assumption|].
      split; [assumption|].
      rewrite H4. simpl.
      destruct (map snd l0); [reflexivity | apply last_default].
    + inversion E0; subst; clear E0.
      destruct (IH _ _ _ _ Hu E1) as (cur' & H1 & H2 & H3 & H4).
      exists cur'. auto.
Qed.

(** What the log holds after a withdraw: the earlier records as they
    were, and one more record with the type and payload of the message,
    whose [src] and [dst] are those of the last copy forwarded. *)
Lemma handle_withdraw_msg_log (st : router) (srcif : string) (m : message)
      (st' : router) (out : list datagram) :
  handle_withdraw_msg st srcif m = Ok (st', out) ->
  exists logged,
    updates st' = updates st ++ [logged] /\
    type logged = type m /\ msg logged = msg m /\
    logged = last (map snd out) m.
Proof.
  unfold handle_withdraw_msg. intros H.
  destruct (msg m) as [| |ds| | |] eqn:Em; try discriminate.
  monad_inv H.
  destruct (forward_withdraw_log
              srcif (updates st) _
              (set_routes (set_updates st (updates st ++ [m])) a)
              m _ _ eq_refl H)
    as (logged & H1 & H2 & H3 & H4).
  exists logged. rewrite Em in H3. auto.
Qed.

(** C7, on a withdraw from the customer.  The record is appended to the
    log, and then the propagation loop assigns its [src] and [dst] for
    every neighbour it forwards to: when the handler returns, the logged
    record carries the address pair of the last link, not the one it
    arrived with. *)
Theorem withdraw_log_entry_is_rewritten :
  exists st' out logged,
    handle_withdraw_msg st_a customer wd = Ok (st', out) /\
    updates st' = updates st_a ++ [logged] /\
    src wd = "192.168.0.2" /\ dst wd = "192.168.0.1" /\
    src logged = "10.0.0.1" /\ dst logged = "10.0.0.2" /\
    logged <> wd.
Proof.
  eexists. eexists. eexists.
  split; [vm_compute; reflexivity|].
  split; [vm_compute; reflexivity|].
  repeat split. vm_compute. discriminate.
Qed.

(** ** Propagation, at work *)

Lemma update_is_forwarded_by_relationship_witness :
  msg upd_a' = Announcement "10.0.0.0" mask24 100 [2] IGP true /\
  handle_update_msg router0 other_peer upd_a' = Ok (st_a', out_a') /\
  recipients router0 other_peer = [customer] /\
  Forall2 (fun N d =>
             exists a, our_addr N = Ok a /\
                       d = (N, Message "update" a N
                                       (Forwarded mask24 (asn router0 :: [2])
                                                  "10.0.0.0")))
          (recipients router0 other_peer) out_a'.
Proof.
  split; [reflexivity|].
  split; [vm_compute; reflexivity|].
  split; [vm_compute; reflexivity|].
  apply (update_is_forwarded_by_relationship
           router0 other_peer upd_a' st_a' out_a'
           "10.0.0.0" mask24 100 [2] IGP true).
  - reflexivity.
  - vm_compute; reflexivity.
Defined.

(** ** Data packets, at work *)

Lemma data_policy_and_no_route_witness :
  let reply := Message "no route" "172.168.0.1" "172.168.0.25" Empty in
  handle_data_msg st_p other_peer packet = Ok (st_p, [(other_peer, reply)]) /\
  exists valid found,
    valid_routes st_p (dst packet) = Ok valid /\
    find_routes st_p other_peer (dst packet) = Ok found /\
    st_p = st_p /\
    (is_cust (relationship st_p other_peer) = false ->
     found = hd_error
               (filter (fun r => is_cust (relationship st_p (peer r))) valid)) /\
    (is_cust (relationship st_p other_peer) = true -> found = hd_error valid) /\
    (valid = [] -> found = None) /\
    match found with
    | None =>
        exists a, our_addr other_peer = Ok a /\
                  [(other_peer, reply)]
                  = [(other_peer, Message "no route" a (src packet) Empty)]
    | Some r => [(other_peer, reply)] = [(peer r, packet)]
    end.
Proof.
  split; [vm_compute; reflexivity|].
  apply (data_policy_and_no_route st_p other_peer packet st_p).
  vm_compute; reflexivity.
Defined.

(** ** Netmasks, at work *)

Lemma update_is_stored_whatever_the_netmask_witness :
  handle_update_msg router0 customer upd_gap = Ok (st_gap, out_gap) /\
  table_leaves (routes st_gap) = S (table_leaves (routes router0)) /\
  updates st_gap = updates router0 ++ [upd_gap] /\
  forall nw nm lp ap og so bits,
    msg upd_gap = Announcement nw nm lp ap og so ->
    ip_to_binary_string nm = Ok bits ->
    get_netmask_length nm = Ok (Py.count "1" bits).
Proof.
  split; [vm_compute; reflexivity|].
  apply (update_is_stored_whatever_the_netmask
           router0 customer upd_gap st_gap out_gap).
  vm_compute; reflexivity.
Defined.

(** The netmask [255.0.255.0] is not a run of ones followed by zeros.  Its
    length is computed all the same, as 16, and the update that carries it
    is not dropped: the table, empty before, holds its route after. *)
Lemma noncontiguous_update_is_not_dropped :
  (bits <- ip_to_binary_string "255.0.255.0" ;; Ok (contiguous bits)) = Ok false /\
  get_netmask_length "255.0.255.0" = Ok 16 /\
  handle_update_msg router0 customer upd_gap = Ok (st_gap, out_gap) /\
  routes router0 = [] /\
  routes st_gap = [leaf "10.0.0.0" "255.0.255.0" customer 100] /\
  routes st_gap <> routes router0.
Proof.
  repeat split; try (vm_compute; reflexivity).
  vm_compute; discriminate.
Qed.

(** ** Table dumps, at work *)



(** * Further properties of the code *)

(** ** Octets and segments *)

Lemma octet_check_all : forallb octet_check (map Z.of_nat (seq 0 256)) = true.
Proof. vm_compute. reflexivity. Qed.

Lemma octet_checked (z : Z) : octet z -> octet_check z = true.
Proof.
  intros [H0 H255].
  pose proof octet_check_all as H. rewrite forallb_forall in H.
  apply H. replace z with (Z.of_nat (Z.to_nat z)) by lia.
  apply in_map. apply in_seq. lia.
Qed.

Lemma octet_int (z : Z) : octet z -> Py.int (Py.str z) = Ok z.
Proof.
  intros H. apply octet_checked in H. unfold octet_check in H.
  rewrite !andb_true_iff in H. destruct H as [[[H _] _] _].
  destruct (Py.int (Py.str z)) as [z'|e]; [|discriminate].
  apply Z.eqb_eq in H. congruence.
Qed.

Lemma octet_no_dot (z : Z) : octet z -> no_dot (Py.str z) = true.
Proof.
  intros H. apply octet_checked in H. unfold octet_check in H.
  rewrite !andb_true_iff in H. tauto.
Qed.

Lemma octet_bits_length (z : Z) :
  octet z -> String.length (Py.format_08b z) = 8%nat.
Proof.
  intros H. apply octet_checked in H. unfold octet_check in H.
  rewrite !andb_true_iff in H. destruct H as [[_ H] _].
  apply Nat.eqb_eq. assumption.
Qed.

Lemma octet_bits_binary (z : Z) : octet z -> binary (Py.format_08b z) = true.
Proof.
  intros H. apply octet_checked in H. unfold octet_check in H.
  rewrite !andb_true_iff in H. tauto.
Qed.

Lemma split_segment (s t : string) :
  no_dot s = true ->
  Py.split "." (s ++ String "." t) = s :: Py.split "." t.
Proof.
  induction s as [|c s IH]; simpl; intros H; [reflexivity|].
  apply andb_true_iff in H. destruct H as [Hc Hs].
  apply negb_true_iff in Hc. rewrite Hc, (IH Hs). reflexivity.
Qed.

Lemma split_nonempty (s : string) : Py.split "." s <> [].
Proof.
  destruct s as [|c s]; simpl; [discriminate|].
  destruct (Ascii.eqb c "."); [discriminate|].
  destruct (Py.split "." s); discriminate.
Qed.

Lemma split_last (s : string) :
  no_dot s = true -> Py.split "." s = [s].
Proof.
  induction s as [|c s IH]; simpl; intros H; [reflexivity|].
  apply andb_true_iff in H. destruct H as [Hc Hs].
  apply negb_true_iff in Hc. rewrite Hc, (IH Hs). reflexivity.
Qed.

Lemma split_quad (s0 s1 s2 s3 : string) :
  no_dot s0 = true -> no_dot s1 = true ->
  no_dot s2 = true -> no_dot s3 = true ->
  Py.split "." (s0 ++ "." ++ s1 ++ "." ++ s2 ++ "." ++ s3)%string
  = [s0; s1; s2; s3].
Proof.
  intros H0 H1 H2 H3.
  change ("." ++ s1 ++ "." ++ s2 ++ "." ++ s3)%string
    with (String "." (s1 ++ String "." (s2 ++ String "." s3))).
  rewrite !split_segment by assumption.
  rewrite split_last by assumption. reflexivity.
Qed.

Lemma string_length_app (s t : string) :
  String.length (s ++ t) = (String.length s + String.length t)%nat.
Proof. induction s as [|c s IH]; simpl; [|rewrite IH]; reflexivity. Qed.

Lemma binary_app (s t : string) :
  binary (s ++ t) = binary s && binary t.
Proof.
  induction s as [|c s IH]; simpl; [reflexivity|].
  rewrite IH, andb_assoc. reflexivity.
Qed.

(** ** Addresses in binary (lines 58-66, 84-86) *)

Lemma string_app_nil_r (s : string) : (s ++ "")%string = s.
Proof. induction s as [|c s IH]; simpl; [|rewrite IH]; reflexivity. Qed.

Lemma ip_to_binary_string_segments (s0 s1 s2 s3 : string) (q0 q1 q2 q3 : Z) :
  no_dot s0 = true -> no_dot s1 = true ->
  no_dot s2 = true -> no_dot s3 = true ->
  Py.int s0 = Ok q0 -> Py.int s1 = Ok q1 ->
  Py.int s2 = Ok q2 -> Py.int s3 = Ok q3 ->
  ip_to_binary_string (s0 ++ "." ++ s1 ++ "." ++ s2 ++ "." ++ s3)%string
  = Ok (Py.format_08b q0 ++ Py.format_08b q1 ++ Py.format_08b q2
        ++ Py.format_08b q3)%string.
Proof.
  intros N0 N1 N2 N3 E0 E1 E2 E3. unfold ip_to_binary_string.
  rewrite split_quad by assumption.
  cbn [concat_map_result]. rewrite E0, E1, E2, E3. cbn [bind].
  rewrite string_app_nil_r. reflexivity.
Qed.

Lemma dotted_quad_bits (a b c d : Z) :
  octet a -> octet b -> octet c -> octet d ->
  ip_to_binary_string (dotted a b c d)
  = Ok (Py.format_08b a ++ Py.format_08b b ++ Py.format_08b c
        ++ Py.format_08b d)%string.
Proof.
  intros Ha Hb Hc Hd. unfold dotted.
  apply ip_to_binary_string_segments; auto using octet_no_dot, octet_int.
Qed.

Lemma quad_bits_length (a b c d : Z) :
  octet a -> octet b -> octet c -> octet d ->
  String.length (Py.format_08b a ++ Py.format_08b b ++ Py.format_08b c
                 ++ Py.format_08b d) = 32%nat.
Proof.
  intros Ha Hb Hc Hd.
  rewrite !string_length_app, !octet_bits_length by assumption. reflexivity.
Qed.

(** X1.  The binary form of a dotted quad of four octets is the four
    octets on eight bits each: 32 characters, all ['0'] or ['1']. *)
Theorem binary_form_of_a_dotted_quad (a b c d : Z) :
  octet a -> octet b -> octet c -> octet d ->
  exists bits,
    ip_to_binary_string (dotted a b c d) = Ok bits /\
    bits = (Py.format_08b a ++ Py.format_08b b ++ Py.format_08b c
            ++ Py.format_08b d)%string /\
    String.length bits = 32%nat /\
    binary bits = true.
Proof.
  intros Ha Hb Hc Hd. eexists.
  split; [apply dotted_quad_bits; assumption|]. split; [reflexivity|].
  split; [apply quad_bits_length; assumption|].
  rewrite !binary_app, !octet_bits_binary by assumption. reflexivity.
Qed.

Lemma binary_form_of_a_dotted_quad_witness :
  octet 192 /\ octet 168 /\ octet 0 /\ octet 2 /\
  exists bits,
    ip_to_binary_string (dotted 192 168 0 2) = Ok bits /\
    bits = (Py.format_08b 192 ++ Py.format_08b 168 ++ Py.format_08b 0
            ++ Py.format_08b 2)%string /\
    String.length bits = 32%nat /\
    binary bits = true.
Proof.
  assert (H192 : octet 192) by (unfold octet; lia).
  assert (H168 : octet 168) by (unfold octet; lia).
  assert (H0 : octet 0) by (unfold octet; lia).
  assert (H2 : octet 2) by (unfold octet; lia).
  repeat (split; [assumption|]).
  exact (binary_form_of_a_dotted_quad 192 168 0 2 H192 H168 H0 H2).
Defined.

Lemma count_le_length (c : ascii) (s : string) :
  Py.count c s <= Z.of_nat (String.length s).
Proof.
  induction s as [|d s IH]; simpl String.length; simpl Py.count; [lia|].
  destruct (Ascii.eqb d c); lia.
Qed.

(** X2.  The prefix length of a dotted quad of four octets is computed
    without failure and lies between 0 and 32. *)
Theorem prefix_length_of_a_dotted_quad (a b c d : Z) :
  octet a -> octet b -> octet c -> octet d ->
  exists L, get_netmask_length (dotted a b c d) = Ok L /\ 0 <= L <= 32.
Proof.
  intros Ha Hb Hc Hd.
  pose proof (dotted_quad_bits a b c d Ha Hb Hc Hd) as E.
  pose proof (quad_bits_length a b c d Ha Hb Hc Hd) as Hlen.
  set (bits := (Py.format_08b a ++ Py.format_08b b ++ Py.format_08b c
                ++ Py.format_08b d)%string) in *.
  unfold get_netmask_length. rewrite E. cbn [bind].
  eexists. split; [reflexivity|].
  pose proof (count_nonneg "1" bits). pose proof (count_le_length "1" bits).
  lia.
Qed.

Lemma prefix_length_of_a_dotted_quad_witness :
  octet 255 /\ octet 255 /\ octet 254 /\ octet 0 /\
  exists L, get_netmask_length (dotted 255 255 254 0) = Ok L /\ 0 <= L <= 32.
Proof.
  assert (H255 : octet 255) by (unfold octet; lia).
  assert (H254 : octet 254) by (unfold octet; lia).
  assert (H0 : octet 0) by (unfold octet; lia).
  repeat (split; [assumption|]).
  exact (prefix_length_of_a_dotted_quad 255 255 254 0 H255 H255 H254 H0).
Defined.

(** ** Netmasks of a given length (lines 68-82) *)

(** X3.  For every length from 0 to 32, [netmask_with_length] gives a
    netmask that [get_netmask_length] reads back as that length, and whose
    binary form is a run of ones followed by zeros. *)
Theorem netmask_round_trip (n : Z) :
  0 <= n <= 32 ->
  get_netmask_length (netmask_with_length n) = Ok n /\
  (bits <- ip_to_binary_string (netmask_with_length n) ;;
   Ok (contiguous bits)) = Ok true.
Proof.
  intros H. replace n with (Z.of_nat (Z.to_nat n)) by lia.
  assert (Hn : (Z.to_nat n <= 32)%nat) by lia.
  generalize dependent (Z.to_nat n). clear H. intros k Hk.
  do 33 (destruct k as [|k]; [split; vm_compute; reflexivity|]).
  lia.
Qed.

Lemma netmask_round_trip_witness :
  0 <= 23 <= 32 /\
  get_netmask_length (netmask_with_length 23) = Ok 23 /\
  (bits <- ip_to_binary_string (netmask_with_length 23) ;;
   Ok (contiguous bits)) = Ok true.
Proof.
  assert (H : 0 <= 23 <= 32) by lia.
  split; [exact H|]. exact (netmask_round_trip 23 H).
Defined.

Lemma string_app_assoc (s t u : string) :
  ((s ++ t) ++ u)%string = (s ++ t ++ u)%string.
Proof. induction s as [|c s IH]; simpl; [|rewrite IH]; reflexivity. Qed.

Lemma netmask_loop_short (k : nat) (n : Z) (ip : string) :
  n < 8 ->
  netmask_loop (S k) n ip
  = netmask_loop k 0 (ip ++ "." ++ Py.str (2 ^ 8 - 2 ^ (8 - n)))%string.
Proof.
  intros H. cbn [netmask_loop].
  destruct (Z.ltb_spec n 8); [reflexivity | lia].
Qed.

Lemma netmask_loop_full (k : nat) (n : Z) (ip : string) :
  8 <= n ->
  netmask_loop (S k) n ip = netmask_loop k (n - 8) (ip ++ ".255")%string.
Proof.
  intros H. cbn [netmask_loop].
  destruct (Z.ltb_spec n 8); [lia | reflexivity].
Qed.

Lemma netmask_loop_zero (k : nat) (ip : string) :
  netmask_loop (S k) 0 ip = netmask_loop k 0 (ip ++ ".0")%string.
Proof. reflexivity. Qed.

(** X4.  Outside of 0..32 [netmask_with_length] does not fail: from 32 on
    it gives [255.255.255.255], and below 0 a quad whose first number is
    negative, [2**8 - 2**(8 - n)], followed by three zeros. *)
Theorem netmask_out_of_range (n : Z) :
  (32 <= n -> netmask_with_length n = "255.255.255.255") /\
  (n < 0 ->
   netmask_with_length n = (Py.str (2 ^ 8 - 2 ^ (8 - n)) ++ ".0.0.0")%string /\
   2 ^ 8 - 2 ^ (8 - n) < 0).
Proof.
  split; intros H; unfold netmask_with_length.
  - rewrite !netmask_loop_full by lia. reflexivity.
  - rewrite netmask_loop_short by lia. rewrite !netmask_loop_zero.
    cbn [netmask_loop]. split.
    + generalize (Py.str (2 ^ 8 - 2 ^ (8 - n))). intros s.
      rewrite !string_app_assoc. reflexivity.
    + assert (P : 2 ^ 9 <= 2 ^ (8 - n))
        by (apply Z.pow_le_mono_r; lia).
      change (2 ^ 9) with 512 in P. change (2 ^ 8) with 256. lia.
Qed.

Lemma netmask_out_of_range_witness :
  32 <= 40 /\ netmask_with_length 40 = "255.255.255.255" /\
  -1 < 0 /\ netmask_with_length (-1) = "-256.0.0.0".
Proof.
  assert (H40 : 32 <= 40) by lia.
  assert (H1 : -1 < 0) by lia.
  split; [exact H40|].
  split; [exact (proj1 (netmask_out_of_range 40) H40)|].
  split; [exact H1|].
  exact (proj1 (proj2 (netmask_out_of_range (-1)) H1)).
Defined.

(** ** The router's own address (lines 44-50) *)

Lemma our_addr_loop (dst : string) :
  our_addr dst = our_addr_quads (Py.split "." dst) [].
Proof. reflexivity. Qed.

Lemma our_addr_quads_parse (segs : list string) :
  forall acc,
    our_addr_quads segs acc
    = (qs <- parse_all segs ;;
       match acc ++ qs with
       | q0 :: q1 :: q2 :: _ :: _ => Ok (dotted q0 q1 q2 1)
       | _ => Raise IndexError
       end).
Proof.
  induction segs as [|s segs IH]; intros acc.
  - cbn [our_addr_quads parse_all bind]. rewrite app_nil_r. reflexivity.
  - cbn [our_addr_quads parse_all].
    destruct (Py.int s) as [z|e]; cbn [bind]; [|reflexivity].
    rewrite IH.
    destruct (parse_all segs) as [zs|e]; cbn [bind]; [|reflexivity].
    rewrite <- app_assoc. reflexivity.
Qed.

(** X5.  When every dot-separated segment of [dst] is a numeral,
    [our_addr] raises [IndexError] if there are fewer than four of them;
    otherwise it returns the first three numbers, printed in decimal, with
    [1] as the fourth, whatever the fourth and any further segment were. *)
Theorem our_addr_by_segments (dst : string) (qs : list Z) :
  parse_all (Py.split "." dst) = Ok qs ->
  our_addr dst = match qs with
                 | q0 :: q1 :: q2 :: _ :: _ => Ok (dotted q0 q1 q2 1)
                 | _ => Raise IndexError
                 end.
Proof.
  intros H. rewrite our_addr_loop, our_addr_quads_parse, H. reflexivity.
Qed.

Lemma our_addr_by_segments_witness :
  parse_all (Py.split "." "10.0.2") = Ok [10; 0; 2] /\
  our_addr "10.0.2" = Raise IndexError /\
  parse_all (Py.split "." "010.0.2.77.5") = Ok [10; 0; 2; 77; 5] /\
  our_addr "010.0.2.77.5" = Ok (dotted 10 0 2 1).
Proof.
  assert (H1 : parse_all (Py.split "." "10.0.2") = Ok [10; 0; 2])
    by reflexivity.
  assert (H2 : parse_all (Py.split "." "010.0.2.77.5") = Ok [10; 0; 2; 77; 5])
    by reflexivity.
  split; [exact H1|].
  split; [exact (our_addr_by_segments "10.0.2" [10; 0; 2] H1)|].
  split; [exact H2|].
  exact (our_addr_by_segments "010.0.2.77.5" [10; 0; 2; 77; 5] H2).
Defined.

Lemma parse_all_quad (a b c d : Z) :
  octet a -> octet b -> octet c -> octet d ->
  parse_all (Py.split "." (dotted a b c d)) = Ok [a; b; c; d].
Proof.
  intros Ha Hb Hc Hd. unfold dotted.
  rewrite split_quad by auto using octet_no_dot.
  cbn [parse_all]. rewrite !octet_int by assumption. reflexivity.
Qed.

(** X6.  On a dotted quad of four octets [our_addr] returns the quad with
    its last octet replaced by 1, and it leaves its own result as it is. *)
Theorem our_addr_replaces_the_last_octet (a b c d : Z) :
  octet a -> octet b -> octet c -> octet d ->
  our_addr (dotted a b c d) = Ok (dotted a b c 1) /\
  our_addr (dotted a b c 1) = Ok (dotted a b c 1).
Proof.
  intros Ha Hb Hc Hd.
  assert (H1 : octet 1) by (unfold octet; lia).
  split.
  - rewrite our_addr_loop, our_addr_quads_parse, parse_all_quad by assumption.
    reflexivity.
  - rewrite our_addr_loop, our_addr_quads_parse, parse_all_quad by assumption.
    reflexivity.
Qed.

Lemma our_addr_replaces_the_last_octet_witness :
  octet 192 /\ octet 168 /\ octet 0 /\ octet 2 /\
  our_addr (dotted 192 168 0 2) = Ok (dotted 192 168 0 1) /\
  our_addr (dotted 192 168 0 1) = Ok (dotted 192 168 0 1).
Proof.
  assert (H192 : octet 192) by (unfold octet; lia).
  assert (H168 : octet 168) by (unfold octet; lia).
  assert (H0 : octet 0) by (unfold octet; lia).
  assert (H2 : octet 2) by (unfold octet; lia).
  repeat (split; [assumption|]).
  exact (our_addr_replaces_the_last_octet 192 168 0 2 H192 H168 H0 H2).
Defined.

(** ** What an aggregate is made of (lines 88-113) *)

Lemma aggregate_routes_bits (R1 R2 agg : route) :
  aggregate_routes R1 R2 = Ok (Some agg) ->
  exists L b1 b2 c1 c2,
    get_netmask_length (netmask R1) = Ok L /\
    ip_to_binary_string (network R1) = Ok b1 /\
    ip_to_binary_string (network R2) = Ok b2 /\
    Py.slice0 (L - 1) b1 = Py.slice0 (L - 1) b2 /\
    Py.index b1 (L - 1) = Ok c1 /\
    Py.index b2 (L - 1) = Ok c2 /\
    c1 <> c2.
Proof.
  unfold aggregate_routes.
  destruct (negb (netmask R1 =? netmask R2)%string
            || negb (localpref R1 =? localpref R2)
            || negb (Bool.eqb (selfOrigin R1) (selfOrigin R2))
            || negb (aspath_eqb (ASPath R1) (ASPath R2))
            || negb (origin_eqb (origin R1) (origin R2)));
    [discriminate|].
  intros H. monad_inv H.
  destruct (Py.slice0 (a - 1) a0 =? Py.slice0 (a - 1) a1)%string eqn:Es;
    cbn [negb] in H; [|discriminate].
  monad_inv H.
  destruct (Ascii.eqb a2 a3) eqn:Ec; [discriminate|].
  exists a, a0, a1, a2, a3.
  apply String.eqb_eq in Es. apply Ascii.eqb_neq in Ec. auto 10.
Qed.

(** X7.  When [aggregate_routes] combines two routes, the result carries
    the attributes they share and the peer of the first; its children are
    the two routes, the one whose network is smaller in string order as
    [child0], and its network is that of [child0].  Its netmask is
    [netmask_with_length (L - 1)] for the common prefix length [L], which
    is a netmask of length [L - 1] when [L] is between 1 and 32. *)
Theorem aggregate_shape (R1 R2 agg : route) :
  aggregate_routes R1 R2 = Ok (Some agg) ->
  exists L lo hi,
    get_netmask_length (netmask R1) = Ok L /\
    netmask R2 = netmask R1 /\
    ((lo = R1 /\ hi = R2) \/ (lo = R2 /\ hi = R1)) /\
    child0 agg = Some lo /\ child1 agg = Some hi /\
    network agg = network lo /\
    String.leb (network lo) (network hi) = true /\
    netmask agg = netmask_with_length (L - 1) /\
    (1 <= L <= 32 -> get_netmask_length (netmask agg) = Ok (L - 1)) /\
    localpref agg = localpref R1 /\ localpref agg = localpref R2 /\
    selfOrigin agg = selfOrigin R1 /\ selfOrigin agg = selfOrigin R2 /\
    ASPath agg = ASPath R1 /\ ASPath agg = ASPath R2 /\
    origin agg = origin R1 /\ origin agg = origin R2 /\
    peer agg = peer R1.
Proof.
  intros H.
  assert (A : netmask R1 = netmask R2 /\ localpref R1 = localpref R2 /\
              selfOrigin R1 = selfOrigin R2 /\ ASPath R1 = ASPath R2 /\
              origin R1 = origin R2).
  { apply same_attributes. unfold aggregate_routes in H.
    destruct (negb (netmask R1 =? netmask R2)%string
              || negb (localpref R1 =? localpref R2)
              || negb (Bool.eqb (selfOrigin R1) (selfOrigin R2))
              || negb (aspath_eqb (ASPath R1) (ASPath R2))
              || negb (origin_eqb (origin R1) (origin R2)));
      [discriminate | reflexivity]. }
  destruct A as (Am & Al & As & Aa & Ao).
  destruct (aggregate_routes_some _ _ _ H) as (L & HL & _ & ->).
  exists L.
  assert (N : 1 <= L <= 32 ->
              get_netmask_length (netmask_with_length (L - 1)) = Ok (L - 1)).
  { intros HLr.
    replace (L - 1) with (Z.of_nat (Z.to_nat (L - 1))) by lia.
    apply netmask_with_length_length. lia. }
  unfold Py.str_gt. rewrite string_ltb_leb.
  destruct (String.leb (network R1) (network R2)) eqn:E; cbn [negb].
  - exists R1, R2. cbn. rewrite <- Al, <- As, <- Aa, <- Ao. auto 20.
  - exists R2, R1. cbn. rewrite <- Al, <- As, <- Aa, <- Ao.
    assert (E' : String.leb (network R2) (network R1) = true).
    { destruct (String.leb_total (network R1) (network R2)); congruence. }
    auto 20.
Qed.

(** ** Aggregation and matching (lines 88-113 and 209-212) *)

Lemma binary_get (s : string) (n : nat) (c : ascii) :
  binary s = true -> String.get n s = Some c -> c = "0"%char \/ c = "1"%char.
Proof.
  revert n. induction s as [|a s IH]; simpl; intros n Hb Hg; [discriminate|].
  apply andb_true_iff in Hb. destruct Hb as [Ha Hs].
  destruct n as [|n].
  - inversion Hg; subst. apply orb_true_iff in Ha.
    destruct Ha as [Ha|Ha]; apply Ascii.eqb_eq in Ha; auto.
  - eauto.
Qed.

Lemma get_in_range (s : string) (n : nat) :
  (n < String.length s)%nat -> exists c, String.get n s = Some c.
Proof.
  revert n. induction s as [|a s IH]; simpl; intros n H; [lia|].
  destruct n as [|n]; [eauto|]. apply IH. lia.
Qed.

Lemma prefix_step (n : nat) (s t : string) (c c' : ascii) :
  String.get n s = Some c -> String.get n t = Some c' ->
  (substring 0 (S n) s =? substring 0 (S n) t)%string
  = (substring 0 n s =? substring 0 n t)%string && Ascii.eqb c c'.
Proof.
  revert s t. induction n as [|n IH]; intros s t Hs Ht;
    destruct s as [|a s]; destruct t as [|b t]; try discriminate.
  - simpl in Hs, Ht. inversion Hs; inversion Ht; subst.
    cbn. destruct s, t, (Ascii.eqb c c'); reflexivity.
  - simpl in Hs, Ht.
    change (substring 0 (S (S n)) (String a s))
      with (String a (substring 0 (S n) s)).
    change (substring 0 (S (S n)) (String b t))
      with (String b (substring 0 (S n) t)).
    change (substring 0 (S n) (String a s))
      with (String a (substring 0 n s)).
    change (substring 0 (S n) (String b t))
      with (String b (substring 0 n t)).
    cbn [String.eqb]. destruct (Ascii.eqb a b); [|reflexivity].
    apply IH; assumption.
Qed.

Lemma index_get (s : string) (k : Z) (c : ascii) :
  0 <= k -> Py.index s k = Ok c -> String.get (Z.to_nat k) s = Some c.
Proof.
  intros Hk. unfold Py.index.
  destruct (k <? 0) eqn:E; [apply Z.ltb_lt in E; lia|]. rewrite E.
  destruct (String.get (Z.to_nat k) s); [congruence|discriminate].
Qed.

Lemma slice0_prefix (k : Z) (s : string) :
  0 <= k -> Py.slice0 k s = substring 0 (Z.to_nat k) s.
Proof.
  intros Hk. unfold Py.slice0.
  destruct (k <? 0) eqn:E; [apply Z.ltb_lt in E; lia|reflexivity].
Qed.

(** X8.  An aggregate matches exactly the destinations that one of its two
    routes matches.  Let [aggregate_routes] combine two routes of prefix
    length [L] between 1 and 32, and let the binary forms of the two
    networks and of the destination hold only ['0'] and ['1'] (no segment
    is printed with a sign), the destination on at least [L] characters.
    Then the destination agrees with the aggregate on its [L - 1] bits if
    and only if it agrees with one of the two routes on [L] bits. *)
Theorem aggregate_matches_what_its_routes_match
  (R1 R2 agg : route) (L : Z) (dest bits bits1 bits2 : string) :
  aggregate_routes R1 R2 = Ok (Some agg) ->
  get_netmask_length (netmask R1) = Ok L ->
  1 <= L <= 32 ->
  ip_to_binary_string (network R1) = Ok bits1 ->
  ip_to_binary_string (network R2) = Ok bits2 ->
  ip_to_binary_string dest = Ok bits ->
  binary bits1 = true -> binary bits2 = true -> binary bits = true ->
  (Z.to_nat L <= String.length bits)%nat ->
  matches dest agg = matches dest R1 || matches dest R2.
Proof.
  intros Hagg HL Hr Hn1 Hn2 Hd B1 B2 Bd Hlen.
  destruct (aggregate_routes_bits _ _ _ Hagg)
    as (L' & b1 & b2 & c1 & c2 & HL' & Hb1 & Hb2 & Hs & Hc1 & Hc2 & Hne).
  assert (L' = L) by congruence. subst L'.
  assert (b1 = bits1) by congruence. subst b1.
  assert (b2 = bits2) by congruence. subst b2.
  destruct (aggregate_routes_some _ _ _ Hagg) as (L' & HL'' & _ & Eagg).
  assert (L' = L) by congruence. subst L'.
  assert (Hm : netmask R2 = netmask R1).
  { unfold aggregate_routes in Hagg.
    destruct (negb (netmask R1 =? netmask R2)%string
              || negb (localpref R1 =? localpref R2)
              || negb (Bool.eqb (selfOrigin R1) (selfOrigin R2))
              || negb (aspath_eqb (ASPath R1) (ASPath R2))
              || negb (origin_eqb (origin R1) (origin R2))) eqn:E;
      [discriminate|].
    apply same_attributes in E. symmetry. apply E. }
  assert (N : get_netmask_length (netmask_with_length (L - 1)) = Ok (L - 1)).
  { replace (L - 1) with (Z.of_nat (Z.to_nat (L - 1))) by lia.
    apply netmask_with_length_length. lia. }
  set (n := Z.to_nat (L - 1)).
  assert (En : Z.to_nat L = S n) by (unfold n; lia).
  apply index_get in Hc1; [|lia]. apply index_get in Hc2; [|lia].
  fold n in Hc1, Hc2.
  rewrite !slice0_prefix in Hs by lia. fold n in Hs.
  destruct (get_in_range bits n) as [cd Hcd]; [lia|].
  pose proof (binary_get _ _ _ Bd Hcd) as Dd.
  pose proof (binary_get _ _ _ B1 Hc1) as D1.
  pose proof (binary_get _ _ _ B2 Hc2) as D2.
  assert (M1 : matches dest R1
               = (substring 0 n bits =? substring 0 n bits1)%string
                 && Ascii.eqb cd c1).
  { unfold matches, match_length. rewrite HL, Hd, Hb1. cbn [bind].
    rewrite !slice0_prefix by lia. rewrite En.
    rewrite (prefix_step n bits bits1 cd c1 Hcd Hc1).
    destruct ((substring 0 n bits =? substring 0 n bits1)%string
              && Ascii.eqb cd c1); reflexivity. }
  assert (M2 : matches dest R2
               = (substring 0 n bits =? substring 0 n bits1)%string
                 && Ascii.eqb cd c2).
  { unfold matches, match_length. rewrite Hm, HL, Hd, Hb2. cbn [bind].
    rewrite !slice0_prefix by lia. rewrite En.
    rewrite (prefix_step n bits bits2 cd c2 Hcd Hc2). rewrite <- Hs.
    destruct ((substring 0 n bits =? substring 0 n bits1)%string
              && Ascii.eqb cd c2); reflexivity. }
  assert (Ma : matches dest agg
               = (substring 0 n bits =? substring 0 n bits1)%string).
  { subst agg. unfold matches, match_length.
    destruct (Py.str_gt (network R1) (network R2));
      cbn [network netmask set_netmask set_children set_network].
    - rewrite N, Hd, Hb2. cbn [bind]. rewrite !slice0_prefix by lia.
      fold n. rewrite <- Hs.
      destruct (substring 0 n bits =? substring 0 n bits1)%string; reflexivity.
    - rewrite N, Hd, Hb1. cbn [bind]. rewrite !slice0_prefix by lia.
      fold n.
      destruct (substring 0 n bits =? substring 0 n bits1)%string; reflexivity. }
  rewrite M1, M2, Ma.
  destruct (substring 0 n bits =? substring 0 n bits1)%string; [|reflexivity].
  cbn [andb].
  destruct Dd as [-> | ->], D1 as [-> | ->], D2 as [-> | ->];
    try reflexivity; congruence.
Qed.

Lemma aggregate_shape_witness :
  aggregate_routes half8 half12 = Ok (Some whole8) /\
  exists L lo hi,
    get_netmask_length (netmask half8) = Ok L /\
    netmask half12 = netmask half8 /\
    ((lo = half8 /\ hi = half12) \/ (lo = half12 /\ hi = half8)) /\
    child0 whole8 = Some lo /\ child1 whole8 = Some hi /\
    network whole8 = network lo /\
    String.leb (network lo) (network hi) = true /\
    netmask whole8 = netmask_with_length (L - 1) /\
    (1 <= L <= 32 -> get_netmask_length (netmask whole8) = Ok (L - 1)) /\
    localpref whole8 = localpref half8 /\
    localpref whole8 = localpref half12 /\
    selfOrigin whole8 = selfOrigin half8 /\
    selfOrigin whole8 = selfOrigin half12 /\
    ASPath whole8 = ASPath half8 /\ ASPath whole8 = ASPath half12 /\
    origin whole8 = origin half8 /\ origin whole8 = origin half12 /\
    peer whole8 = peer half8.
Proof.
  assert (H : aggregate_routes half8 half12 = Ok (Some whole8))
    by (vm_compute; reflexivity).
  split; [exact H|]. exact (aggregate_shape half8 half12 whole8 H).
Defined.

Lemma aggregate_matches_what_its_routes_match_witness :
  let bits := "00001010000000000000111000000101" in
  let bits1 := "00001010000000000000100000000000" in
  let bits2 := "00001010000000000000110000000000" in
  aggregate_routes half8 half12 = Ok (Some whole8) /\
  get_netmask_length (netmask half8) = Ok 22 /\
  1 <= 22 <= 32 /\
  ip_to_binary_string (network half8) = Ok bits1 /\
  ip_to_binary_string (network half12) = Ok bits2 /\
  ip_to_binary_string "10.0.14.5" = Ok bits /\
  binary bits1 = true /\ binary bits2 = true /\ binary bits = true /\
  (Z.to_nat 22 <= String.length bits)%nat /\
  matches "10.0.14.5" whole8
  = matches "10.0.14.5" half8 || matches "10.0.14.5" half12.
Proof.
  intros bits bits1 bits2.
  assert (H1 : aggregate_routes half8 half12 = Ok (Some whole8))
    by (vm_compute; reflexivity).
  assert (H2 : get_netmask_length (netmask half8) = Ok 22)
    by (vm_compute; reflexivity).
  assert (H3 : 1 <= 22 <= 32) by lia.
  assert (N1 : ip_to_binary_string (network half8) = Ok bits1)
    by (vm_compute; reflexivity).
  assert (N2 : ip_to_binary_string (network half12) = Ok bits2)
    by (vm_compute; reflexivity).
  assert (H4 : ip_to_binary_string "10.0.14.5" = Ok bits)
    by (vm_compute; reflexivity).
  assert (B1 : binary bits1 = true) by reflexivity.
  assert (B2 : binary bits2 = true) by reflexivity.
  assert (B : binary bits = true) by reflexivity.
  assert (H5 : (Z.to_nat 22 <= String.length bits)%nat)
    by (vm_compute; lia).
  split; [exact H1|]. split; [exact H2|]. split; [exact H3|].
  split; [exact N1|]. split; [exact N2|]. split; [exact H4|].
  split; [exact B1|]. split; [exact B2|]. split; [exact B|].
  split; [exact H5|].
  exact (aggregate_matches_what_its_routes_match
           half8 half12 whole8 22 "10.0.14.5" bits bits1 bits2
           H1 H2 H3 N1 N2 H4 B1 B2 B H5).
Defined.

(** ** What coalescing keeps (lines 115-130) *)

Lemma list_remove_permutation (x : route) (l l' : list route) :
  list_remove x l = Ok l' -> Permutation l (x :: l').
Proof.
  intros H. destruct (list_remove_ok _ _ _ H) as (l1 & l2 & -> & -> & _).
  symmetry. apply Permutation_middle.
Qed.

Lemma aggregate_leaves (R1 R2 agg : route) :
  aggregate_routes R1 R2 = Ok (Some agg) ->
  Permutation (leaves agg) (leaves R1 ++ leaves R2).
Proof.
  intros H. destruct (aggregate_routes_some _ _ _ H) as (L & _ & _ & ->).
  destruct (Py.str_gt (network R1) (network R2)); cbn [leaves].
  - apply Permutation_app_comm.
  - reflexivity.
Qed.

(** X9.  [coalesce] is idempotent and never lengthens the table: its
    result has at most as many top-level records as its input, and
    coalescing the result again returns it unchanged. *)
Theorem coalesce_idempotent (l t : list route) :
  coalesce l = Ok t ->
  coalesce t = Ok t /\ (List.length t <= List.length l)%nat.
Proof.
  intros H. split.
  - rewrite coalesce_unfold, (coalesce_fixpoint _ _ H). reflexivity.
  - apply (coalesce_invariant
             (fun l' => (List.length l' <= List.length l)%nat)) with (l := l);
      [|assumption|lia].
    intros l1 l2 l3 R1 R2 agg _ H1 H2 Hl.
    apply list_remove_length in H1. apply list_remove_length in H2.
    rewrite length_app. cbn [List.length]. lia.
Qed.

(** X10.  [coalesce] neither loses nor invents an announced route: the
    leaves below the records of its result are the leaves below the
    records of its input, as a multiset. *)
Theorem coalesce_keeps_the_leaves (l t : list route) :
  coalesce l = Ok t ->
  Permutation (flat_map leaves t) (flat_map leaves l).
Proof.
  intros H.
  apply (coalesce_invariant
           (fun l' => Permutation (flat_map leaves l') (flat_map leaves l)))
    with (l := l); [|assumption|reflexivity].
  intros l1 l2 l3 R1 R2 agg Ha H1 H2 Hl.
  rewrite <- Hl.
  apply list_remove_permutation in H1. apply list_remove_permutation in H2.
  rewrite (Permutation_flat_map leaves H1). cbn [flat_map].
  rewrite (Permutation_flat_map leaves H2). cbn [flat_map].
  rewrite flat_map_app. cbn [flat_map]. rewrite app_nil_r.
  rewrite (aggregate_leaves _ _ _ Ha).
  rewrite Permutation_app_comm, <- app_assoc. reflexivity.
Qed.

Lemma coalesce_idempotent_witness :
  coalesce [half8; half12] = Ok [whole8] /\
  coalesce [whole8] = Ok [whole8] /\
  (List.length [whole8] <= List.length [half8; half12])%nat.
Proof.
  assert (H : coalesce [half8; half12] = Ok [whole8])
    by (vm_compute; reflexivity).
  split; [exact H|]. exact (coalesce_idempotent [half8; half12] [whole8] H).
Defined.

Lemma coalesce_keeps_the_leaves_witness :
  coalesce [half8; half12] = Ok [whole8] /\
  Permutation (flat_map leaves [whole8]) (flat_map leaves [half8; half12]).
Proof.
  assert (H : coalesce [half8; half12] = Ok [whole8])
    by (vm_compute; reflexivity).
  split; [exact H|].
  exact (coalesce_keeps_the_leaves [half8; half12] [whole8] H).
Defined.

(** ** What a withdraw removes and what it keeps (lines 155-190) *)

(** X11.  After a handled withdraw, no record of the table is matched by a
    descriptor of the message from that neighbour, neither itself nor in
    one of the records below it; and every record of the table was in the
    table before, at top level or below a top-level record. *)
Theorem withdraw_leaves_nothing_matched
  (st : router) (srcif : string) (m : message) (ds : list (string * string))
  (st' : router) (out : list datagram) :
  handle_withdraw_msg st srcif m = Ok (st', out) ->
  msg m = Withdrawal ds ->
  forall x, In x (routes st') ->
    (forall d, In d ds -> touched srcif d x = false) /\
    (exists y, In y (routes st) /\ In x (nodes y)).
Proof.
  intros H Hm x Hx.
  destruct (handle_withdraw_msg_spec _ _ _ _ _ H) as (ds' & Hm' & Ha & Hb).
  assert (ds' = ds) by congruence. subst ds'.
  split; [intros d Hd; apply Hb; assumption | apply Ha; assumption].
Qed.

Lemma withdraw_each_untouched (srcif : string) (r : route) :
  forall ds table wr table' wr',
    (forall d, In d ds -> touched srcif d r = false) ->
    withdraw_each srcif ds r table wr = Ok (table', wr') ->
    table' = table /\ wr' = wr.
Proof.
  induction ds as [|[wn wm] ds IH]; intros table wr table' wr' Hu H.
  - simpl in H. inversion H; subst. auto.
  - simpl in H. monad_inv H.
    destruct (withdraw_route_spec 2 srcif wn wm r (Nat.le_refl 2) _ _ _ E)
      as (Hh & app & -> & _ & Hn & _).
    rewrite (Hu (wn, wm) (or_introl eq_refl)) in Hh. subst b.
    rewrite (Hn eq_refl), app_nil_r in H.
    apply IH in H; [assumption|]. intros d Hd. apply Hu. right. assumption.
Qed.

Lemma withdraw_scan_untouched (srcif : string) (ds : list (string * string)) :
  forall fuel i table wr table' wr',
    (forall x d, In x table -> In d ds -> touched srcif d x = false) ->
    withdraw_scan fuel srcif ds i table wr = Ok (table', wr') ->
    table' = table /\ wr' = wr.
Proof.
  induction fuel as [|fuel IH]; intros i table wr table' wr' Hu H.
  - simpl in H. destruct (nth_error table i) as [r|] eqn:En.
    + monad_inv H. inversion H; subst.
      apply withdraw_each_untouched in E; [assumption|].
      intros d Hd. apply Hu; [eapply nth_error_In; eassumption|assumption].
    + inversion H; subst. auto.
  - rewrite withdraw_scan_S in H. destruct (nth_error table i) as [r|] eqn:En.
    + monad_inv H.
      apply withdraw_each_untouched in E.
      * destruct E as [-> ->]. eapply IH; eassumption.
      * intros d Hd. apply Hu; [eapply nth_error_In; eassumption|assumption].
    + inversion H; subst. auto.
Qed.

(** X12.  A handled withdraw keeps every top-level record that no
    descriptor of the message matches, neither itself nor below; and when
    no top-level record is matched at all, the table is left exactly as it
    was. *)
Theorem withdraw_keeps_what_is_not_matched
  (st : router) (srcif : string) (m : message) (ds : list (string * string))
  (st' : router) (out : list datagram) :
  handle_withdraw_msg st srcif m = Ok (st', out) ->
  msg m = Withdrawal ds ->
  (forall y, In y (routes st) ->
     (forall d, In d ds -> touched srcif d y = false) ->
     In y (routes st')) /\
  ((forall y d, In y (routes st) -> In d ds -> touched srcif d y = false) ->
   routes st' = routes st).
Proof.
  unfold handle_withdraw_msg. intros H Hm. rewrite Hm in H.
  monad_inv H. rename l into table, l0 into wr.
  cbn [routes set_updates] in E.
  destruct (remove_withdrawn_spec wr table) as (t' & Et & Hc).
  rewrite Et in E0. inversion E0; subst a; clear E0.
  apply forward_withdraw_routes in H. destruct H as (Hr & _).
  cbn [routes set_routes] in Hr. rewrite Hr. split.
  - intros y Hy Hu.
    destruct (withdraw_scan_spec srcif ds _ 0 _ _ _ _ (Nat.le_refl _) E)
      as (extra & -> & _ & Hwr).
    cbn [skipn List.app] in Hwr.
    apply (count_occ_In route_eq_dec). rewrite Hc.
    assert (Hz : count_occ route_eq_dec wr y = 0%nat).
    { apply count_occ_not_In. rewrite Hwr. intros Hin.
      apply in_flat_map in Hin. destruct Hin as (z & _ & Hz).
      apply repeat_spec in Hz as Hzy. subst z.
      assert (Hh : hits srcif ds y = 0%nat).
      { unfold hits. rewrite filter_none; [reflexivity|].
        intros d Hd. apply Hu. assumption. }
      rewrite Hh in Hz. destruct Hz. }
    rewrite Hz, count_occ_app.
    apply (count_occ_In route_eq_dec) in Hy. lia.
  - intros Hu. apply withdraw_scan_untouched in E; [|assumption].
    destruct E as [-> ->]. cbn in Et. congruence.
Qed.

Lemma withdraw_leaves_nothing_matched_witness :
  let A := leaf "10.0.0.0" mask24 customer 100 in
  handle_withdraw_msg st_ab customer wd_b = Ok (st_ab_b, out_ab_b) /\
  msg wd_b = Withdrawal [("10.0.1.0", mask24)] /\
  In A (routes st_ab_b) /\
  (forall d, In d [("10.0.1.0", mask24)] -> touched customer d A = false) /\
  (exists y, In y (routes st_ab) /\ In A (nodes y)).
Proof.
  intros A.
  assert (H1 : handle_withdraw_msg st_ab customer wd_b
               = Ok (st_ab_b, out_ab_b)) by (vm_compute; reflexivity).
  assert (H2 : msg wd_b = Withdrawal [("10.0.1.0", mask24)]) by reflexivity.
  assert (H3 : In A (routes st_ab_b)) by (left; reflexivity).
  split; [exact H1|]. split; [exact H2|]. split; [exact H3|].
  exact (withdraw_leaves_nothing_matched
           st_ab customer wd_b [("10.0.1.0", mask24)] st_ab_b out_ab_b
           H1 H2 A H3).
Defined.

Lemma withdraw_keeps_what_is_not_matched_witness :
  handle_withdraw_msg st_ac customer wd_b = Ok (st_ac_b, out_ac_b) /\
  msg wd_b = Withdrawal [("10.0.1.0", mask24)] /\
  (forall y, In y (routes st_ac) ->
     (forall d, In d [("10.0.1.0", mask24)] -> touched customer d y = false) ->
     In y (routes st_ac_b)) /\
  ((forall y d, In y (routes st_ac) -> In d [("10.0.1.0", mask24)] ->
                touched customer d y = false) ->
   routes st_ac_b = routes st_ac).
Proof.
  assert (H1 : handle_withdraw_msg st_ac customer wd_b
               = Ok (st_ac_b, out_ac_b)) by (vm_compute; reflexivity).
  assert (H2 : msg wd_b = Withdrawal [("10.0.1.0", mask24)]) by reflexivity.
  split; [exact H1|]. split; [exact H2|].
  exact (withdraw_keeps_what_is_not_matched
           st_ac customer wd_b [("10.0.1.0", mask24)] st_ac_b out_ac_b H1 H2).
Defined.

Lemma kept_children (srcif : string) (ds : list (string * string))
      (nw nm : string) (lp : Z) (ap : list Z) (og : origin_t) (so : bool)
      (pr : string) (r0 r1 : route) :
  kept srcif ds (Route nw nm lp ap og so pr (Some r0) (Some r1))
  = if existsb (fun d => withdrawn srcif d
                           (Route nw nm lp ap og so pr (Some r0) (Some r1))) ds
    then [] else kept srcif ds r0 ++ kept srcif ds r1.
Proof. reflexivity. Qed.

Lemma kept_matched (srcif : string) (ds : list (string * string)) (r x : route) :
  In x (kept srcif ds r) ->
  existsb (fun d => withdrawn srcif d r) ds = false.
Proof.
  destruct r as [nw nm lp ap og so pr c0 c1]. cbn [kept].
  destruct (existsb _ ds); [intros []|reflexivity].
Qed.

Lemma kept_nodes (srcif : string) (ds : list (string * string)) (r x : route) :
  In x (kept srcif ds r) -> In x (nodes r) /\ child0 x = None.
Proof.
  induction r as [nw nm lp ap og so pr c0 c1 IH0 IH1] using route_ind.
  cbn [kept nodes]. destruct (existsb _ ds); [intros []|].
  destruct c0 as [r0|].
  - intros H. apply in_app_or in H. destruct H as [H|H].
    + destruct (IH0 r0 eq_refl H) as [Hn Hc]. split; [|assumption].
      right. apply in_or_app. left. assumption.
    + destruct c1 as [r1|]; [|destruct H].
      destruct (IH1 r1 eq_refl H) as [Hn Hc]. split; [|assumption].
      right. apply in_or_app. right. assumption.
  - intros [<-|[]]. split; [left; reflexivity | reflexivity].
Qed.

Lemma withdraw_route_covers (srcif : string) (ds : list (string * string))
      (wn wm : string) (r : route) :
  In (wn, wm) ds ->
  forall table table' x,
    withdraw_route srcif wn wm r table = Ok (true, table') ->
    In x (kept srcif ds r) ->
    exists z, In z table' /\ (size z < size r)%nat /\ In x (kept srcif ds z).
Proof.
  intros Hd.
  induction r as [nw nm lp ap og so pr c0 c1 IH0 IH1] using route_ind.
  intros table table' x H Hx.
  pose proof (kept_matched _ _ _ _ Hx) as Hn.
  assert (Hw : (nw =? wn)%string && (nm =? wm)%string && (pr =? srcif)%string
               = false).
  { apply not_true_is_false. intros Hw.
    assert (Hex : existsb (fun d => withdrawn srcif d
                                      (Route nw nm lp ap og so pr c0 c1)) ds
                  = true).
    { apply existsb_exists. exists (wn, wm). split; [assumption|exact Hw]. }
    congruence. }
  cbn [withdraw_route] in H. rewrite Hw in H.
  cbn [kept] in Hx. rewrite Hn in Hx.
  destruct c0 as [r0|]; [|discriminate].
  monad_inv H.
  destruct (withdraw_route_spec 2 srcif wn wm r0 (Nat.le_refl 2) _ _ _ E)
    as (_ & app0 & -> & _).
  apply in_app_or in Hx.
  destruct b.
  - destruct c1 as [r1|]; [|discriminate].
    assert (Hin : forall z, In z (table ++ app0) \/ z = r1 -> In z table').
    { inversion H; subst; clear H. intros z [Hz| ->].
      - destruct (list_mem r1 (table ++ app0)); [assumption|].
        apply in_or_app. left. assumption.
      - destruct (list_mem r1 (table ++ app0)) eqn:Em.
        + apply list_mem_In. assumption.
        + apply in_or_app. right. left. reflexivity. }
    destruct Hx as [Hx|Hx].
    + destruct (IH0 r0 eq_refl _ _ x E Hx) as (z & Hz & Hs & Hk).
      exists z. split; [apply Hin; left; assumption|].
      split; [cbn [size]; lia | assumption].
    + exists r1. split; [apply Hin; right; reflexivity|].
      split; [cbn [size]; lia | assumption].
  - destruct c1 as [r1|]; [|discriminate].
    monad_inv H.
    destruct (withdraw_route_spec 2 srcif wn wm r1 (Nat.le_refl 2) _ _ _ E0)
      as (_ & app1 & -> & _).
    destruct b; [|discriminate].
    assert (Hin : forall z, In z ((table ++ app0) ++ app1) \/ z = r0 ->
                            In z table').
    { inversion H; subst; clear H. intros z [Hz| ->].
      - destruct (list_mem r0 ((table ++ app0) ++ app1)); [assumption|].
        apply in_or_app. left. assumption.
      - destruct (list_mem r0 ((table ++ app0) ++ app1)) eqn:Em.
        + apply list_mem_In. assumption.
        + apply in_or_app. right. left. reflexivity. }
    destruct Hx as [Hx|Hx].
    + exists r0. split; [apply Hin; right; reflexivity|].
      split; [cbn [size]; lia | assumption].
    + destruct (IH1 r1 eq_refl _ _ x E0 Hx) as (z & Hz & Hs & Hk).
      exists z. split; [apply Hin; left; assumption|].
      split; [cbn [size]; lia | assumption].
Qed.

Lemma withdraw_each_visits (srcif : string) (r : route) :
  forall ds table wr table' wr',
    withdraw_each srcif ds r table wr = Ok (table', wr') ->
    forall wn wm, In (wn, wm) ds ->
      exists ta hit tb,
        withdraw_route srcif wn wm r ta = Ok (hit, tb) /\ incl tb table'.
Proof.
  induction ds as [|[wn0 wm0] ds IH]; intros table wr table' wr' H wn wm Hd.
  - destruct Hd.
  - simpl in H. monad_inv H.
    destruct (withdraw_each_spec 2 srcif ds r (Nat.le_refl 2) _ _ _ _ H)
      as (_ & app & -> & _).
    destruct Hd as [Hd|Hd].
    + inversion Hd; subst. exists table, b, l.
      split; [assumption|]. apply incl_appl. apply incl_refl.
    + eapply IH; eassumption.
Qed.

Lemma withdraw_scan_visits (srcif : string) (ds : list (string * string)) :
  forall fuel i table wr table' wr',
    (withdraw_fuel (List.length ds) (skipn i table) <= fuel)%nat ->
    withdraw_scan fuel srcif ds i table wr = Ok (table', wr') ->
    forall z wn wm, In z (skipn i table') -> In (wn, wm) ds ->
      exists ta hit tb,
        withdraw_route srcif wn wm z ta = Ok (hit, tb) /\ incl tb table'.
Proof.
  induction fuel as [|fuel IH]; intros i table wr table' wr' Hf H z wn wm Hz Hd.
  - simpl in H. destruct (nth_error table i) as [r|] eqn:En.
    + exfalso. rewrite (nth_error_skipn _ _ _ En) in Hf.
      rewrite withdraw_fuel_cons in Hf.
      pose proof (pow_pos (S (List.length ds)) (size r)).
      unfold weight in Hf. lia.
    + inversion H; subst. apply nth_error_None in En.
      rewrite skipn_all2 in Hz by assumption. destruct Hz.
  - rewrite withdraw_scan_S in H. destruct (nth_error table i) as [r|] eqn:En.
    + monad_inv H.
      destruct (withdraw_each_weight _ _ _ _ _ _ _ E)
        as (_ & app1 & El & _ & Hw1).
      assert (Hi : (S i <= List.length table)%nat).
      { apply Nat.le_succ_l. apply nth_error_Some. congruence. }
      assert (Hf' : (withdraw_fuel (List.length ds) (skipn (S i) l) <= fuel)%nat).
      { rewrite El, skipn_app_short by assumption. rewrite withdraw_fuel_app.
        rewrite (nth_error_skipn _ _ _ En) in Hf.
        rewrite withdraw_fuel_cons in Hf. lia. }
      destruct (withdraw_scan_spec srcif ds _ _ _ _ _ _ Hf' H)
        as (app2 & Et & _).
      assert (En' : nth_error table' i = Some r).
      { rewrite Et, El, <- app_assoc. rewrite nth_error_app1; [assumption|lia]. }
      rewrite (nth_error_skipn _ _ _ En') in Hz. destruct Hz as [<-|Hz].
      * destruct (withdraw_each_visits _ _ _ _ _ _ _ E wn wm Hd)
          as (ta & hit & tb & Hr & Hi').
        exists ta, hit, tb. split; [assumption|].
        rewrite Et. apply incl_appl. assumption.
      * eapply IH; eassumption.
    + inversion H; subst. apply nth_error_None in En.
      rewrite skipn_all2 in Hz by assumption. destruct Hz.
Qed.

Lemma scan_covers (srcif : string) (ds : list (string * string))
      (T : list route) :
  (forall z wn wm, In z T -> In (wn, wm) ds ->
     exists ta hit tb,
       withdraw_route srcif wn wm z ta = Ok (hit, tb) /\ incl tb T) ->
  forall n z x,
    (size z <= n)%nat -> In z T -> In x (kept srcif ds z) ->
    exists u, In u T /\ (forall d, In d ds -> touched srcif d u = false) /\
              In x (nodes u).
Proof.
  intros Hv. induction n as [|n IH]; intros z x Hs Hz Hx.
  - pose proof (size_pos z). lia.
  - destruct (existsb (fun d => touched srcif d z) ds) eqn:Et.
    + apply existsb_exists in Et. destruct Et as ([wn wm] & Hd & Ht).
      destruct (Hv z wn wm Hz Hd) as (ta & hit & tb & Hr & Hi).
      destruct (withdraw_route_spec 2 srcif wn wm z (Nat.le_refl 2) _ _ _ Hr)
        as (Hh & _).
      rewrite Ht in Hh. subst hit.
      destruct (withdraw_route_covers srcif ds wn wm z Hd _ _ x Hr Hx)
        as (z' & Hz' & Hs' & Hk).
      apply (IH z' x); [lia | apply Hi; assumption | assumption].
    + exists z. split; [assumption|]. split.
      * intros d Hd. apply not_true_is_false. intros Ht.
        assert (Hex : existsb (fun d => touched srcif d z) ds = true)
          by (apply existsb_exists; eauto).
        congruence.
      * apply (kept_nodes srcif ds z x Hx).
Qed.

(** X13.  A handled withdraw loses no announced route that it does not
    name: a leaf below a record of the table, with no record matched by a
    descriptor on the way down to it (itself included), is still in the
    table afterwards, below a record that no descriptor matches. *)
Theorem withdraw_keeps_the_other_leaves
  (st : router) (srcif : string) (m : message) (ds : list (string * string))
  (st' : router) (out : list datagram) :
  handle_withdraw_msg st srcif m = Ok (st', out) ->
  msg m = Withdrawal ds ->
  forall y x, In y (routes st) -> In x (kept srcif ds y) ->
    child0 x = None /\
    exists u, In u (routes st') /\ In x (nodes u) /\
              (forall d, In d ds -> touched srcif d u = false).
Proof.
  unfold handle_withdraw_msg. intros H Hm y x Hy Hx. rewrite Hm in H.
  split; [apply (kept_nodes srcif ds y x Hx)|].
  monad_inv H. rename l into T, l0 into wr.
  cbn [routes set_updates] in E.
  destruct (remove_withdrawn_spec wr T) as (t' & Et & Hc).
  rewrite Et in E0. inversion E0; subst a; clear E0.
  apply forward_withdraw_routes in H. destruct H as (Hr & _).
  cbn [routes set_routes] in Hr. rewrite Hr.
  destruct (withdraw_scan_spec srcif ds _ 0 _ _ _ _ (Nat.le_refl _) E)
    as (extra & ET & _ & Hwr).
  cbn [skipn List.app] in Hwr.
  assert (Hv : forall z wn wm, In z T -> In (wn, wm) ds ->
             exists ta hit tb,
               withdraw_route srcif wn wm z ta = Ok (hit, tb) /\ incl tb T).
  { intros z wn wm Hz Hd.
    apply (withdraw_scan_visits srcif ds _ 0 _ _ _ _ (Nat.le_refl _) E);
      assumption. }
  assert (HyT : In y T) by (rewrite ET; apply in_or_app; left; assumption).
  destruct (scan_covers srcif ds T Hv (size y) y x (Nat.le_refl _) HyT Hx)
    as (u & Hu & Hun & Hxu).
  exists u. split; [|split; assumption].
  apply (count_occ_In route_eq_dec). rewrite Hc.
  assert (Hz : count_occ route_eq_dec wr u = 0%nat).
  { apply count_occ_not_In. rewrite Hwr. intros Hin.
    apply in_flat_map in Hin. destruct Hin as (z & _ & Hz).
    apply repeat_spec in Hz as Hzy. subst z.
    assert (Hh : hits srcif ds u = 0%nat).
    { unfold hits. rewrite filter_none; [reflexivity|].
      intros d Hd. apply Hun. assumption. }
    rewrite Hh in Hz. destruct Hz. }
  rewrite Hz. apply (count_occ_In route_eq_dec) in Hu. lia.
Qed.

Lemma withdraw_keeps_the_other_leaves_witness :
  let A := leaf "10.0.0.0" mask24 customer 100 in
  let B := leaf "10.0.1.0" mask24 customer 100 in
  let AB := Route "10.0.0.0" "255.255.254.0" 100 [2] IGP true customer
                  (Some A) (Some B) in
  handle_withdraw_msg st_ab customer wd_b = Ok (st_ab_b, out_ab_b) /\
  msg wd_b = Withdrawal [("10.0.1.0", mask24)] /\
  In AB (routes st_ab) /\
  In A (kept customer [("10.0.1.0", mask24)] AB) /\
  child0 A = None /\
  exists u, In u (routes st_ab_b) /\ In A (nodes u) /\
            (forall d, In d [("10.0.1.0", mask24)] ->
                       touched customer d u = false).
Proof.
  intros A B AB.
  assert (H1 : handle_withdraw_msg st_ab customer wd_b
               = Ok (st_ab_b, out_ab_b)) by (vm_compute; reflexivity).
  assert (H2 : msg wd_b = Withdrawal [("10.0.1.0", mask24)]) by reflexivity.
  assert (H3 : In AB (routes st_ab)) by (left; reflexivity).
  assert (H4 : In A (kept customer [("10.0.1.0", mask24)] AB))
    by (left; reflexivity).
  split; [exact H1|]. split; [exact H2|]. split; [exact H3|].
  split; [exact H4|].
  exact (withdraw_keeps_the_other_leaves
           st_ab customer wd_b [("10.0.1.0", mask24)] st_ab_b out_ab_b
           H1 H2 AB A H3 H4).
Defined.

(** ** Propagation of a withdraw (lines 191-196) *)

Lemma forward_withdraw_out (srcif : string) (pre : list message)
      (neighbors : list string) :
  forall st cur st' out,
    updates st = pre ++ [cur] ->
    forward_withdraw st srcif (List.length pre) neighbors = Ok (st', out) ->
    Forall2 (fun N d => exists a, our_addr N = Ok a /\
                                  d = (N, Message (type cur) a N (msg cur)))
            (filter (fun N => negb (N =? srcif)%string
                              && (is_cust (relationship st srcif)
                                  || is_cust (relationship st N)))
                    neighbors)
            out.
Proof.
  induction neighbors as [|N rest IH]; simpl; intros st cur st' out Hu H.
  - inversion H; constructor.
  - monad_inv H. inversion H; subst; clear H.
    apply forwards_ok in E. rewrite <- E.
    destruct a.
    + monad_inv E0. inversion E0; subst; clear E0.
      unfold Py.nth in E3. rewrite Hu, nth_error_last in E3.
      inversion E3; subst a0; clear E3.
      unfold send in E4. monad_inv E4. inversion E4; subst; clear E4.
      assert (Hu' : updates (set_updates st
                               (log_set (updates st) (List.length pre)
                                        (Message (type cur) a N (msg cur))))
                    = pre ++ [Message (type cur) a N (msg cur)])
        by (simpl; rewrite Hu; apply log_set_last).
      apply (IH _ _ _ _ Hu') in E1. simpl. constructor; [eauto | exact E1].
    + inversion E0; subst; clear E0. simpl. eauto.
Qed.

(** X14.  A handled withdraw is propagated like an update: exactly one
    copy per neighbour other than the sender that is a customer or, when
    the sender is a customer, any neighbour, in dictionary order.  Each
    copy has the type and the payload of the message as received, [src]
    the router's address on that link and [dst] the neighbour. *)
Theorem withdraw_is_forwarded_by_relationship
        (st : router) (S : string) (m : message)
        (st' : router) (out : list datagram) :
  handle_withdraw_msg st S m = Ok (st', out) ->
  Forall2 (fun N d =>
             exists a, our_addr N = Ok a /\
                       d = (N, Message (type m) a N (msg m)))
          (recipients st S) out.
Proof.
  unfold handle_withdraw_msg. intros H.
  destruct (msg m) as [| |ds| | |] eqn:Em; try discriminate.
  monad_inv H.
  pose proof (forward_withdraw_out
                S (updates st) _
                (set_routes (set_updates st (updates st ++ [m])) a)
                m _ _ eq_refl H) as F.
  rewrite Em in F. exact F.
Qed.

Lemma withdraw_is_forwarded_by_relationship_witness :
  handle_withdraw_msg st_ab customer wd_b = Ok (st_ab_b, out_ab_b) /\
  Forall2 (fun N d =>
             exists a, our_addr N = Ok a /\
                       d = (N, Message (type wd_b) a N (msg wd_b)))
          (recipients st_ab customer) out_ab_b.
Proof.
  assert (H : handle_withdraw_msg st_ab customer wd_b
              = Ok (st_ab_b, out_ab_b)) by (vm_compute; reflexivity).
  split; [exact H|].
  exact (withdraw_is_forwarded_by_relationship
           st_ab customer wd_b st_ab_b out_ab_b H).
Defined.

(** ** The shape of the table in every reachable state *)

Lemma well_formed_nodes (r x : route) :
  well_formed r -> In x (nodes r) -> well_formed x.
Proof.
  induction r as [nw nm lp ap og so pr c0 c1 IH0 IH1] using route_ind.
  intros Hw Hx. cbn [nodes] in Hx. destruct Hx as [<-|Hx]; [assumption|].
  destruct c0 as [r0|]; [|destruct Hx].
  destruct c1 as [r1|]; [|destruct Hw].
  cbn [well_formed] in Hw. destruct Hw as (H0 & H1 & _).
  apply in_app_or in Hx. destruct Hx as [Hx|Hx]; eauto.
Qed.

Lemma well_formed_aggregate (R1 R2 agg : route) :
  aggregate_routes R1 R2 = Ok (Some agg) ->
  well_formed R1 -> well_formed R2 -> well_formed agg.
Proof.
  intros H H1 H2.
  destruct (aggregate_routes_some _ _ _ H) as (L & _ & _ & E).
  destruct (Py.str_gt (network R1) (network R2)); subst agg;
    cbn [well_formed]; auto.
Qed.

Lemma coalesce_well_formed (l t : list route) :
  coalesce l = Ok t -> Forall well_formed l -> Forall well_formed t.
Proof.
  intros H. apply (coalesce_invariant (Forall well_formed)); [|assumption].
  intros l1 l2 l3 R1 R2 agg Ha E1 E2 Hl.
  rewrite Forall_forall in Hl.
  assert (I2 : forall x, In x l2 -> In x l1)
    by (intros x; apply (list_remove_subset _ _ _ _ E1)).
  assert (I3 : forall x, In x l3 -> In x l2)
    by (intros x; apply (list_remove_subset _ _ _ _ E2)).
  apply Forall_app. split.
  - apply Forall_forall. auto.
  - constructor; [|constructor].
    apply (well_formed_aggregate R1 R2); [assumption| |].
    + apply Hl. eapply list_remove_member; eassumption.
    + apply Hl, I2. eapply list_remove_member; eassumption.
Qed.

Lemma dict_set_keys (d : list (string * string)) (k v N : string) :
  In N (keys (dict_set d k v)) -> In N (keys d) \/ N = k.
Proof.
  induction d as [|[k' v'] d IH]; simpl.
  - intros [<-|[]]. auto.
  - destruct (k' =? k)%string eqn:E; simpl.
    + intros [<-|H]; auto.
    + intros [<-|H]; [auto|]. destruct (IH H); auto.
Qed.

Lemma connect_spec (connections : list (string * string)) :
  forall st st' out,
    connect st connections = Ok (st', out) ->
    asn st' = asn st /\ updates st' = updates st /\ routes st' = routes st /\
    (forall N, In N (keys (relations st')) ->
               In N (keys (relations st)) \/ In N (map fst connections)) /\
    (forall N, In N (map fst connections) -> exists a, our_addr N = Ok a).
Proof.
  induction connections as [|[neighbor relation] rest IH];
    intros st st' out H.
  - simpl in H. inversion H; subst. repeat split; auto. intros N [].
  - simpl in H. monad_inv H. inversion H; subst; clear H.
    destruct (IH _ _ _ E1) as (Ha & Hu & Hr & Hk & Ho). cbn in Ha, Hu, Hr, Hk.
    repeat split; try assumption.
    + intros N HN. destruct (Hk N HN) as [H|H].
      * apply dict_set_keys in H. destruct H as [H| ->]; [auto|].
        right. left. reflexivity.
      * right. right. assumption.
    + intros N [<-|HN]; [eauto|auto].
Qed.

Lemma handle_data_msg_state (st : router) (srcif : string) (m : message)
      (st' : router) (out : list datagram) :
  handle_data_msg st srcif m = Ok (st', out) -> st' = st.
Proof.
  unfold handle_data_msg. intros H. monad_inv H.
  destruct a; monad_inv H; inversion H; reflexivity.
Qed.

Lemma handle_dump_msg_state (st : router) (m : message)
      (st' : router) (out : list datagram) :
  handle_dump_msg st m = Ok (st', out) -> st' = st.
Proof.
  unfold handle_dump_msg. intros H. monad_inv H. inversion H; reflexivity.
Qed.

Lemma handle_msg_cases (st : router) (srcif : string) (m : message)
      (st' : router) (out : list datagram) :
  handle_msg st srcif m = Ok (st', out) ->
  handle_update_msg st srcif m = Ok (st', out) \/
  handle_withdraw_msg st srcif m = Ok (st', out) \/
  st' = st.
Proof.
  unfold handle_msg. intros H.
  destruct (type m =? "update")%string; [auto|].
  destruct (type m =? "withdraw")%string; [auto|].
  right. right.
  destruct (type m =? "data")%string;
    [eapply handle_data_msg_state; eassumption|].
  destruct (type m =? "dump")%string;
    [eapply handle_dump_msg_state; eassumption|].
  inversion H; reflexivity.
Qed.

Lemma handle_withdraw_msg_frame (st : router) (srcif : string) (m : message)
      (st' : router) (out : list datagram) :
  handle_withdraw_msg st srcif m = Ok (st', out) ->
  asn st' = asn st /\ relations st' = relations st.
Proof.
  unfold handle_withdraw_msg. intros H.
  destruct (msg m); try discriminate. monad_inv H.
  apply forward_withdraw_routes in H. cbn in H. tauto.
Qed.

Lemma reachable_invariant (st : router) :
  reachable st ->
  Forall well_formed (routes st) /\
  (forall N, In N (keys (relations st)) -> exists a, our_addr N = Ok a).
Proof.
  induction 1 as [asn0 connections st out H | st srcif m st' out _ IH Hs H].
  - unfold init in H. apply connect_spec in H.
    destruct H as (_ & _ & Hr & Hk & Ho). cbn in Hr, Hk. split.
    + rewrite Hr. constructor.
    + intros N HN. destruct (Hk N HN) as [[]|HN']. auto.
  - destruct IH as [Hw Ha].
    destruct (handle_msg_cases _ _ _ _ _ H) as [Hu|[Hd| ->]]; [| |auto].
    + apply handle_update_msg_ok in Hu.
      destruct Hu as (nw & nm & lp & ap & og & so & _ & Hc & _ & _ & Hr & _).
      split; [|rewrite Hr; assumption].
      apply (coalesce_well_formed _ _ Hc).
      apply Forall_app. split; [assumption|].
      constructor; [exact I|constructor].
    + destruct (handle_withdraw_msg_frame _ _ _ _ _ Hd) as [_ Hr].
      split; [|rewrite Hr; assumption].
      destruct (handle_withdraw_msg_spec _ _ _ _ _ Hd) as (ds & _ & Hn & _).
      apply Forall_forall. intros x Hx.
      destruct (Hn x Hx) as (y & Hy & Hxy).
      rewrite Forall_forall in Hw.
      apply (well_formed_nodes y x); auto.
Qed.

(** X15.  In every reachable state, every record of the table is well
    formed, at every depth: it is either a leaf, with no children, or it
    has two children and is exactly what [aggregate_routes] returns for
    them, in one order or the other. *)
Theorem reachable_tables_are_well_formed (st : router) (r x : route) :
  reachable st -> In r (routes st) -> In x (nodes r) -> well_formed x.
Proof.
  intros H Hr Hx. apply reachable_invariant in H. destruct H as [Hw _].
  rewrite Forall_forall in Hw. apply (well_formed_nodes r x); auto.
Qed.

Lemma st_ab_reachable : reachable st_ab.
Proof.
  eapply (reachable_step st_a customer upd_b).
  - eapply (reachable_step router0 customer upd_a).
    + exact router0_reachable.
    + vm_compute. auto.
    + vm_compute. reflexivity.
  - vm_compute. auto.
  - vm_compute. reflexivity.
Qed.

Lemma reachable_tables_are_well_formed_witness :
  let A := leaf "10.0.0.0" mask24 customer 100 in
  let B := leaf "10.0.1.0" mask24 customer 100 in
  let AB := Route "10.0.0.0" "255.255.254.0" 100 [2] IGP true customer
                  (Some A) (Some B) in
  reachable st_ab /\ In AB (routes st_ab) /\ In AB (nodes AB) /\
  well_formed AB.
Proof.
  intros A B AB.
  assert (H1 : reachable st_ab) by exact st_ab_reachable.
  assert (H2 : In AB (routes st_ab)) by (left; reflexivity).
  assert (H3 : In AB (nodes AB)) by (left; reflexivity).
  split; [exact H1|]. split; [exact H2|]. split; [exact H3|].
  exact (reachable_tables_are_well_formed st_ab AB AB H1 H2 H3).
Defined.

(** ** A withdraw is always handled *)

Lemma withdraw_route_total (srcif wn wm : string) (r : route) :
  well_formed r ->
  forall table, exists hit table',
    withdraw_route srcif wn wm r table = Ok (hit, table').
Proof.
  induction r as [nw nm lp ap og so pr c0 c1 IH0 IH1] using route_ind.
  intros Hw table. cbn [withdraw_route].
  destruct ((nw =? wn)%string && (nm =? wm)%string && (pr =? srcif)%string);
    [eauto|].
  destruct c0 as [r0|]; [|eauto].
  destruct c1 as [r1|]; [|destruct Hw].
  cbn [well_formed] in Hw. destruct Hw as (H0 & H1 & _).
  destruct (IH0 r0 eq_refl H0 table) as (hit0 & table0 & E0).
  rewrite E0. cbn [bind]. destruct hit0; [eauto|].
  destruct (IH1 r1 eq_refl H1 table0) as (hit1 & table1 & E1).
  rewrite E1. cbn [bind]. destruct hit1; eauto.
Qed.

Lemma withdraw_each_total (srcif : string) (r : route) :
  well_formed r ->
  forall ds table wr, exists table' wr',
    withdraw_each srcif ds r table wr = Ok (table', wr').
Proof.
  intros Hw. induction ds as [|[wn wm] ds IH]; intros table wr.
  - simpl. eauto.
  - simpl. destruct (withdraw_route_total srcif wn wm r Hw table)
      as (hit & table' & E).
    rewrite E. cbn [bind]. apply IH.
Qed.

Lemma withdraw_scan_total (srcif : string) (ds : list (string * string)) :
  forall fuel i table wr,
    Forall well_formed table ->
    exists table' wr',
      withdraw_scan fuel srcif ds i table wr = Ok (table', wr').
Proof.
  induction fuel as [|fuel IH]; intros i table wr Hw.
  - simpl. destruct (nth_error table i) as [r|] eqn:En; [|eauto].
    assert (Hr : well_formed r).
    { rewrite Forall_forall in Hw. apply Hw.
      eapply nth_error_In; eassumption. }
    destruct (withdraw_each_total srcif r Hr ds table wr) as (t' & w' & E).
    rewrite E. cbn [bind]. eauto.
  - rewrite withdraw_scan_S. destruct (nth_error table i) as [r|] eqn:En;
      [|eauto].
    assert (Hr : well_formed r).
    { rewrite Forall_forall in Hw. apply Hw.
      eapply nth_error_In; eassumption. }
    destruct (withdraw_each_total srcif r Hr ds table wr) as (t' & w' & E).
    rewrite E. cbn [bind].
    destruct (withdraw_each_weight _ _ _ _ _ _ _ E) as (_ & extra & -> & Hn & _).
    apply IH. apply Forall_app. split; [assumption|].
    apply Forall_forall. intros x Hx.
    apply (well_formed_nodes r x); auto.
Qed.

Lemma dict_get_In (d : list (string * string)) (k : string) :
  In k (keys d) -> exists v, dict_get d k = Ok v.
Proof.
  induction d as [|[k' v'] d IH]; simpl; [intros []|].
  destruct (k' =? k)%string eqn:E; [eauto|].
  intros [H|H]; [|auto]. apply String.eqb_neq in E. congruence.
Qed.

Lemma log_set_length (l : list message) (i : nat) (x : message) :
  List.length (log_set l i x) = List.length l.
Proof.
  revert i; induction l as [|y l IH]; intros [|i]; simpl; auto.
Qed.

Lemma forward_withdraw_total (srcif : string) (ref : nat)
      (neighbors : list string) :
  forall st,
    In srcif (keys (relations st)) ->
    (forall N, In N neighbors ->
               In N (keys (relations st)) /\ exists a, our_addr N = Ok a) ->
    (ref < List.length (updates st))%nat ->
    exists st' out, forward_withdraw st srcif ref neighbors = Ok (st', out).
Proof.
  induction neighbors as [|N rest IH]; intros st Hs Hn Hr.
  - simpl. eauto.
  - cbn [forward_withdraw]. unfold forwards.
    destruct (Hn N (or_introl eq_refl)) as (HN & a & Ea).
    destruct (dict_get_In _ _ Hs) as (rs & Es).
    destruct (dict_get_In _ _ HN) as (rn & En).
    assert (Hrest : forall N', In N' rest ->
              In N' (keys (relations st)) /\ exists a, our_addr N' = Ok a)
      by (intros N' H'; apply Hn; right; assumption).
    destruct (nth_error (updates st) ref) as [m0|] eqn:Em;
      [|apply nth_error_None in Em; lia].
    assert (Next : forall st1 here,
              relations st1 = relations st ->
              List.length (updates st1) = List.length (updates st) ->
              exists st' out,
                ('(st'', out0) <- forward_withdraw st1 srcif ref rest ;;
                 Ok (st'', here ++ out0)) = Ok (st', out)).
    { intros st1 here R1 U1.
      destruct (IH st1) as (st' & out & E); [rewrite R1; assumption | | |].
      - intros N' H'. rewrite R1. apply Hrest. assumption.
      - rewrite U1. assumption.
      - rewrite E. cbn. eauto. }
    assert (Sent : forall go : bool,
              exists st1 here,
                (if go
                 then a0 <- our_addr N ;;
                      m1 <- Py.nth (updates st) ref ;;
                      (let m' := Message (type m1) a0 N (msg m1) in
                       let st1 := set_updates st
                                    (log_set (updates st) ref m') in
                       d <- send st1 N m' ;; Ok (st1, [d]))
                 else Ok (st, []))
                = Ok (st1, here) /\ relations st1 = relations st /\
                List.length (updates st1) = List.length (updates st)).
    { intros [|]; [|eauto].
      rewrite Ea. unfold Py.nth. rewrite Em. cbn [bind]. unfold send.
      cbn [relations set_updates]. rewrite En. cbn [bind].
      eexists _, _. split; [reflexivity|]. split; [reflexivity|].
      cbn. apply log_set_length. }
    assert (Go : exists go, (if (N =? srcif)%string then Ok false
                             else rs0 <- dict_get (relations st) srcif ;;
                                  if is_cust rs0 then Ok true
                                  else rn0 <- dict_get (relations st) N ;;
                                       Ok (is_cust rn0)) = Ok go).
    { destruct (N =? srcif)%string; [eauto|]. rewrite Es. cbn [bind].
      destruct (is_cust rs); [eauto|]. rewrite En. cbn [bind]. eauto. }
    destruct Go as (go & Eg). rewrite Eg. unfold bind at 1. cbv beta iota.
    destruct (Sent go) as (st1 & here & E1 & R1 & U1).
    cbv zeta in E1. rewrite E1. unfold bind at 1. cbv beta iota.
    apply Next; assumption.
Qed.

(** X16.  In a reachable state, a withdraw that arrives from a neighbour
    and carries a list of descriptors is always handled: the handler
    returns a state and a list of datagrams, it raises no exception. *)
Theorem reachable_withdraw_is_handled
        (st : router) (srcif : string) (m : message)
        (ds : list (string * string)) :
  reachable st ->
  In srcif (keys (relations st)) ->
  msg m = Withdrawal ds ->
  exists st' out, handle_withdraw_msg st srcif m = Ok (st', out).
Proof.
  intros Hr Hs Hm. apply reachable_invariant in Hr. destruct Hr as [Hw Ha].
  unfold handle_withdraw_msg. rewrite Hm. cbn [routes set_updates].
  destruct (withdraw_scan_total srcif ds
              (withdraw_fuel (List.length ds) (routes st)) 0 (routes st) []
              Hw) as (table & wr & E).
  rewrite E. cbn [bind].
  destruct (remove_withdrawn_spec wr table) as (t' & Et & _).
  rewrite Et. cbn [bind].
  apply forward_withdraw_total.
  - assumption.
  - intros N HN. split; [assumption|]. apply Ha. assumption.
  - cbn [updates set_routes set_updates]. rewrite length_app. simpl. lia.
Qed.

Lemma reachable_withdraw_is_handled_witness :
  reachable st_ab /\ In customer (keys (relations st_ab)) /\
  msg wd_b = Withdrawal [("10.0.1.0", mask24)] /\
  exists st' out, handle_withdraw_msg st_ab customer wd_b = Ok (st', out).
Proof.
  assert (H1 : reachable st_ab) by exact st_ab_reachable.
  assert (H2 : In customer (keys (relations st_ab))) by (left; reflexivity).
  assert (H3 : msg wd_b = Withdrawal [("10.0.1.0", mask24)]) by reflexivity.
  split; [exact H1|]. split; [exact H2|]. split; [exact H3|].
  exact (reachable_withdraw_is_handled
           st_ab customer wd_b [("10.0.1.0", mask24)] H1 H2 H3).
Defined.

(** ** The route a packet takes (lines 199-250) *)

Lemma valid_routes_selected (st : router) (dest : string)
      (valid : list route) :
  valid_routes st dest = Ok valid ->
  (candidates dest (routes st) = [] /\ valid = []) \/
  (exists v, valid = [v] /\
             first_best le_route (candidates dest (routes st)) v).
Proof.
  unfold valid_routes. intros H. monad_inv H.
  inversion H; subst l; clear H.
  assert (Hs : selected dest ([] ++ routes st) (z, valid)).
  { eapply select_loop_selected; [|eassumption].
    left. split; reflexivity. }
  simpl in Hs. destruct Hs as [[Hnone Hacc]|(v & Hacc & Hbest)].
  - left. inversion Hacc. auto.
  - right. inversion Hacc; subst. eauto.
Qed.

Lemma lex_first {A : Type} (le1 le2 : A -> A -> bool) (x y : A) :
  total le1 -> lex le1 le2 x y = true -> le1 x y = true.
Proof.
  intros T. unfold lex. intros H.
  destruct (le1 x y) eqn:E; [reflexivity|].
  destruct (T x y) as [H'|H']; [congruence|]. rewrite H' in H. discriminate.
Qed.

Lemma le_route_length (x y : route) :
  le_route x y = true -> prefix_length x <= prefix_length y.
Proof.
  unfold le_route. intros H.
  apply lex_first in H; [|auto 10 with order].
  apply lex_first in H; [|auto 10 with order].
  apply lex_first in H; [|auto 10 with order].
  apply lex_first in H; [|auto 10 with order].
  apply lex_first in H; [|auto 10 with order].
  unfold le_length in H. apply Z.leb_le. assumption.
Qed.

Lemma find_routes_ok (st : router) (srcif dest : string)
      (found : option route) :
  find_routes st srcif dest = Ok found ->
  exists valid,
    valid_routes st dest = Ok valid /\
    found = hd_error (if is_cust (relationship st srcif) then valid
                      else filter (fun r => is_cust (relationship st (peer r)))
                                  valid).
Proof.
  unfold find_routes. intros H. monad_inv H.
  exists a. split; [assumption|].
  assert (Hrel : relationship st srcif = a0)
    by (unfold relationship; rewrite E0; reflexivity).
  rewrite Hrel.
  assert (Hfound : found = hd_error a1)
    by (destruct a1; inversion H; reflexivity).
  destruct (is_cust a0); simpl in E1.
  - inversion E1; subst. reflexivity.
  - apply customer_routes_ok in E1. subst. reflexivity.
Qed.

(** X17.  The route that [find_routes] returns is a longest-prefix match:
    it is a record of the table that matches the destination, no matching
    record of the table has a longer prefix, and when the packet did not
    come from a customer the route leads to a customer. *)
Theorem found_route_is_a_longest_match
        (st : router) (srcif dest : string) (r : route) :
  find_routes st srcif dest = Ok (Some r) ->
  In r (routes st) /\ matches dest r = true /\
  (forall r', In r' (routes st) -> matches dest r' = true ->
              prefix_length r' <= prefix_length r) /\
  (is_cust (relationship st srcif) = false ->
   is_cust (relationship st (peer r)) = true).
Proof.
  intros H. apply find_routes_ok in H. destruct H as (valid & Hv & Hf).
  apply valid_routes_selected in Hv.
  destruct Hv as [[_ ->]|(v & -> & Hbest)].
  - destruct (is_cust (relationship st srcif)); discriminate.
  - assert (Hr : r = v /\ (is_cust (relationship st srcif) = false ->
                           is_cust (relationship st (peer r)) = true)).
    { destruct (is_cust (relationship st srcif)).
      - inversion Hf. split; [reflexivity | discriminate].
      - cbn [filter] in Hf.
        destruct (is_cust (relationship st (peer v))) eqn:Ec;
          [|discriminate].
        inversion Hf; subst. auto. }
    destruct Hr as [-> Hpol].
    pose proof (first_best_In _ _ _ Hbest) as Hin.
    unfold candidates in Hin. apply filter_In in Hin.
    destruct Hin as [Hin Hm].
    split; [assumption|]. split; [assumption|]. split; [|assumption].
    intros r' Hr' Hm'. apply le_route_length.
    destruct Hbest as (l1 & l2 & _ & Hmax & _). apply Hmax.
    unfold candidates. apply filter_In. auto.
Qed.

(** X18.  What [find_routes] returns is decided by the best matching
    record alone, the first survivor of the cascade in table order.  When
    no record matches, it returns nothing.  Otherwise it returns the best
    record if the packet came from a customer or the best record leads to
    a customer, and nothing if neither is a customer, whatever the other
    matching records are: the policy filter is applied after the
    selection, not before. *)
Theorem found_is_the_best_match_or_nothing
        (st : router) (srcif dest : string) (found : option route) :
  find_routes st srcif dest = Ok found ->
  found
  = match hd_error (keep_best le_route (candidates dest (routes st))) with
    | None => None
    | Some best =>
        if is_cust (relationship st srcif)
           || is_cust (relationship st (peer best))
        then Some best else None
    end.
Proof.
  intros H. apply find_routes_ok in H. destruct H as (valid & Hv & ->).
  apply valid_routes_selected in Hv.
  destruct Hv as [[Hc ->]|(v & -> & Hbest)].
  - rewrite Hc. cbn. destruct (is_cust (relationship st srcif)); reflexivity.
  - apply first_best_head in Hbest. rewrite Hbest.
    destruct (is_cust (relationship st srcif)); cbn [orb filter];
      [reflexivity|].
    destruct (is_cust (relationship st (peer v))); reflexivity.
Qed.

Lemma found_route_is_a_longest_match_witness :
  let P := leaf "10.0.0.0" mask24 provider 200 in
  find_routes st_ap customer "10.0.0.25" = Ok (Some P) /\
  In P (routes st_ap) /\ matches "10.0.0.25" P = true /\
  (forall r', In r' (routes st_ap) -> matches "10.0.0.25" r' = true ->
              prefix_length r' <= prefix_length P) /\
  (is_cust (relationship st_ap customer) = false ->
   is_cust (relationship st_ap (peer P)) = true).
Proof.
  intros P.
  assert (H : find_routes st_ap customer "10.0.0.25" = Ok (Some P))
    by (vm_compute; reflexivity).
  split; [exact H|].
  exact (found_route_is_a_longest_match st_ap customer "10.0.0.25" P H).
Defined.

Lemma found_is_the_best_match_or_nothing_witness :
  let A := leaf "10.0.0.0" mask24 customer 100 in
  let P := leaf "10.0.0.0" mask24 provider 200 in
  routes st_ap = [A; P] /\
  is_cust (relationship st_ap (peer A)) = true /\
  matches "10.0.0.25" A = true /\
  find_routes st_ap other_peer "10.0.0.25" = Ok None /\
  None
  = match hd_error (keep_best le_route
                              (candidates "10.0.0.25" (routes st_ap))) with
    | None => None
    | Some best =>
        if is_cust (relationship st_ap other_peer)
           || is_cust (relationship st_ap (peer best))
        then Some best else None
    end.
Proof.
  intros A P.
  assert (H : find_routes st_ap other_peer "10.0.0.25" = Ok None)
    by (vm_compute; reflexivity).
  split; [reflexivity|]. split; [reflexivity|].
  split; [vm_compute; reflexivity|]. split; [exact H|].
  exact (found_is_the_best_match_or_nothing
           st_ap other_peer "10.0.0.25" None H).
Defined.

(** ** Start-up (lines 32-42) *)

Lemma startup_loop_connect (connections : list string) :
  forall st st' out,
    startup_loop st connections = Ok (st', out) ->
    exists pairs,
      Forall2 connection connections pairs /\
      connect st pairs = Ok (st', out).
Proof.
  induction connections as [|c rest IH]; intros st st' out H.
  - simpl in H. exists []. split; [constructor | exact H].
  - cbn [startup_loop] in H. monad_inv H.
    destruct (Py.split "-" c) as [|port [|neighbor [|relation [|]]]] eqn:Es;
      try discriminate.
    cbn [unpack3] in E. inversion E; subst s s0 s1; clear E.
    inversion H; subst; clear H.
    destruct (IH _ _ _ E3) as (pairs & Hp & Hc).
    exists ((neighbor, relation) :: pairs). split.
    + constructor; [|assumption]. exists port. exact Es.
    + cbn [connect]. rewrite E1. cbn [bind]. rewrite E2. cbn [bind].
      rewrite Hc. reflexivity.
Qed.

Lemma connect_out (pairs : list (string * string)) :
  forall st st' out,
    connect st pairs = Ok (st', out) ->
    relations st'
    = fold_left (fun d p => dict_set d (fst p) (snd p)) pairs (relations st) /\
    Forall2 (fun p d => exists a, our_addr (fst p) = Ok a /\
                                  d = (fst p, Message "handshake" a (fst p) Empty))
            pairs out.
Proof.
  induction pairs as [|[neighbor relation] rest IH]; intros st st' out H.
  - simpl in H. inversion H; subst. split; [reflexivity | constructor].
  - simpl in H. monad_inv H. inversion H; subst; clear H.
    destruct (IH _ _ _ E1) as (Hr & Hf). cbn [relations] in Hr.
    unfold send in E0. monad_inv E0. inversion E0; subst; clear E0.
    split; [exact Hr|]. constructor; [|assumption].
    exists a. cbn [fst]. auto.
Qed.

(** X19.  When start-up returns, every connection string had exactly
    three fields separated by ["-"]; the router starts from the empty
    table and the empty log with the given AS number, it holds for every
    neighbour the relation of the last connection that names it, and it
    has sent one handshake per connection, in order, from its address on
    that link.  The state is the one that [init] builds from the
    (neighbour, relation) pairs, so it is reachable. *)
Theorem startup_state (asn0 : Z) (connections : list string)
        (st : router) (out : list datagram) :
  startup asn0 connections = Ok (st, out) ->
  exists pairs,
    Forall2 connection connections pairs /\
    init asn0 pairs = Ok (st, out) /\ reachable st /\
    asn st = asn0 /\ routes st = [] /\ updates st = [] /\
    relations st = fold_left (fun d p => dict_set d (fst p) (snd p)) pairs [] /\
    Forall2 (fun p d => exists a, our_addr (fst p) = Ok a /\
                                  d = (fst p, Message "handshake" a (fst p) Empty))
            pairs out.
Proof.
  unfold startup. intros H.
  destruct (startup_loop_connect _ _ _ _ H) as (pairs & Hp & Hc).
  exists pairs. split; [assumption|]. split; [exact Hc|].
  split; [eapply reachable_init; exact Hc|].
  destruct (connect_spec _ _ _ _ Hc) as (Ha & Hu & Hr & _).
  destruct (connect_out _ _ _ _ Hc) as (Hrel & Hf).
  cbn in Ha, Hu, Hr, Hrel. auto 10.
Qed.

(** X20.  Start-up raises on the first connection string when it does not
    have exactly three fields ([ValueError]), and when it has three
    fields, a numeral as port, and a neighbour field that, read as
    numerals between dots, has fewer than four of them ([IndexError]). *)
Theorem startup_rejects_the_first_connection
        (asn0 : Z) (c : string) (rest : list string) :
  (List.length (Py.split "-" c) <> 3%nat ->
   startup asn0 (c :: rest) = Raise ValueError) /\
  (forall port neighbor relation z qs,
     Py.split "-" c = [port; neighbor; relation] ->
     Py.int port = Ok z ->
     parse_all (Py.split "." neighbor) = Ok qs ->
     (List.length qs < 4)%nat ->
     startup asn0 (c :: rest) = Raise IndexError).
Proof.
  unfold startup. cbn [startup_loop]. split.
  - intros H.
    destruct (Py.split "-" c) as [|port [|neighbor [|relation [|]]]];
      try reflexivity.
    exfalso. apply H. reflexivity.
  - intros port neighbor relation z qs Es Ep Eq Hl.
    rewrite Es. cbn [unpack3 bind]. rewrite Ep. cbn [bind].
    rewrite our_addr_loop, our_addr_quads_parse, Eq. cbn [bind List.app].
    destruct qs as [|q0 [|q1 [|q2 [|q3 qs]]]]; try reflexivity.
    simpl in Hl. lia.
Qed.

Lemma startup_state_witness :
  startup 1 ["7001-192.168.0.2-cust"; "7002-172.168.0.2-peer";
             "7003-10.0.0.2-prov"]
  = Ok (router0,
        [(customer, Message "handshake" "192.168.0.1" customer Empty);
         (other_peer, Message "handshake" "172.168.0.1" other_peer Empty);
         (provider, Message "handshake" "10.0.0.1" provider Empty)]) /\
  exists pairs,
    Forall2 connection
            ["7001-192.168.0.2-cust"; "7002-172.168.0.2-peer";
             "7003-10.0.0.2-prov"] pairs /\
    init 1 pairs
    = Ok (router0,
          [(customer, Message "handshake" "192.168.0.1" customer Empty);
           (other_peer, Message "handshake" "172.168.0.1" other_peer Empty);
           (provider, Message "handshake" "10.0.0.1" provider Empty)]) /\
    reachable router0 /\
    asn router0 = 1 /\ routes router0 = [] /\ updates router0 = [] /\
    relations router0
    = fold_left (fun d p => dict_set d (fst p) (snd p)) pairs [] /\
    Forall2 (fun p d => exists a, our_addr (fst p) = Ok a /\
                                  d = (fst p, Message "handshake" a (fst p) Empty))
            pairs
            [(customer, Message "handshake" "192.168.0.1" customer Empty);
             (other_peer, Message "handshake" "172.168.0.1" other_peer Empty);
             (provider, Message "handshake" "10.0.0.1" provider Empty)].
Proof.
  assert (H : startup 1 ["7001-192.168.0.2-cust"; "7002-172.168.0.2-peer";
                         "7003-10.0.0.2-prov"]
              = Ok (router0,
                    [(customer, Message "handshake" "192.168.0.1" customer Empty);
                     (other_peer,
                      Message "handshake" "172.168.0.1" other_peer Empty);
                     (provider, Message "handshake" "10.0.0.1" provider Empty)]))
    by (vm_compute; reflexivity).
  split; [exact H|]. exact (startup_state 1 _ _ _ H).
Defined.

Lemma startup_rejects_the_first_connection_witness :
  List.length (Py.split "-" "7001-192.168.0.2") <> 3%nat /\
  startup 1 ["7001-192.168.0.2"] = Raise ValueError /\
  Py.split "-" "7001-192.168.2-cust" = ["7001"; "192.168.2"; "cust"] /\
  Py.int "7001" = Ok 7001 /\
  parse_all (Py.split "." "192.168.2") = Ok [192; 168; 2] /\
  (List.length [192; 168; 2] < 4)%nat /\
  startup 1 ["7001-192.168.2-cust"] = Raise IndexError.
Proof.
  assert (H1 : List.length (Py.split "-" "7001-192.168.0.2") <> 3%nat)
    by (vm_compute; discriminate).
  assert (H2 : Py.split "-" "7001-192.168.2-cust"
               = ["7001"; "192.168.2"; "cust"]) by reflexivity.
  assert (H3 : Py.int "7001" = Ok 7001) by reflexivity.
  assert (H4 : parse_all (Py.split "." "192.168.2") = Ok [192; 168; 2])
    by reflexivity.
  assert (H5 : (List.length [192; 168; 2] < 4)%nat) by (simpl; lia).
  split; [exact H1|].
  split; [exact (proj1 (startup_rejects_the_first_connection
                          1 "7001-192.168.0.2" []) H1)|].
  split; [exact H2|]. split; [exact H3|]. split; [exact H4|].
  split; [exact H5|].
  exact (proj2 (startup_rejects_the_first_connection
                  1 "7001-192.168.2-cust" [])
               "7001" "192.168.2" "cust" 7001 [192; 168; 2] H2 H3 H4 H5).
Defined.

(** ** What no message changes (lines 278-289) *)

Lemma dict_get_keys (d : list (string * string)) (k v : string) :
  dict_get d k = Ok v -> In k (keys d).
Proof.
  induction d as [|[k' v'] d IH]; simpl; [discriminate|].
  destruct (k' =? k)%string eqn:E; [|auto].
  apply String.eqb_eq in E. auto.
Qed.

Lemma send_ok (st : router) (N : string) (m : message) (d : datagram) :
  send st N m = Ok d -> d = (N, m) /\ In N (keys (relations st)).
Proof.
  unfold send. intros H. monad_inv H. inversion H; subst.
  split; [reflexivity|]. eapply dict_get_keys; eassumption.
Qed.

Lemma forwarded_to_recipients (st : router) (S : string)
      (content : string -> string -> message) (out : list datagram) :
  Forall2 (fun N d => exists a, our_addr N = Ok a /\ d = (N, content a N))
          (recipients st S) out ->
  forall N d, In (N, d) out -> In N (keys (relations st)) /\ N <> S.
Proof.
  intros F N d Hin.
  assert (Hr : In N (recipients st S)).
  { induction F as [|N' d' l out' (a & _ & ->) _ IH]; [destruct Hin|].
    destruct Hin as [E|Hin]; [inversion E; left; reflexivity|].
    right. apply IH. assumption. }
  unfold recipients in Hr. apply filter_In in Hr. destruct Hr as [Hk Hc].
  split; [assumption|].
  apply andb_true_iff in Hc. destruct Hc as [Hc _].
  apply negb_true_iff in Hc. apply String.eqb_neq. assumption.
Qed.

Lemma handle_update_msg_out (st : router) (S : string) (m : message)
      (st' : router) (out : list datagram) :
  handle_update_msg st S m = Ok (st', out) ->
  forall N d, In (N, d) out -> In N (keys (relations st)) /\ N <> S.
Proof.
  intros H. apply handle_update_msg_ok in H.
  destruct H as (nw & nm & lp & ap & og & so & _ & _ & _ & _ & Hr & Hf).
  apply forward_update_ok in Hf.
  apply (forwarded_to_recipients st S
           (fun a N => Message "update" a N (Forwarded nm (asn st :: ap) nw))).
  unfold recipients, relationship in *. rewrite Hr in Hf. exact Hf.
Qed.

Lemma handle_withdraw_msg_out (st : router) (S : string) (m : message)
      (st' : router) (out : list datagram) :
  handle_withdraw_msg st S m = Ok (st', out) ->
  forall N d, In (N, d) out -> In N (keys (relations st)) /\ N <> S.
Proof.
  unfold handle_withdraw_msg. intros H.
  destruct (msg m) as [| |ds| | |] eqn:Em; try discriminate.
  monad_inv H.
  pose proof (forward_withdraw_out
                S (updates st) _
                (set_routes (set_updates st (updates st ++ [m])) a)
                m _ _ eq_refl H) as F.
  apply (forwarded_to_recipients st S
           (fun a N => Message (type m) a N (msg m))).
  exact F.
Qed.

(** X21.  Whatever message is handled, the AS number and the
    relationships of the router stay as they are, and every datagram sent
    goes to a neighbour of the router.  An update or a withdraw is never
    sent back on the link it came from; a message of any other type
    leaves the whole state unchanged, and one that is none of update,
    withdraw, data and dump is dropped without any datagram. *)
Theorem handle_msg_frame (st : router) (srcif : string) (m : message)
        (st' : router) (out : list datagram) :
  handle_msg st srcif m = Ok (st', out) ->
  asn st' = asn st /\ relations st' = relations st /\
  (forall N d, In (N, d) out -> In N (keys (relations st))) /\
  (type m = "update" \/ type m = "withdraw" ->
   forall N d, In (N, d) out -> N <> srcif) /\
  (type m <> "update" -> type m <> "withdraw" -> st' = st) /\
  (type m <> "update" -> type m <> "withdraw" ->
   type m <> "data" -> type m <> "dump" -> out = []).
Proof.
  unfold handle_msg. intros H.
  destruct (type m =? "update")%string eqn:Eu.
  { apply String.eqb_eq in Eu.
    pose proof (handle_update_msg_out _ _ _ _ _ H) as Ho.
    apply handle_update_msg_ok in H.
    destruct H as (nw & nm & lp & ap & og & so & _ & _ & _ & Ha & Hr & _).
    split; [assumption|]. split; [assumption|].
    split; [intros N d Hd; apply (Ho N d Hd)|].
    split; [intros _ N d Hd; apply (Ho N d Hd)|].
    split; intros; congruence. }
  destruct (type m =? "withdraw")%string eqn:Ew.
  { apply String.eqb_eq in Ew.
    pose proof (handle_withdraw_msg_out _ _ _ _ _ H) as Ho.
    apply handle_withdraw_msg_frame in H. destruct H as [Ha Hr].
    split; [assumption|]. split; [assumption|].
    split; [intros N d Hd; apply (Ho N d Hd)|].
    split; [intros _ N d Hd; apply (Ho N d Hd)|].
    split; intros; congruence. }
  apply String.eqb_neq in Eu, Ew.
  assert (Hs : st' = st /\
               (forall N d, In (N, d) out -> In N (keys (relations st))) /\
               (type m <> "data" -> type m <> "dump" -> out = [])).
  { destruct (type m =? "data")%string eqn:Ed.
    { apply String.eqb_eq in Ed.
      pose proof (handle_data_msg_state _ _ _ _ _ H) as ->.
      split; [reflexivity|]. split; [|congruence].
      unfold handle_data_msg in H. monad_inv H.
      destruct a as [r|]; monad_inv H; inversion H; subst;
        intros N d [Hd|[]].
      - apply send_ok in E0. destruct E0 as [-> Hk].
        inversion Hd; subst. assumption.
      - apply send_ok in E1. destruct E1 as [-> Hk].
        inversion Hd; subst. assumption. }
    destruct (type m =? "dump")%string eqn:Ep.
    { apply String.eqb_eq in Ep.
      pose proof (handle_dump_msg_state _ _ _ _ H) as ->.
      split; [reflexivity|]. split; [|congruence].
      unfold handle_dump_msg in H. monad_inv H. inversion H; subst.
      intros N d [Hd|[]].
      apply send_ok in E. destruct E as [-> Hk].
      inversion Hd; subst. assumption. }
    inversion H; subst. split; [reflexivity|].
    split; [intros N d []|reflexivity]. }
  destruct Hs as (-> & Ho & He).
  split; [reflexivity|]. split; [reflexivity|]. split; [assumption|].
  split; [intros [E|E]; congruence|].
  split; [reflexivity|]. intros _ _. assumption.
Qed.

Lemma handle_msg_frame_witness :
  handle_msg st_ab customer wd_b = Ok (st_ab_b, out_ab_b) /\
  asn st_ab_b = asn st_ab /\ relations st_ab_b = relations st_ab /\
  (forall N d, In (N, d) out_ab_b -> In N (keys (relations st_ab))) /\
  (type wd_b = "update" \/ type wd_b = "withdraw" ->
   forall N d, In (N, d) out_ab_b -> N <> customer) /\
  (type wd_b <> "update" -> type wd_b <> "withdraw" -> st_ab_b = st_ab) /\
  (type wd_b <> "update" -> type wd_b <> "withdraw" ->
   type wd_b <> "data" -> type wd_b <> "dump" -> out_ab_b = []).
Proof.
  assert (H : handle_msg st_ab customer wd_b = Ok (st_ab_b, out_ab_b))
    by (vm_compute; reflexivity).
  split; [exact H|].
  exact (handle_msg_frame st_ab customer wd_b st_ab_b out_ab_b H).
Defined.

(** ** The update log over a run *)

Lemma handle_msg_log (st : router) (srcif : string) (m : message)
      (st' : router) (out : list datagram) :
  handle_msg st srcif m = Ok (st', out) ->
  exists added,
    updates st' = updates st ++ added /\
    map (fun e => (type e, msg e)) added
    = map (fun p => (type (snd p), msg (snd p)))
          (filter logged [(srcif, m)]).
Proof.
  unfold handle_msg, logged. cbn [filter snd]. intros H.
  destruct (type m =? "update")%string.
  { apply handle_update_msg_ok in H.
    destruct H as (nw & nm & lp & ap & og & so & _ & _ & Hu & _).
    exists [m]. split; [assumption | reflexivity]. }
  destruct (type m =? "withdraw")%string.
  { apply handle_withdraw_msg_log in H.
    destruct H as (e & Hu & Ht & Hm & _).
    exists [e]. split; [assumption|]. cbn. rewrite Ht, Hm. reflexivity. }
  exists []. rewrite app_nil_r. split; [|reflexivity].
  destruct (type m =? "data")%string;
    [apply handle_data_msg_state in H; subst; reflexivity|].
  destruct (type m =? "dump")%string;
    [apply handle_dump_msg_state in H; subst; reflexivity|].
  inversion H; reflexivity.
Qed.

(** X22.  The update log only grows: after a run, it is the log from
    before followed by one record for every update and every withdraw
    handled, in order of arrival, each with the type and the payload of
    the message; data, dump and other messages leave no record. *)
Theorem log_is_append_only (inbound : list (string * message)) :
  forall st st' out,
    run st inbound = Ok (st', out) ->
    exists added,
      updates st' = updates st ++ added /\
      map (fun e => (type e, msg e)) added
      = map (fun p => (type (snd p), msg (snd p))) (filter logged inbound).
Proof.
  induction inbound as [|[srcif m] rest IH]; intros st st' out H.
  - simpl in H. inversion H; subst. exists []. rewrite app_nil_r. auto.
  - simpl in H. monad_inv H. inversion H; subst; clear H.
    destruct (handle_msg_log _ _ _ _ _ E) as (a1 & Hu1 & Hm1).
    destruct (IH _ _ _ E0) as (a2 & Hu2 & Hm2).
    exists (a1 ++ a2). split.
    + rewrite Hu2, Hu1, app_assoc. reflexivity.
    + rewrite map_app, Hm1, Hm2. cbn [filter].
      destruct (logged (srcif, m)); reflexivity.
Qed.

Lemma log_is_append_only_witness :
  run router0 (two_updates ++ two_withdraws) = Ok (st_withdrawn, out_withdrawn) /\
  exists added,
    updates st_withdrawn = updates router0 ++ added /\
    map (fun e => (type e, msg e)) added
    = map (fun p => (type (snd p), msg (snd p)))
          (filter logged (two_updates ++ two_withdraws)).
Proof.
  assert (H : run router0 (two_updates ++ two_withdraws)
              = Ok (st_withdrawn, out_withdrawn)) by (vm_compute; reflexivity).
  split; [exact H|].
  exact (log_is_append_only (two_updates ++ two_withdraws)
                            router0 st_withdrawn out_withdrawn H).
Defined.

(** ** Addresses that name no neighbour *)

Lemma dict_get_absent (d : list (string * string)) (k : string) :
  ~ In k (keys d) -> dict_get d k = Raise KeyError.
Proof.
  induction d as [|[k' v'] d IH]; simpl; [reflexivity|].
  intros H. destruct (k' =? k)%string eqn:E.
  - apply String.eqb_eq in E. exfalso. auto.
  - apply IH. auto.
Qed.

(** X23.  A dump request whose [src] field is not the address of a
    neighbour is not answered: handling it raises [KeyError], whichever
    neighbour it came from. *)
Theorem dump_with_unknown_src_raises
        (st : router) (srcif : string) (m : message) :
  type m = "dump" ->
  ~ In (src m) (keys (relations st)) ->
  handle_msg st srcif m = Raise KeyError.
Proof.
  intros Ht Hs. unfold handle_msg. rewrite Ht. cbn.
  unfold handle_dump_msg, send. rewrite (dict_get_absent _ _ Hs). reflexivity.
Qed.

Lemma dump_with_unknown_src_raises_witness :
  type dump_other_src = "dump" /\
  ~ In (src dump_other_src) (keys (relations router0)) /\
  handle_msg router0 customer dump_other_src = Raise KeyError.
Proof.
  assert (H1 : type dump_other_src = "dump") by reflexivity.
  assert (H2 : ~ In (src dump_other_src) (keys (relations router0))).
  { cbn. intros [H|[H|[H|[]]]]; discriminate. }
  split; [exact H1|]. split; [exact H2|].
  exact (dump_with_unknown_src_raises router0 customer dump_other_src H1 H2).
Defined.

(** X24.  The [peer] of a route is the [src] field of the update that
    announced it, whatever link the update came on.  When the route
    selected for a data packet has a [peer] that is not the address of a
    neighbour, the packet is neither forwarded nor answered: handling it
    raises [KeyError]. *)
Theorem data_over_unknown_peer_raises
        (st : router) (srcif : string) (m : message)
        (v : route) (rest : list route) :
  type m = "data" ->
  In srcif (keys (relations st)) ->
  valid_routes st (dst m) = Ok (v :: rest) ->
  ~ In (peer v) (keys (relations st)) ->
  handle_msg st srcif m = Raise KeyError.
Proof.
  intros Ht Hs Hv Hp. unfold handle_msg. rewrite Ht. cbn.
  unfold handle_data_msg, find_routes. rewrite Hv. cbn [bind].
  destruct (dict_get_In _ _ Hs) as (rel & Er). rewrite Er. cbn [bind].
  destruct (is_cust rel); cbn [negb].
  - cbn [bind]. unfold send. rewrite (dict_get_absent _ _ Hp). reflexivity.
  - cbn [customer_routes]. rewrite (dict_get_absent _ _ Hp). reflexivity.
Qed.

Lemma st_other_src_reachable : reachable st_other_src.
Proof.
  eapply (reachable_step router0 customer upd_other_src).
  - exact router0_reachable.
  - vm_compute. auto.
  - vm_compute. reflexivity.
Qed.

Lemma data_over_unknown_peer_raises_witness :
  let v := leaf "10.0.0.0" mask24 "1.2.3.4" 100 in
  reachable st_other_src /\
  type packet = "data" /\
  In other_peer (keys (relations st_other_src)) /\
  valid_routes st_other_src (dst packet) = Ok [v] /\
  ~ In (peer v) (keys (relations st_other_src)) /\
  handle_msg st_other_src other_peer packet = Raise KeyError.
Proof.
  intros v.
  assert (H1 : type packet = "data") by reflexivity.
  assert (H2 : In other_peer (keys (relations st_other_src)))
    by (right; left; reflexivity).
  assert (H3 : valid_routes st_other_src (dst packet) = Ok [v])
    by (vm_compute; reflexivity).
  assert (H4 : ~ In (peer v) (keys (relations st_other_src))).
  { cbn. intros [H|[H|[H|[]]]]; discriminate. }
  split; [exact st_other_src_reachable|].
  split; [exact H1|]. split; [exact H2|]. split; [exact H3|].
  split; [exact H4|].
  exact (data_over_unknown_peer_raises
           st_other_src other_peer packet v [] H1 H2 H3 H4).
Defined.

(** ** The order of the two routes in an aggregation (lines 88-113) *)

(** X25.  [aggregate_routes] does not depend on the order of its two
    routes, except for the peer of the result: when it refuses two routes
    it refuses them in the other order, and when it combines them the
    other order gives the same record with the peer of the other route.
    The peers of the two routes are never compared. *)
Theorem aggregate_is_symmetric_up_to_the_peer (R1 R2 : route) :
  (aggregate_routes R1 R2 = Ok None -> aggregate_routes R2 R1 = Ok None) /\
  (forall a,
     aggregate_routes R1 R2 = Ok (Some a) ->
     aggregate_routes R2 R1
     = Ok (Some (Route (network a) (netmask a) (localpref a) (ASPath a)
                       (origin a) (selfOrigin a) (peer R2)
                       (child0 a) (child1 a)))).
Proof.
  split; [apply aggregate_routes_none_sym|].
  intros a H.
  destruct (aggregate_routes_bits _ _ _ H)
    as (L & b1 & b2 & c1 & c2 & HL & Hb1 & Hb2 & Hs & Hc1 & Hc2 & Hne).
  destruct (aggregate_routes_some _ _ _ H) as (L' & HL' & _ & ->).
  assert (L' = L) by congruence. subst L'.
  assert (A : netmask R1 = netmask R2 /\ localpref R1 = localpref R2 /\
              selfOrigin R1 = selfOrigin R2 /\ ASPath R1 = ASPath R2 /\
              origin R1 = origin R2).
  { apply same_attributes. unfold aggregate_routes in H.
    destruct (negb (netmask R1 =? netmask R2)%string
              || negb (localpref R1 =? localpref R2)
              || negb (Bool.eqb (selfOrigin R1) (selfOrigin R2))
              || negb (aspath_eqb (ASPath R1) (ASPath R2))
              || negb (origin_eqb (origin R1) (origin R2)));
      [discriminate | reflexivity]. }
  destruct A as (Am & Al & As & Aa & Ao).
  assert (B : negb (netmask R2 =? netmask R1)%string
              || negb (localpref R2 =? localpref R1)
              || negb (Bool.eqb (selfOrigin R2) (selfOrigin R1))
              || negb (aspath_eqb (ASPath R2) (ASPath R1))
              || negb (origin_eqb (origin R2) (origin R1)) = false)
    by (apply same_attributes; intuition congruence).
  assert (Hn : network R1 <> network R2).
  { intros E. rewrite E in Hb1. congruence. }
  assert (G : Py.str_gt (network R2) (network R1)
              = negb (Py.str_gt (network R1) (network R2))).
  { unfold Py.str_gt, String.ltb.
    rewrite (String.compare_antisym (network R2) (network R1)).
    destruct (String.compare (network R1) (network R2)) eqn:Ec;
      try reflexivity.
    apply String.compare_eq_iff in Ec. congruence. }
  unfold aggregate_routes. rewrite B, <- Am, HL. cbn [bind].
  rewrite Hb2, Hb1. cbn [bind].
  rewrite <- Hs, String.eqb_refl. cbn [negb].
  rewrite Hc2, Hc1. cbn [bind].
  assert (Ec : Ascii.eqb c2 c1 = false)
    by (apply Ascii.eqb_neq; congruence).
  rewrite Ec, G.
  destruct (Py.str_gt (network R1) (network R2));
    cbn [negb network netmask localpref ASPath origin selfOrigin peer
         child0 child1];
    unfold set_netmask, set_children, set_network;
    cbn [network netmask localpref ASPath origin selfOrigin peer
         child0 child1];
    rewrite Al, As, Aa, Ao; reflexivity.
Qed.

(** ** When an update is handled (lines 132-152) *)

Lemma forward_update_total (st : router) (srcif : string) (n_msg : payload)
      (neighbors : list string) :
  In srcif (keys (relations st)) ->
  (forall N, In N neighbors ->
             In N (keys (relations st)) /\ exists a, our_addr N = Ok a) ->
  exists out, forward_update st srcif n_msg neighbors = Ok out.
Proof.
  intros Hs. induction neighbors as [|N rest IH]; intros Hn.
  - simpl. eauto.
  - destruct (Hn N (or_introl eq_refl)) as (HN & a & Ea).
    destruct (dict_get_In _ _ Hs) as (rs & Es).
    destruct (dict_get_In _ _ HN) as (rn & En).
    destruct IH as (out & Eo); [intros N' H'; apply Hn; right; assumption|].
    assert (Go : exists go, forwards st srcif N = Ok go).
    { unfold forwards. destruct (N =? srcif)%string; [eauto|].
      rewrite Es. cbn [bind]. destruct (is_cust rs); [eauto|].
      rewrite En. cbn [bind]. eauto. }
    destruct Go as (go & Eg).
    cbn [forward_update]. rewrite Eg. cbn [bind].
    destruct go.
    + rewrite Ea. cbn [bind]. unfold send. rewrite En. cbn [bind].
      rewrite Eo. cbn [bind]. eauto.
    + cbn [bind]. rewrite Eo. cbn [bind]. eauto.
Qed.

(** X26.  In a reachable state, an update from a neighbour can only fail
    while the table is coalesced: when [coalesce] returns a table, the
    handler returns the state with that table and the message logged, and
    when [coalesce] raises, the handler raises the same exception.  On
    the empty table the update is always handled, and the table then
    holds the announced route alone. *)
Theorem reachable_update_fails_only_in_coalesce
        (st : router) (srcif : string) (m : message)
        (nw nm : string) (lp : Z) (ap : list Z) (og : origin_t) (so : bool) :
  reachable st ->
  In srcif (keys (relations st)) ->
  msg m = Announcement nw nm lp ap og so ->
  let new_route := Route nw nm lp ap og so (src m) None None in
  (forall t, coalesce (routes st ++ [new_route]) = Ok t ->
     exists out,
       handle_update_msg st srcif m
       = Ok (Router (asn st) (relations st) (updates st ++ [m]) t, out)) /\
  (forall e, coalesce (routes st ++ [new_route]) = Raise e ->
     handle_update_msg st srcif m = Raise e) /\
  (routes st = [] ->
   exists out,
     handle_update_msg st srcif m
     = Ok (Router (asn st) (relations st) (updates st ++ [m]) [new_route],
           out)).
Proof.
  intros Hr Hs Hm new_route.
  apply reachable_invariant in Hr. destruct Hr as [_ Ha].
  assert (Ht : forall t, coalesce (routes st ++ [new_route]) = Ok t ->
     exists out,
       handle_update_msg st srcif m
       = Ok (Router (asn st) (relations st) (updates st ++ [m]) t, out)).
  { intros t Hc. unfold handle_update_msg. rewrite Hm. fold new_route.
    rewrite Hc. cbn [bind].
    destruct (forward_update_total
                (Router (asn st) (relations st) (updates st ++ [m]) t)
                srcif (Forwarded nm (asn st :: ap) nw) (keys (relations st)))
      as (out & Eo).
    - exact Hs.
    - intros N HN. split; [exact HN | apply Ha; exact HN].
    - rewrite Eo. cbn [bind]. eauto. }
  split; [exact Ht|]. split.
  - intros e Hc. unfold handle_update_msg. rewrite Hm. fold new_route.
    rewrite Hc. reflexivity.
  - intros He. apply Ht. rewrite He. reflexivity.
Qed.

Lemma reachable_update_fails_only_in_coalesce_witness :
  let new_route := Route "10.0.1.0" mask24 100 [2] IGP true (src upd_b)
                         None None in
  reachable st_aa /\
  In customer (keys (relations st_aa)) /\
  msg upd_b = Announcement "10.0.1.0" mask24 100 [2] IGP true /\
  coalesce (routes st_aa ++ [new_route]) = Raise ValueError /\
  handle_update_msg st_aa customer upd_b = Raise ValueError.
Proof.
  intros new_route.
  assert (H1 : reachable st_aa) by exact st_aa_reachable.
  assert (H2 : In customer (keys (relations st_aa))) by (left; reflexivity).
  assert (H3 : msg upd_b = Announcement "10.0.1.0" mask24 100 [2] IGP true)
    by reflexivity.
  assert (H4 : coalesce (routes st_aa ++ [new_route]) = Raise ValueError)
    by (vm_compute; reflexivity).
  split; [exact H1|]. split; [exact H2|]. split; [exact H3|].
  split; [exact H4|].
  exact (proj1 (proj2 (reachable_update_fails_only_in_coalesce
                         st_aa customer upd_b "10.0.1.0" mask24 100 [2] IGP true
                         H1 H2 H3))
               ValueError H4).
Defined.
